(** * EmojiCompat font creation script (createfont.py): model and properties

    A shallow embedding of [emoji/core/scripts/createfont.py].  The script
    is Python 2 ([iteritems], [print_function]).  Python integers are
    modelled by [Z], byte strings by [string], dictionaries that are only
    looked up and inserted into by [gmap], dictionaries of the font that the
    script iterates over by the list of their items in iteration order, and
    raised exceptions by the [Raise] case of [result]. *)

From Stdlib Require Import ZArith NArith Ascii String.
From stdpp Require Import gmap strings list fin_maps sorting.

Local Open Scope Z_scope.

(** ** Exceptions *)

Inductive exception :=
  | ValueError (msg : string)
  | IndexError
  | KeyError (key : string).

Inductive result (A : Type) :=
  | Ok (a : A)
  | Raise (e : exception).
Arguments Ok {A} a.
Arguments Raise {A} e.

#[global] Instance result_ret : MRet result := λ A a, Ok a.
#[global] Instance result_bind : MBind result := λ A B k r,
  match r with
  | Ok a => k a
  | Raise e => Raise e
  end.

(** A [for] loop whose body may raise: the state is threaded through the
    items in order and the first exception ends the loop. *)
Fixpoint for_each {A S} (body : S → A → result S) (xs : list A) (s : S)
  : result S :=
  match xs with
  | [] => Ok s
  | x :: xs' => s' ← body s x; for_each body xs' s'
  end.

(** A list comprehension whose element expression may raise. *)
Fixpoint comprehension {A B} (f : A → result B) (xs : list A)
  : result (list B) :=
  match xs with
  | [] => Ok []
  | x :: xs' => y ← f x; ys ← comprehension f xs'; Ok (y :: ys)
  end.

(** ** Python string operations used by the script *)

Module Py.

(** [str.isspace] on one byte of an ASCII string. *)
Definition isspace (c : ascii) : bool :=
  let n := N_of_ascii c in
  ((9 <=? n) && (n <=? 13) || (n =? 32))%N.

Fixpoint lstrip (s : string) : string :=
  match s with
  | String c s' => if isspace c then lstrip s' else s
  | EmptyString => EmptyString
  end.

(** [rstrip] keeps a character when it is not a space or something that
    is kept follows it. *)
Fixpoint rstrip (s : string) : string :=
  match s with
  | String c s' =>
      match rstrip s' with
      | EmptyString => if isspace c then EmptyString else String c EmptyString
      | r => String c r
      end
  | EmptyString => EmptyString
  end.

Definition strip (s : string) : string := rstrip (lstrip s).

Definition startswith (s pre : string) : bool := String.prefix pre s.

Definition upper_char (c : ascii) : ascii :=
  let n := N_of_ascii c in
  if ((97 <=? n) && (n <=? 122))%N then ascii_of_N (n - 32) else c.

Fixpoint upper (s : string) : string :=
  match s with
  | String c s' => String (upper_char c) (upper s')
  | EmptyString => EmptyString
  end.

(** [sub in s] *)
Fixpoint contains (sub s : string) : bool :=
  String.prefix sub s ||
  match s with
  | String _ s' => contains sub s'
  | EmptyString => false
  end.

(** [s.split(sep)] for a non-empty separator.  [skip] counts the
    characters of a separator occurrence still to be dropped and [cur]
    holds the characters of the current field, last one first. *)
Fixpoint split_go (sep : string) (skip : nat) (cur : string) (s : string)
  : list string :=
  match s with
  | EmptyString => [String.rev cur]
  | String c s' =>
      match skip with
      | S k => split_go sep k cur s'
      | O =>
          if String.prefix sep s
          then String.rev cur :: split_go sep (Nat.pred (String.length sep)) "" s'
          else split_go sep 0 (String c cur) s'
      end
  end.

Definition split (s sep : string) : list string := split_go sep 0 "" s.

(** [sep.join(parts)] *)
Fixpoint join (sep : string) (parts : list string) : string :=
  match parts with
  | [] => ""
  | [p] => p
  | p :: ps => p ++ sep ++ join sep ps
  end.

(** Digits.  [digit_char up d] is the character of the digit [d < 16],
    in upper case when [up]. *)
Definition digit_char (up : bool) (d : N) : ascii :=
  if (d <? 10)%N then ascii_of_N (48 + d)
  else ascii_of_N ((if up then 55 else 87) + d).

Definition digit_value (c : ascii) : option N :=
  let n := N_of_ascii c in
  if ((48 <=? n) && (n <=? 57))%N then Some (n - 48)%N
  else if ((65 <=? n) && (n <=? 70))%N then Some (n - 55)%N
  else if ((97 <=? n) && (n <=? 102))%N then Some (n - 87)%N
  else None.

(** The digits of [n] in [base], most significant first, in front of
    [acc]; [fuel] bounds the number of digits. *)
Fixpoint digits_go (base : N) (up : bool) (fuel : nat) (n : N) (acc : string)
  : string :=
  match fuel with
  | O => acc
  | S fuel' =>
      let acc' := String (digit_char up (n mod base)) acc in
      if (n / base =? 0)%N then acc'
      else digits_go base up fuel' (n / base) acc'
  end.

Definition digits (base : N) (up : bool) (n : N) : string :=
  digits_go base up (S (N.to_nat (N.log2 n))) n "".

(** A signed number: [prefix] comes between the sign and the digits. *)
Definition render (base : N) (up : bool) (prefix : string) (z : Z) : string :=
  (if (z <? 0)%Z then "-" else "") ++ prefix ++ digits base up (Z.abs_N z).

(** [sys.maxint] of a 64 bit platform.  An integer that [int(s, base)]
    returns is an [int] when it is within the machine range and a [long]
    when it is beyond. *)
Definition maxint : Z := 9223372036854775807.

Definition is_long (z : Z) : bool := (z <? - maxint - 1)%Z || (maxint <? z)%Z.

(** [format(value, 'X')], [hex(value)] and [str(value)].  Python 2 ends
    the [hex] of a [long] with an [L]; [format] and [str] write an [int]
    and a [long] alike. *)
Definition format_X (z : Z) : string := render 16 true "" z.
Definition hex (z : Z) : string :=
  render 16 false "0x" z ++ (if is_long z then "L" else "").
Definition str (z : Z) : string := render 10 false "" z.

Fixpoint parse_digits (base : N) (acc : N) (s : string) : option N :=
  match s with
  | EmptyString => Some acc
  | String c s' =>
      match digit_value c with
      | Some d =>
          if (d <? base)%N then parse_digits base (acc * base + d)%N s'
          else None
      | None => None
      end
  end.

Definition drop_sign (s : string) : bool * string :=
  match s with
  | String c s' =>
      if Ascii.eqb c "-" then (true, s')
      else if Ascii.eqb c "+" then (false, s')
      else (false, s)
  | EmptyString => (false, s)
  end.

Definition drop_0x (s : string) : string :=
  match s with
  | String c1 (String c2 s') =>
      if Ascii.eqb c1 "0" && (Ascii.eqb c2 "x" || Ascii.eqb c2 "X")
      then s' else s
  | _ => s
  end.

(** [int(s, base)] for base 10 and 16: surrounding white space, an
    optional sign, for base 16 an optional [0x] prefix, and one or more
    digits; anything else is a [ValueError]. *)
Definition int (s : string) (base : N) : result Z :=
  let '(neg, body) := drop_sign (strip s) in
  let body := if (base =? 16)%N then drop_0x body else body in
  match body with
  | EmptyString => Raise (ValueError "invalid literal for int()")
  | _ =>
      match parse_digits base 0 body with
      | Some n => Ok (if neg then (- Z.of_N n)%Z else Z.of_N n)
      | None => Raise (ValueError "invalid literal for int()")
      end
  end.

(** [range(lo, hi)] as the Python 2 list, for bounds within the machine
    range; its elements are machine integers then. *)
Definition range (lo hi : Z) : list Z :=
  (fun i => (lo + Z.of_nat i)%Z) <$> seq 0 (Z.to_nat (hi - lo)%Z).

(** [sorted(l, key=key)]: a stable sort. *)
Fixpoint insert_sorted {A} (key : A → Z) (x : A) (l : list A) : list A :=
  match l with
  | [] => [x]
  | y :: l' =>
      if (key x <=? key y)%Z then x :: y :: l' else y :: insert_sorted key x l'
  end.

Definition sorted {A} (l : list A) (key : A → Z) : list A :=
  foldr (insert_sorted key) [] l.

End Py.

(** ** Constants of the script *)

Definition EMOJI_STYLE_EXCEPTIONS : list Z :=
  [0x2600; 0x2601; 0x260e; 0x261d; 0x263a; 0x2660;
   0x2663; 0x2665; 0x2666; 0x270c; 0x2744; 0x2764]%Z.

Definition DEFAULT_EMOJI_ID : Z := 0xF0001.
Definition EMOJI_STYLE_VS : Z := 0xFE0F.
Definition SDK_VERSION : Z := 25.
Definition METADATA_VERSION : Z := 1.

Definition to_hex (value : Z) : string := Py.format_X value.

Definition hex_str_to_int (s : string) : result Z := Py.int s 16.

Definition codepoint_to_string (codepoints : list Z) : string :=
  Py.join " " (Py.hex <$> codepoints).

(** [row[i]] on a list. *)
Definition index {A} (l : list A) (i : nat) : result A :=
  match l !! i with
  | Some x => Ok x
  | None => Raise IndexError
  end.

(** [d[key]] on a dictionary with string keys. *)
Definition getitem {V} (d : gmap string V) (key : string) : result V :=
  match d !! key with
  | Some v => Ok v
  | None => Raise (KeyError key)
  end.

(** The image metrics of a glyph, as far as the script reads them. *)
Record metrics := { metrics_width : Z; metrics_height : Z }.

(** The element [create_json_element] builds. *)
Record json_element := {
  j_id : Z;
  j_emojiStyle : bool;
  j_sdkAdded : Z;
  j_compatAdded : Z;
  j_width : Z;
  j_height : Z;
  j_codepoints : list Z
}.

Record json_document := { j_version : Z; j_list : list json_element }.

(** ** class _EmojiData *)

Module EmojiData.

Record t := {
  codepoints : list Z;
  emoji_style : bool;
  emoji_id : Z;
  width : Z;
  height : Z;
  sdk_added : Z;
  compat_added : Z
}.

Definition init (codepoints : list Z) (is_emoji_style : bool) : t :=
  {| codepoints := codepoints;
     emoji_style := is_emoji_style;
     emoji_id := 0;
     width := 0;
     height := 0;
     sdk_added := SDK_VERSION;
     compat_added := METADATA_VERSION |}.

Definition update_metrics (self : t) (m : metrics) : t :=
  {| codepoints := codepoints self;
     emoji_style := emoji_style self;
     emoji_id := emoji_id self;
     width := metrics_width m;
     height := metrics_height m;
     sdk_added := sdk_added self;
     compat_added := compat_added self |}.

Definition create_json_element (self : t) : json_element :=
  {| j_id := emoji_id self;
     j_emojiStyle := emoji_style self;
     j_sdkAdded := sdk_added self;
     j_compatAdded := compat_added self;
     j_width := width self;
     j_height := height self;
     j_codepoints := codepoints self |}.

(** The row holds two integers; [csv.writer] writes them with [str]. *)
Definition create_txt_row (self : t) : list string :=
  [to_hex (emoji_id self); Py.str (sdk_added self); Py.str (compat_added self)]
  ++ (to_hex <$> codepoints self).

Definition update (self : t) (emoji_id sdk_added compat_added : Z) : t :=
  {| codepoints := codepoints self;
     emoji_style := emoji_style self;
     emoji_id := emoji_id;
     width := width self;
     height := height self;
     sdk_added := sdk_added;
     compat_added := compat_added |}.

(** The assignments [emoji_data.emoji_style = True] and
    [emoji_data.emoji_id = ...] made from outside the class. *)
Definition set_emoji_style (self : t) (v : bool) : t :=
  {| codepoints := codepoints self;
     emoji_style := v;
     emoji_id := emoji_id self;
     width := width self;
     height := height self;
     sdk_added := sdk_added self;
     compat_added := compat_added self |}.

Definition set_emoji_id (self : t) (v : Z) : t :=
  {| codepoints := codepoints self;
     emoji_style := emoji_style self;
     emoji_id := v;
     width := width self;
     height := height self;
     sdk_added := sdk_added self;
     compat_added := compat_added self |}.

End EmojiData.

(** The registry: space separated code points to the emoji's data.  Every
    [_EmojiData] object is referenced from one key of the dictionary only,
    so an update in place is an insertion under that key. *)
Abbreviation emoji_map := (gmap string EmojiData.t).

(** ** Reading the Unicode files *)

(** A text file is the list of its lines. *)
Definition read_emoji_lines (file : list string) : list string :=
  foldr (fun line result =>
           let line := Py.strip line in
           if negb (String.eqb line "") && negb (Py.startswith line "#")
           then Py.upper line :: result else result)
        [] file.

(** Lines 228 to 237: the code points of an interval line and whether the
    line carries the presentation property. *)
Definition interval_line (line : string) : result (list Z * bool) :=
  fields ← index (Py.split line "#") 0;
  match Py.strip <$> Py.split fields ";" with
  | [codepoints_range; emoji_property] =>
      let is_emoji_style := String.eqb emoji_property "EMOJI_PRESENTATION" in
      if Py.contains ".." codepoints_range then
        match Py.split codepoints_range ".." with
        | [range_start; range_end] =>
            range_start ← hex_str_to_int range_start;
            range_end ← hex_str_to_int range_end;
            Ok (Py.range range_start (range_end + 1), is_emoji_style)
        | _ => Raise (ValueError "unpack")
        end
      else
        codepoint ← hex_str_to_int codepoints_range;
        Ok ([codepoint], is_emoji_style)
  | _ => Raise (ValueError "unpack")
  end.

(** Lines 240 to 249: the body of the loop over the code points. *)
Definition add_interval_codepoint (is_emoji_style : bool)
    (emoji_data_map : emoji_map) (codepoint : Z) : emoji_map :=
  let key := codepoint_to_string [codepoint] in
  let codepoint_is_emoji_style :=
    is_emoji_style || bool_decide (codepoint ∈ EMOJI_STYLE_EXCEPTIONS) in
  match emoji_data_map !! key with
  | Some emoji_data =>
      if codepoint_is_emoji_style
      then <[key := EmojiData.set_emoji_style emoji_data true]> emoji_data_map
      else emoji_data_map
  | None =>
      <[key := EmojiData.init [codepoint] codepoint_is_emoji_style]> emoji_data_map
  end.

Definition read_emoji_intervals (emoji_data_map : emoji_map)
    (file : list string) : result emoji_map :=
  for_each (fun emoji_data_map line =>
              '(codepoints, is_emoji_style) ← interval_line line;
              Ok (foldl (add_interval_codepoint is_emoji_style)
                        emoji_data_map codepoints))
           (read_emoji_lines file) emoji_data_map.

(** Line 258: the code points written on a sequence line. *)
Definition sequence_line (line : string) : result (list Z) :=
  fields ← index (Py.split line ";") 0;
  comprehension hex_str_to_int (Py.split (Py.strip fields) " ").

(** Lines 258 to 263: the body of the loop over the lines. *)
Definition add_sequence (emoji_data_map : emoji_map) (line : string)
  : result emoji_map :=
  codepoints ← sequence_line line;
  let codepoints := filter (fun x => x ≠ EMOJI_STYLE_VS) codepoints in
  let key := codepoint_to_string codepoints in
  match emoji_data_map !! key with
  | None => Ok (<[key := EmojiData.init codepoints false]> emoji_data_map)
  | Some _ => Ok emoji_data_map
  end.

Definition read_emoji_sequences (emoji_data_map : emoji_map)
    (file : list string) : result emoji_map :=
  for_each add_sequence (read_emoji_lines file) emoji_data_map.

(** The directory of Unicode files, and the optional file of the library. *)
Record unicode_dir := {
  EMOJI_DATA_FILE : list string;
  EMOJI_SEQ_FILE : list string;
  EMOJI_ZWJ_FILE : list string
}.

Definition load_emoji_data_map (unicode_path : unicode_dir)
    (ANDROID_EMOJIS_FILE : option (list string)) : result emoji_map :=
  emoji_data_map ← read_emoji_intervals ∅ (EMOJI_DATA_FILE unicode_path);
  emoji_data_map ← read_emoji_sequences emoji_data_map (EMOJI_ZWJ_FILE unicode_path);
  emoji_data_map ← read_emoji_sequences emoji_data_map (EMOJI_SEQ_FILE unicode_path);
  match ANDROID_EMOJIS_FILE with
  | Some file => read_emoji_sequences emoji_data_map file
  | None => Ok emoji_data_map
  end.

(** ** The previous metadata *)

(** The metadata file as [csv.reader] with a space as delimiter yields it and
    [csv.writer] takes it: a list of rows of fields.  None of the fields the
    script writes needs quoting. *)
Abbreviation csv_file := (list (list string)).

(** Lines 292 to 297: what a row says, [None] for a comment row. *)
Definition snapshot_row (row : list string)
  : result (option (Z * Z * Z * list Z)) :=
  row0 ← index row 0;
  if Py.startswith row0 "#" then Ok None
  else
    emoji_id ← hex_str_to_int row0;
    sdk_added ← (row1 ← index row 1; Py.int row1 10);
    compat_added ← (row2 ← index row 2; Py.int row2 10);
    codepoints ← comprehension hex_str_to_int (drop 3 row);
    Ok (Some (emoji_id, sdk_added, compat_added, codepoints)).

(** Lines 292 to 302: the body of the loop over the rows. *)
Definition load_previous_row (st : emoji_map * Z) (row : list string)
  : result (emoji_map * Z) :=
  let '(emoji_data_map, current_emoji_id) := st in
  r ← snapshot_row row;
  match r with
  | None => Ok st
  | Some (emoji_id, sdk_added, compat_added, codepoints) =>
      let key := codepoint_to_string codepoints in
      match emoji_data_map !! key with
      | Some emoji_data =>
          let emoji_data :=
            EmojiData.update emoji_data emoji_id sdk_added compat_added in
          Ok (<[key := emoji_data]> emoji_data_map,
              if (EmojiData.emoji_id emoji_data >=? current_emoji_id)%Z
              then (EmojiData.emoji_id emoji_data + 1)%Z
              else current_emoji_id)
      | None => Ok st
      end
  end.

Definition load_previous_metadata (emoji_data_map : emoji_map)
    (INPUT_CSV_FILE : option csv_file) : result (emoji_map * Z) :=
  let current_emoji_id := DEFAULT_EMOJI_ID in
  match INPUT_CSV_FILE with
  | Some csvfile =>
      for_each load_previous_row csvfile (emoji_data_map, current_emoji_id)
  | None => Ok (emoji_data_map, current_emoji_id)
  end.

(** ** The font

    What the script touches of a [ttLib.TTFont]: the revision in [head], the
    strikes of [CBDT], the tables of [cmap] and the ligature subtables of
    [GSUB].  A dictionary of the font is the list of its items in the order
    [iteritems] yields them. *)

Record cmap_table := {
  format : Z;
  platformID : Z;
  platEncID : Z;
  cmap : list (Z * string)
}.

Record Ligature := { Component : list string; LigGlyph : string }.

(** A subtable is its [ligatures] dictionary, a lookup its [SubTable] list. *)
Abbreviation subtable := (list (string * list Ligature)).
Abbreviation lookup_table := (list subtable).

Record TTFont := {
  head_fontRevision : Z;
  CBDT_strikeData : list (list (string * metrics));
  cmap_tables : list cmap_table;
  GSUB_Lookup : list lookup_table
}.

(** [d.update(other)] on the items of [d]. *)
Definition dict_update (d : list (Z * string)) (other : gmap Z string)
  : list (Z * string) :=
  map_to_list (other ∪ list_to_map d).

(** ** class EmojiFontCreator *)

Module EmojiFontCreator.

Record t := {
  emoji_data_map : emoji_map;
  remapped_codepoints : gmap Z string;
  glyph_to_image_metrics_map : gmap string metrics;
  emoji_id : Z
}.

(** [__init__], after [validate_input_files]: the model is given the
    contents of the files, not their paths. *)
Definition init : t :=
  {| emoji_data_map := ∅;
     remapped_codepoints := ∅;
     glyph_to_image_metrics_map := ∅;
     emoji_id := DEFAULT_EMOJI_ID |}.

Definition update_emoji_data (self : t) (codepoints : list Z)
    (glyph_name : string) : result t :=
  let key := codepoint_to_string codepoints in
  match emoji_data_map self !! key with
  | Some emoji_data =>
      m ← getitem (glyph_to_image_metrics_map self) glyph_name;
      let emoji_data := EmojiData.update_metrics emoji_data m in
      let '(emoji_data, next_id) :=
        if (EmojiData.emoji_id emoji_data =? 0)%Z
        then (EmojiData.set_emoji_id emoji_data (emoji_id self),
              (emoji_id self + 1)%Z)
        else (emoji_data, emoji_id self) in
      Ok {| emoji_data_map := <[key := emoji_data]> (emoji_data_map self);
            remapped_codepoints :=
              <[EmojiData.emoji_id emoji_data := glyph_name]>
                (remapped_codepoints self);
            glyph_to_image_metrics_map := glyph_to_image_metrics_map self;
            emoji_id := next_id |}
  | None => Ok self
  end.

Definition read_cbdt (self : t) (ttf : TTFont) : t :=
  {| emoji_data_map := emoji_data_map self;
     remapped_codepoints := remapped_codepoints self;
     glyph_to_image_metrics_map :=
       foldl (fun m strike_data =>
                foldl (fun m '(key, data) => <[key := data]> m) m strike_data)
             (glyph_to_image_metrics_map self) (CBDT_strikeData ttf);
     emoji_id := emoji_id self |}.

Definition is_cmap12 (table : cmap_table) : bool :=
  (format table =? 12)%Z && (platformID table =? 3)%Z
  && (platEncID table =? 10)%Z.

Definition no_cmap12 : exception :=
  ValueError "Font doesn't contain cmap with format:12, platformID:3 and platEncID:10".

Definition clear_cmap (table : cmap_table) : cmap_table :=
  {| format := format table;
     platformID := platformID table;
     platEncID := platEncID table;
     cmap := [] |}.

(** The body of the loop over the items of the table. *)
Definition read_cmap12_item (st : t * gmap string Z) (item : Z * string)
  : result (t * gmap string Z) :=
  let '(self, glyph_to_codepoint_map) := st in
  let '(codepoint, glyph_name) := item in
  let glyph_to_codepoint_map :=
    <[glyph_name := codepoint]> glyph_to_codepoint_map in
  self ← update_emoji_data self [codepoint] glyph_name;
  Ok (self, glyph_to_codepoint_map).

(** The loop over [cmap.tables]; [seen] holds the tables already passed.
    The table the script returns is a table of the font, so the result
    names it by its position among the tables. *)
Fixpoint read_and_clear_cmap12_loop (self : t) (seen tables : list cmap_table)
    (glyph_to_codepoint_map : gmap string Z)
  : result (t * list cmap_table * gmap string Z * nat) :=
  match tables with
  | [] => Raise no_cmap12
  | table :: tables' =>
      if is_cmap12 table then
        '(self, glyph_to_codepoint_map) ←
          for_each read_cmap12_item (cmap table) (self, glyph_to_codepoint_map);
        Ok (self, seen ++ clear_cmap table :: tables',
            glyph_to_codepoint_map, length seen)
      else
        read_and_clear_cmap12_loop self (seen ++ [table]) tables'
                                   glyph_to_codepoint_map
  end.

Definition set_cmap_tables (ttf : TTFont) (tables : list cmap_table) : TTFont :=
  {| head_fontRevision := head_fontRevision ttf;
     CBDT_strikeData := CBDT_strikeData ttf;
     cmap_tables := tables;
     GSUB_Lookup := GSUB_Lookup ttf |}.

Definition read_and_clear_cmap12 (self : t) (ttf : TTFont)
    (glyph_to_codepoint_map : gmap string Z)
  : result (t * TTFont * gmap string Z * nat) :=
  '(self, tables, glyph_to_codepoint_map, table) ←
    read_and_clear_cmap12_loop self [] (cmap_tables ttf) glyph_to_codepoint_map;
  Ok (self, set_cmap_tables ttf tables, glyph_to_codepoint_map, table).

(** The body of the innermost loop of [read_and_clear_gsub]. *)
Definition read_ligature (glyph_to_codepoint_map : gmap string Z)
    (name : string) (self : t) (ligature : Ligature) : result t :=
  let glyph_names := name :: Component ligature in
  codepoints ← comprehension (getitem glyph_to_codepoint_map) glyph_names;
  update_emoji_data self codepoints (LigGlyph ligature).

Definition read_subtable (glyph_to_codepoint_map : gmap string Z)
    (self : t) (ligatures : subtable) : result t :=
  for_each (fun self '(name, ligatures) =>
              for_each (read_ligature glyph_to_codepoint_map name) ligatures self)
           ligatures self.

(** All ligatures are cleared when the walk comes to its end; a walk that
    raises leaves no font behind. *)
Definition read_and_clear_gsub (self : t) (ttf : TTFont)
    (glyph_to_codepoint_map : gmap string Z) : result (t * TTFont) :=
  self ← for_each (fun (self : t) (lookup : lookup_table) =>
                     for_each (read_subtable glyph_to_codepoint_map) lookup self)
                  (GSUB_Lookup ttf) self;
  Ok (self,
      {| head_fontRevision := head_fontRevision ttf;
         CBDT_strikeData := CBDT_strikeData ttf;
         cmap_tables := cmap_tables ttf;
         GSUB_Lookup :=
           (fun lookup : lookup_table => (fun _ : subtable => [] : subtable) <$> lookup)
             <$> GSUB_Lookup ttf |}).

(** [sorted(self.emoji_data_map.values(), key=lambda x: x.emoji_id)].
    Python 2 leaves the order of [values()] open; the model takes the order
    of [map_to_list], and the sort keeps entries of equal id in it. *)
Definition emoji_data_list (self : t) : list EmojiData.t :=
  Py.sorted (snd <$> map_to_list (emoji_data_map self)) EmojiData.emoji_id.

(** The document handed to [json.dumps], and the number of its elements. *)
Definition write_metadata_json (self : t) : json_document * Z :=
  let '(elements, total_emoji_count) :=
    foldl (fun '(elements, total_emoji_count) emoji_data =>
             (elements ++ [EmojiData.create_json_element emoji_data],
              (total_emoji_count + 1)%Z))
          ([], 0%Z) (emoji_data_list self) in
  ({| j_version := METADATA_VERSION; j_list := elements |}, total_emoji_count).

Definition write_metadata_csv (self : t) : csv_file :=
  ["#id"; "sdkAdded"; "compatAdded"; "codepoints"]
  :: (EmojiData.create_txt_row <$> emoji_data_list self).

(** What a run leaves behind: the font before the metadata is injected
    and the font saved, and the two metadata files. *)
Record output := {
  out_font : TTFont;
  out_json : json_document;
  out_csv : csv_file;
  total_emoji_count : Z
}.

(** [cmap12_table.cmap.update(self.remapped_codepoints)] on the table the
    walk returned. *)
Definition update_cmap (ttf : TTFont) (table : nat) (other : gmap Z string)
  : TTFont :=
  set_cmap_tables ttf
    (alter (fun t => {| format := format t;
                        platformID := platformID t;
                        platEncID := platEncID t;
                        cmap := dict_update (cmap t) other |})
           table (cmap_tables ttf)).

(** Lines 463 to 475 of [create_font]: the image metrics, the two walks and
    the new contents of the table. *)
Definition rewrite_tables (self : t) (ttf : TTFont) : result (t * TTFont) :=
  let self := read_cbdt self ttf in
  let glyph_to_codepoint_map := ∅ in
  '(self, ttf, glyph_to_codepoint_map, cmap12_table) ←
    read_and_clear_cmap12 self ttf glyph_to_codepoint_map;
  '(self, ttf) ← read_and_clear_gsub self ttf glyph_to_codepoint_map;
  let ttf := update_cmap ttf cmap12_table (remapped_codepoints self) in
  Ok (self, ttf).

(** [create_font] up to the two metadata files; what follows (the
    flatbuffer compiler, the injection of its result, saving the font and
    the tests) is outside the model. *)
Definition create_font (self : t) (unicode_path : unicode_dir)
    (ANDROID_EMOJIS_FILE : option (list string))
    (INPUT_CSV_FILE : option csv_file) (ttf : TTFont) : result (t * output) :=
  emoji_data_map ← load_emoji_data_map unicode_path ANDROID_EMOJIS_FILE;
  '(emoji_data_map, emoji_id) ← load_previous_metadata emoji_data_map INPUT_CSV_FILE;
  let self := {| emoji_data_map := emoji_data_map;
                 remapped_codepoints := remapped_codepoints self;
                 glyph_to_image_metrics_map := glyph_to_image_metrics_map self;
                 emoji_id := emoji_id |} in
  let ttf := {| head_fontRevision := METADATA_VERSION;
                CBDT_strikeData := CBDT_strikeData ttf;
                cmap_tables := cmap_tables ttf;
                GSUB_Lookup := GSUB_Lookup ttf |} in
  '(self, ttf) ← rewrite_tables self ttf;
  let '(json, total_emoji_count) := write_metadata_json self in
  let csv := write_metadata_csv self in
  Ok (self, {| out_font := ttf; out_json := json; out_csv := csv;
               total_emoji_count := total_emoji_count |}).

End EmojiFontCreator.


(** ** The order of the tables and the generated sources *)

(** [l.remove(x)]: the list without the first [x], and a [ValueError] when
    [x] is not in the list. *)
Fixpoint list_remove (l : list string) (x : string) : result (list string) :=
  match l with
  | [] => Raise (ValueError "list.remove(x): x not in list")
  | y :: l' =>
      if String.eqb y x then Ok l'
      else l'' ← list_remove l' x; Ok (y :: l'')
  end.

(** The closure that [update_ttlib_orig_sort] puts in the place of
    [ttLib.sortedTagList], over the function that was there. *)
Definition meta_first_table_sort
    (orig_sort : list string → option (list string) → list string)
    (tag_list : list string) (table_order : option (list string))
  : result (list string) :=
  let tag_list := orig_sort tag_list table_order in
  tag_list ← list_remove tag_list "meta";
  Ok ("meta" :: tag_list).

(** [s.index(sub)]: where [sub] begins in [s] for the first time. *)
Fixpoint str_index (s sub : string) : result nat :=
  if String.prefix sub s then Ok 0%nat
  else match s with
       | EmptyString => Raise (ValueError "substring not found")
       | String _ s' => i ← str_index s' sub; Ok (S i)
       end.

(** [s[start:]] *)
Fixpoint slice_from (start : nat) (s : string) : string :=
  match start, s with
  | O, _ => s
  | S n, String _ s' => slice_from n s'
  | S _, EmptyString => EmptyString
  end.

(** A file that is written to from its start and closed, and not truncated:
    the text takes the place of as many characters, and what the file holds
    behind them stays. *)
Definition write_at_start (content text : string) : string :=
  text ++ slice_from (String.length text) content.

Definition newline : string := String "010" EmptyString.

(** The file at [file_path] is given by its contents and so is the header
    file; the result is what the file holds when it is closed. *)
Definition prepend_header_to_file (original_content copyright : string)
  : result string :=
  start_index ← str_index original_content "public final class";
  Ok (write_at_start original_content
        (copyright ++ newline ++ slice_from start_index original_content)).
(** * Notions used in the statements *)

Fixpoint all_chars (P : ascii → Prop) (s : string) : Prop :=
  match s with
  | EmptyString => True
  | String c s' => P c ∧ all_chars P s'
  end.

Definition is_digit (c : ascii) : Prop := is_Some (Py.digit_value c).

Definition not_space (c : ascii) : Prop := Py.isspace c = false.

(** Every entry is stored under the key of its code points. *)
Definition keyed (m : emoji_map) : Prop :=
  map_Forall (fun key e => codepoint_to_string (EmojiData.codepoints e) = key) m.

(** The entry under [key] is an emoji style entry. *)
Definition styled (key : string) (m : emoji_map) : Prop :=
  ∃ e, m !! key = Some e ∧ EmojiData.emoji_style e = true.

(** The code points of a sequence line without the variation selector. *)
Definition sequence_codepoints (codepoints : list Z) : list Z :=
  filter (fun x => x ≠ EMOJI_STYLE_VS) codepoints.

(** ** Sample inputs *)

Module Sample.

Definition unicode : unicode_dir :=
  {| EMOJI_DATA_FILE :=
       ["# emoji-data.txt"; "";
        "2764 ; Emoji # heavy black heart";
        "1F600..1F602 ; Emoji_Presentation # faces";
        "1F1E6 ; Emoji # regional indicator a";
        "1F1E8 ; Emoji # regional indicator c"];
     EMOJI_SEQ_FILE :=
       ["1F1E6 1F1E8 ; Emoji_Flag_Sequence ; ascension island";
        "2764 FE0F ; Emoji_Presentation_Sequence ; heart"];
     EMOJI_ZWJ_FILE :=
       ["1F468 200D 2764 FE0F 200D 1F468 ; Emoji_ZWJ_Sequence ; couple"] |}.

(** The registry of the sample files. *)
Definition registry : emoji_map :=
  match load_emoji_data_map unicode None with
  | Ok m => m
  | Raise _ => ∅
  end.

(** The registry after the interval file, and after the sequence file is
    read on top of it. *)
Definition interval_registry : emoji_map :=
  match read_emoji_intervals ∅ (EMOJI_DATA_FILE unicode) with
  | Ok m => m
  | Raise _ => ∅
  end.

Definition sequence_registry : emoji_map :=
  match read_emoji_sequences interval_registry (EMOJI_SEQ_FILE unicode) with
  | Ok m => m
  | Raise _ => ∅
  end.

(** A metadata file of an earlier run.  The sample font has no glyph for
    the emoji of the third row, and the sample files do not define the
    emoji of the last row any more. *)
Definition csv : csv_file :=
  [["#id"; "sdkAdded"; "compatAdded"; "codepoints"];
   ["F0005"; "19"; "1"; "1F600"];
   ["F0007"; "19"; "1"; "1F601"];
   ["F0009"; "19"; "1"; "1F999"]].

Definition strike : list (string * metrics) :=
  [("g2764", {| metrics_width := 100; metrics_height := 90 |});
   ("g1F600", {| metrics_width := 136; metrics_height := 128 |});
   ("gA", {| metrics_width := 68; metrics_height := 64 |});
   ("gC", {| metrics_width := 68; metrics_height := 64 |});
   ("gAC", {| metrics_width := 136; metrics_height := 100 |})].

Definition cmap4 : cmap_table :=
  {| format := 4; platformID := 3; platEncID := 1; cmap := [(0x41, "A")] |}.

Definition cmap12 : cmap_table :=
  {| format := 12; platformID := 3; platEncID := 10;
     cmap := [(0x2764, "g2764"); (0x1F600, "g1F600");
              (0x1F1E6, "gA"); (0x1F1E8, "gC")] |}.

Definition gsub : list lookup_table :=
  [[[("gA", [{| Component := ["gC"]; LigGlyph := "gAC" |}])]]].

Definition font : TTFont :=
  {| head_fontRevision := 2;
     CBDT_strikeData := [strike];
     cmap_tables := [cmap4; cmap12];
     GSUB_Lookup := gsub |}.

(** The sample registry after the sample metadata file is read. *)
Definition reconciled_registry : emoji_map :=
  match load_previous_metadata registry (Some csv) with
  | Ok (m, _) => m
  | Raise _ => ∅
  end.

(** A creator that holds the sample registry and the image metrics of the
    sample font, and what two calls for the same entry with two glyphs
    make of it. *)
Definition creator : EmojiFontCreator.t :=
  EmojiFontCreator.read_cbdt
    {| EmojiFontCreator.emoji_data_map := registry;
       EmojiFontCreator.remapped_codepoints := ∅;
       EmojiFontCreator.glyph_to_image_metrics_map := ∅;
       EmojiFontCreator.emoji_id := DEFAULT_EMOJI_ID |}
    font.

Definition two_calls : list (list Z * string) :=
  [([0x1F600], "g1F600"); ([0x1F600], "gA")].

Definition after_first_call : EmojiFontCreator.t :=
  match EmojiFontCreator.update_emoji_data creator [0x1F600] "g1F600" with
  | Ok self => self
  | Raise _ => creator
  end.

Definition after_second_call : EmojiFontCreator.t :=
  match EmojiFontCreator.update_emoji_data after_first_call [0x1F600] "gA" with
  | Ok self => self
  | Raise _ => creator
  end.

(** The run on the sample inputs. *)
Definition run : EmojiFontCreator.t * EmojiFontCreator.output :=
  match EmojiFontCreator.create_font EmojiFontCreator.init unicode None
          (Some csv) font with
  | Ok r => r
  | Raise _ =>
      (EmojiFontCreator.init,
       {| EmojiFontCreator.out_font := font;
          EmojiFontCreator.out_json := {| j_version := 0; j_list := [] |};
          EmojiFontCreator.out_csv := [];
          EmojiFontCreator.total_emoji_count := 0 |})
  end.

(** The sample font with a ligature rule whose second glyph is not the
    glyph of any code point. *)
Definition stray_ligature : Ligature :=
  {| Component := ["gZ"]; LigGlyph := "gAZ" |}.

Definition stray_font : TTFont :=
  {| head_fontRevision := 2;
     CBDT_strikeData := [strike];
     cmap_tables := [cmap4; cmap12];
     GSUB_Lookup := [[[("gA", [stray_ligature])]]] |}.

(** A metadata file whose largest id is 1, and the registry after it is
    read. *)
Definition low_csv : csv_file :=
  [["#id"; "sdkAdded"; "compatAdded"; "codepoints"];
   ["1"; "19"; "1"; "1F600"]].

Definition low_registry : emoji_map :=
  match load_previous_metadata registry (Some low_csv) with
  | Ok (m, _) => m
  | Raise _ => ∅
  end.

(** A metadata file with one id in two records, and the run on it. *)
Definition shared_csv : csv_file :=
  [["#id"; "sdkAdded"; "compatAdded"; "codepoints"];
   ["F0005"; "19"; "1"; "1F600"];
   ["F0005"; "19"; "1"; "1F601"]].

Definition shared_run : EmojiFontCreator.t * EmojiFontCreator.output :=
  match EmojiFontCreator.create_font EmojiFontCreator.init unicode None
          (Some shared_csv) font with
  | Ok r => r
  | Raise _ => run
  end.

End Sample.

(** ** Notions about the font *)

(** The font has a table of format 12 for platform 3, encoding 10. *)
Definition has_cmap12 (ttf : TTFont) : Prop :=
  ∃ table, table ∈ cmap_tables ttf
           ∧ format table = 12 ∧ platformID table = 3 ∧ platEncID table = 10.

(** The exception is a [KeyError] for a glyph without image metrics. *)
Definition metrics_missing (self : EmojiFontCreator.t) (e : exception) : Prop :=
  ∃ glyph_name, e = KeyError glyph_name
                ∧ EmojiFontCreator.glyph_to_image_metrics_map self !! glyph_name = None.

(** A call of [update_emoji_data]: the code points and the glyph. *)
Abbreviation call := (list Z * string)%type.

(** The calls made one after the other. *)
Definition correlate_all (self : EmojiFontCreator.t) (calls : list call)
  : result EmojiFontCreator.t :=
  for_each (fun self '(codepoints, glyph_name) =>
              EmojiFontCreator.update_emoji_data self codepoints glyph_name)
           calls self.

(** The calls that the walk over a table of format 12 makes, and the glyph
    to code point table it fills. *)
Definition cmap12_calls (table : cmap_table) : list call :=
  (fun '(codepoint, glyph_name) => ([codepoint], glyph_name)) <$> cmap table.

Definition side_table (table : cmap_table) (start : gmap string Z)
  : gmap string Z :=
  foldl (fun m '(codepoint, glyph_name) => <[glyph_name := codepoint]> m)
        start (cmap table).

(** The ligature rules of the font in the order of the walk: the glyphs of
    the sequence and the glyph of the ligature. *)
Definition subtable_rules (ligatures : subtable) : list (list string * string) :=
  '(name, ligatures) ← ligatures;
  (fun ligature => (name :: Component ligature, LigGlyph ligature)) <$> ligatures.

Definition ligature_rules (ttf : TTFont) : list (list string * string) :=
  lookup ← GSUB_Lookup ttf; subtable ← lookup; subtable_rules subtable.

(** The call that a ligature rule leads to. *)
Definition rule_call (glyph_to_codepoint_map : gmap string Z)
    (rule : list string * string) : result call :=
  codepoints ← comprehension (getitem glyph_to_codepoint_map) rule.1;
  Ok (codepoints, rule.2).

(** The table of format 12 after the run: its items are those of the
    dictionary of remapped code points. *)
Definition remapped_table (table : cmap_table) (remapped : gmap Z string)
  : cmap_table :=
  {| format := format table;
     platformID := platformID table;
     platEncID := platEncID table;
     cmap := map_to_list remapped |}.

(** The first table of format 12 of the font, between the tables in front
    of it and those behind it. *)
Definition first_cmap12 (ttf : TTFont) (before : list cmap_table)
    (table : cmap_table) (after : list cmap_table) : Prop :=
  cmap_tables ttf = before ++ table :: after
  ∧ (∀ t, t ∈ before → EmojiFontCreator.is_cmap12 t = false)
  ∧ EmojiFontCreator.is_cmap12 table = true.

(** The calls of a run on the font: those for the items of the table, then
    those for the ligature rules. *)
Definition glyph_calls (ttf : TTFont) (table : cmap_table) : result (list call) :=
  calls ← comprehension (rule_call (side_table table ∅)) (ligature_rules ttf);
  Ok (cmap12_calls table ++ calls).

(** The entry after a call of [update_emoji_data] that finds it: the image
    metrics are those of the glyph, and the id is the next one when the
    entry has none. *)
Definition correlated (e : EmojiData.t) (m : metrics) (next : Z) : EmojiData.t :=
  let e := EmojiData.update_metrics e m in
  if EmojiData.emoji_id e =? 0 then EmojiData.set_emoji_id e next else e.

(** ** Notions about the previous metadata *)

(** [id] is the id of a record of the file whose key is in the registry. *)
Definition matched (m : emoji_map) (csvfile : csv_file) (id : Z) : Prop :=
  ∃ row sdk_added compat_added codepoints,
    row ∈ csvfile
    ∧ snapshot_row row = Ok (Some (id, sdk_added, compat_added, codepoints))
    ∧ is_Some (m !! codepoint_to_string codepoints).

(** A record of the file has the key [key], and its id is [id]. *)
Definition recorded (csvfile : csv_file) (key : string) (id : Z) : Prop :=
  ∃ row sdk_added compat_added codepoints,
    row ∈ csvfile
    ∧ snapshot_row row = Ok (Some (id, sdk_added, compat_added, codepoints))
    ∧ codepoint_to_string codepoints = key.

(** The entry with the id and the versions of a record. *)
Definition reconciled (record e : EmojiData.t) : EmojiData.t :=
  EmojiData.update e (EmojiData.emoji_id record) (EmojiData.sdk_added record)
                   (EmojiData.compat_added record).

(** The key under which an entry belongs. *)
Definition key_of (e : EmojiData.t) : string :=
  codepoint_to_string (EmojiData.codepoints e).

(** Ascending by id. *)
Definition ascending (l : list EmojiData.t) : Prop :=
  StronglySorted (fun a b => EmojiData.emoji_id a ≤ EmojiData.emoji_id b) l.

(** ** Notions about the remapped code points *)



(** Every entry of the registry is without an id. *)
Definition unassigned (m : emoji_map) : Prop :=
  map_Forall (fun _ e => EmojiData.emoji_id e = 0) m.

(** The header row of the metadata file. *)
Definition csv_header : list string :=
  ["#id"; "sdkAdded"; "compatAdded"; "codepoints"].

(** ** Notions used in the further properties *)

(** An entry as [_EmojiData.__init__] leaves it. *)
Definition untouched (e : EmojiData.t) : Prop :=
  e = EmojiData.init (EmojiData.codepoints e) (EmojiData.emoji_style e).

(** Two entries that differ at most in the id and the two versions. *)
Definition same_emoji (e e' : EmojiData.t) : Prop :=
  EmojiData.codepoints e' = EmojiData.codepoints e
  ∧ EmojiData.emoji_style e' = EmojiData.emoji_style e
  ∧ EmojiData.width e' = EmojiData.width e
  ∧ EmojiData.height e' = EmojiData.height e.

(** A line of the interval file names the code point; a line that carries
    the presentation property names it. *)
Definition interval_names (file : list string) (codepoint : Z) : Prop :=
  ∃ line codepoints style,
    line ∈ read_emoji_lines file
    ∧ interval_line line = Ok (codepoints, style) ∧ codepoint ∈ codepoints.

Definition interval_presents (file : list string) (codepoint : Z) : Prop :=
  ∃ line codepoints,
    line ∈ read_emoji_lines file
    ∧ interval_line line = Ok (codepoints, true) ∧ codepoint ∈ codepoints.

(** Two registries with the same keys whose entries differ at most in the
    id and the two versions. *)
Definition same_emojis (a b : emoji_map) : Prop :=
  ∀ key, match a !! key, b !! key with
         | Some x, Some y => same_emoji x y
         | None, None => True
         | _, _ => False
         end.

(** No record among the rows has the key. *)
Definition unnamed_by (rows : csv_file) (key : string) : Prop :=
  ∀ row id sdk_added compat_added codepoints,
    row ∈ rows →
    snapshot_row row = Ok (Some (id, sdk_added, compat_added, codepoints)) →
    codepoint_to_string codepoints ≠ key.

(** Every id of the registry is below the next id of the creator. *)
Definition ids_below (self : EmojiFontCreator.t) : Prop :=
  ∀ key e, EmojiFontCreator.emoji_data_map self !! key = Some e →
           EmojiData.emoji_id e < EmojiFontCreator.emoji_id self.

(** No two entries of the registry have the same id, the id 0 apart. *)
Definition ids_unique (m : emoji_map) : Prop :=
  ∀ key1 key2 e1 e2,
    m !! key1 = Some e1 → m !! key2 = Some e2 →
    EmojiData.emoji_id e1 = EmojiData.emoji_id e2 →
    EmojiData.emoji_id e1 ≠ 0 → key1 = key2.

(** The id of an entry after the walk: the id it had, or for an entry
    without an id one of the ids from [first] up to [next]. *)
Definition id_kept_or_new (first next : Z) (e e' : EmojiData.t) : Prop :=
  EmojiData.emoji_id e' = EmojiData.emoji_id e
  ∨ (EmojiData.emoji_id e = 0
     ∧ first ≤ EmojiData.emoji_id e' < next).

(** The items of the strikes of the font, in the order in which [read_cbdt]
    comes to them. *)
Definition strike_items (ttf : TTFont) : list (string * metrics) :=
  concat (CBDT_strikeData ttf).

(** A strike of the font has image metrics for the glyph. *)
Definition has_metrics (ttf : TTFont) (glyph_name : string) : Prop :=
  ∃ strike_data m,
    strike_data ∈ CBDT_strikeData ttf ∧ (glyph_name, m) ∈ strike_data.

(** Two entries that differ at most in the id, the width and the height. *)
Definition same_record (e e' : EmojiData.t) : Prop :=
  EmojiData.codepoints e' = EmojiData.codepoints e
  ∧ EmojiData.emoji_style e' = EmojiData.emoji_style e
  ∧ EmojiData.sdk_added e' = EmojiData.sdk_added e
  ∧ EmojiData.compat_added e' = EmojiData.compat_added e.

(** The lookups of the font with the same number of subtables each, and no
    ligature in any of them. *)
Definition cleared (lookups lookups' : list lookup_table) : Prop :=
  Forall2 (fun lookup lookup' : lookup_table =>
             length lookup' = length lookup
             ∧ Forall (fun ligatures : subtable => ligatures = []) lookup')
          lookups lookups'.

(** A line as [read_emoji_lines] returns it: without white space around
    it, not empty, not a comment and in upper case. *)
Definition clean_line (line : string) : Prop :=
  Py.strip line = line ∧ line ≠ "" ∧ Py.startswith line "#" = false
  ∧ Py.upper line = line.

(** The character does not occur in the string. *)
Definition lacks (d : ascii) (s : string) : Prop :=
  all_chars (fun c => c ≠ d) s.

(** The name of a property of an interval line: no white space, no field
    separator and no comment sign in it. *)
Definition property_name (s : string) : Prop :=
  all_chars (fun c => Py.isspace c = false ∧ c ≠ ";"%char ∧ c ≠ "#"%char) s.

(** A number as [to_hex] writes it when it is not negative: digits, and at
    least one. *)
Definition is_digit_string (w : string) : Prop :=
  all_chars is_digit w ∧ w ≠ "".
(** * Properties *)

(** ** Exceptions and loops *)

Lemma bind_Ok {A B} (r : result A) (k : A → result B) (b : B) :
  r ≫= k = Ok b ↔ ∃ a, r = Ok a ∧ k a = Ok b.
Proof.
  destruct r as [a|e]; simpl.
  - split; [eauto | intros (a' & [= <-] & H); done].
  - split; [done | intros (a' & [=] & _)].
Qed.

Lemma bind_Raise {A B} (r : result A) (k : A → result B) (e : exception) :
  r = Raise e → r ≫= k = Raise e.
Proof. by intros ->. Qed.

(** Closes an equation between closed terms by evaluating its two sides. *)
Ltac computed :=
  lazymatch goal with
  | |- ?x = ?y => vm_cast_no_check (eq_refl y)
  end.

(** Inverts the successful run of a sequence of binds in a hypothesis. *)
Ltac inv_bind H :=
  cbv beta in H;
  repeat match type of H with
  | _ ≫= _ = Ok _ =>
      let a := fresh "a" in
      let Ha := fresh "Hstep" in
      apply bind_Ok in H as (a & Ha & H)
  | Ok _ = Ok _ => injection H as H
  | Raise _ = Ok _ => discriminate H
  end.

Section for_each.
Context {A S : Type} (body : S → A → result S).

Lemma for_each_app xs ys s :
  for_each body (xs ++ ys) s = s' ← for_each body xs s; for_each body ys s'.
Proof.
  revert s; induction xs as [|x xs IH]; intros s; simpl; [done|].
  destruct (body s x); simpl; [apply IH | done].
Qed.

(** A property of the state that every successful pass through the body
    keeps is kept by the loop. *)
Lemma for_each_invariant (P : S → Prop) xs s s' :
  (∀ x s1 s2, x ∈ xs → P s1 → body s1 x = Ok s2 → P s2) →
  P s → for_each body xs s = Ok s' → P s'.
Proof.
  revert s; induction xs as [|x xs IH]; simpl; intros s Hbody HP H.
  - by injection H as <-.
  - apply bind_Ok in H as (s1 & Hx & H).
    eapply IH; [| |exact H].
    + intros y t1 t2 Hy. apply Hbody. by right.
    + eapply Hbody; [by left | exact HP | exact Hx].
Qed.

(** A property of an item that holds once the body has passed the item
    and that later passes keep holds of every item at the end. *)
Lemma for_each_post (Q : A → S → Prop) xs s s' :
  (∀ x s1 s2, x ∈ xs → body s1 x = Ok s2 → Q x s2) →
  (∀ x y s1 s2, x ∈ xs → y ∈ xs → Q x s1 → body s1 y = Ok s2 → Q x s2) →
  for_each body xs s = Ok s' → ∀ x, x ∈ xs → Q x s'.
Proof.
  revert s; induction xs as [|y xs IH]; simpl; intros s Hpost Hkeep H x Hx.
  - by apply elem_of_nil in Hx.
  - apply bind_Ok in H as (s1 & Hy & H).
    apply elem_of_cons in Hx as [->|Hx].
    + assert (Q y s1) as HQ by (eapply Hpost; [by left | exact Hy]).
      apply (for_each_invariant (fun t => Q y t) xs s1 s'); [|exact HQ|exact H].
      intros z t1 t2 Hz HQ' Hbody.
      eapply Hkeep; [by left | by right | exact HQ' | exact Hbody].
    + eapply IH; [| |exact H|exact Hx].
      * intros z t1 t2 Hz. apply Hpost. by right.
      * intros z1 z2 t1 t2 Hz1 Hz2. apply Hkeep; by right.
Qed.

(** When the loop comes to its end, the body has passed every item. *)
Lemma for_each_Ok_body xs s s' x :
  for_each body xs s = Ok s' → x ∈ xs → ∃ s1 s2, body s1 x = Ok s2.
Proof.
  revert s; induction xs as [|y xs IH]; simpl; intros s H Hx.
  - by apply elem_of_nil in Hx.
  - apply bind_Ok in H as (s1 & Hy & H).
    apply elem_of_cons in Hx as [->|Hx]; [eauto | by eapply IH].
Qed.

(** A body that never raises makes a loop that never raises. *)
Lemma for_each_total xs s :
  (∀ x s1, x ∈ xs → ∃ s2, body s1 x = Ok s2) → ∃ s', for_each body xs s = Ok s'.
Proof.
  revert s; induction xs as [|y xs IH]; simpl; intros s Hbody; [eauto|].
  destruct (Hbody y s) as [s1 ->]; [by left|]. simpl.
  apply IH. intros x t Hx. apply Hbody. by right.
Qed.
End for_each.

Lemma comprehension_Ok {A B} (f : A → result B) xs ys :
  comprehension f xs = Ok ys ↔ Forall2 (fun x y => f x = Ok y) xs ys.
Proof.
  revert ys; induction xs as [|x xs IH]; intros ys; simpl.
  - split; [intros [= <-]; constructor | by inversion 1].
  - split.
    + intros H. inv_bind H. subst ys. constructor; [done | by apply IH].
    + inversion 1 as [|? y ? ys' Hx Hxs]; subst.
      rewrite Hx. simpl. apply IH in Hxs. by rewrite Hxs.
Qed.

Lemma comprehension_fmap {A B C} (f : B → result C) (g : A → B) (h : A → C) xs :
  (∀ x, x ∈ xs → f (g x) = Ok (h x)) →
  comprehension f (g <$> xs) = Ok (h <$> xs).
Proof.
  induction xs as [|x xs IH]; intros Hf; [done|].
  rewrite !fmap_cons. cbn [comprehension].
  rewrite Hf by (by left).
  rewrite IH by (intros y Hy; apply Hf; by right). done.
Qed.

Lemma comprehension_Raise {A B} (f : A → result B) xs x e :
  x ∈ xs → f x = Raise e → ∃ e', comprehension f xs = Raise e'.
Proof.
  induction xs as [|y xs IH]; intros Hx Hf.
  - by apply elem_of_nil in Hx.
  - simpl. apply elem_of_cons in Hx as [->|Hx].
    + rewrite Hf. simpl. eauto.
    + destruct (f y); simpl; [|eauto].
      destruct (IH Hx Hf) as [e' ->]. simpl. eauto.
Qed.

(** ** Numbers and their strings *)

Lemma all_chars_app P s1 s2 :
  all_chars P (s1 ++ s2) ↔ all_chars P s1 ∧ all_chars P s2.
Proof. induction s1 as [|c s1 IH]; simpl; [tauto | rewrite IH; tauto]. Qed.

Lemma all_chars_impl (P Q : ascii → Prop) s :
  (∀ c, P c → Q c) → all_chars P s → all_chars Q s.
Proof. intros HPQ. induction s; simpl; [done | intros []; auto]. Qed.

Lemma digit_value_char up d :
  (d < 16)%N → Py.digit_value (Py.digit_char up d) = Some d.
Proof.
  intros Hd. rewrite <- (N2Nat.id d).
  assert (N.to_nat d < 16)%nat as Hn by lia. revert Hn.
  generalize (N.to_nat d). intros n Hn.
  do 16 (destruct n as [|n]; [by destruct up|]). lia.
Qed.

Lemma is_digit_char up d : (d < 16)%N → is_digit (Py.digit_char up d).
Proof. intros Hd. red. rewrite digit_value_char by done. eauto. Qed.

(** A digit is no white space, no sign and not the [x] of a prefix. *)
Lemma is_digit_plain c :
  is_digit c →
  Py.isspace c = false ∧ c ≠ "-"%char ∧ c ≠ "+"%char
  ∧ c ≠ "x"%char ∧ c ≠ "X"%char ∧ c ≠ "#"%char.
Proof.
  intros [d Hd]. revert Hd.
  destruct c as [[] [] [] [] [] [] [] []]; vm_compute; intros Hd;
    first [discriminate Hd | repeat split; discriminate].
Qed.

Section digits.
Variables (base : N) (up : bool).
Hypothesis base_ge : (2 ≤ base)%N.
Hypothesis base_le : (base ≤ 16)%N.

Lemma digits_go_digits fuel n acc :
  all_chars is_digit acc → all_chars is_digit (Py.digits_go base up fuel n acc).
Proof.
  revert n acc; induction fuel as [|fuel IH]; intros n acc Hacc; simpl; [done|].
  assert (is_digit (Py.digit_char up (n mod base))) as Hd.
  { apply is_digit_char. pose proof (N.mod_lt n base). lia. }
  destruct (n / base =? 0)%N; [by split | apply IH; by split].
Qed.

Lemma digits_go_nonempty fuel n acc :
  Py.digits_go base up (S fuel) n acc ≠ EmptyString.
Proof.
  assert (∀ fuel m s, s ≠ EmptyString →
            Py.digits_go base up fuel m s ≠ EmptyString) as Hgo.
  { clear. induction fuel as [|fuel IH]; intros m s Hs; simpl; [done|].
    destruct (m / base =? 0)%N; [done | by apply IH]. }
  simpl. destruct (n / base =? 0)%N; [done | by apply Hgo].
Qed.

(** Reading the digits written in front of [acc] continues from the
    number they stand for. *)
Lemma parse_digits_go fuel n acc a :
  (n < 2 ^ N.of_nat fuel)%N →
  ∃ k, Py.parse_digits base a (Py.digits_go base up fuel n acc)
       = Py.parse_digits base (a * base ^ k + n)%N acc.
Proof.
  revert n acc a; induction fuel as [|fuel IH]; intros n acc a Hn.
  - exists 0%N. simpl in *. f_equal. lia.
  - cbn [Py.digits_go].
    assert (n mod base < base)%N as Hmod by (apply N.mod_lt; lia).
    assert (n = base * (n / base) + n mod base)%N as Hdiv
      by (apply N.div_mod; lia).
    assert (∀ b, Py.parse_digits base b
                   (String (Py.digit_char up (n mod base)) acc)
                 = Py.parse_digits base (b * base + n mod base)%N acc) as Hone.
    { intros b. cbn [Py.parse_digits].
      rewrite digit_value_char by lia.
      by apply N.ltb_lt in Hmod as ->. }
    destruct (n / base =? 0)%N eqn:Hq.
    + apply N.eqb_eq in Hq. exists 1%N. rewrite Hone. f_equal.
      rewrite N.pow_1_r. lia.
    + apply N.eqb_neq in Hq.
      destruct (IH (n / base)%N (String (Py.digit_char up (n mod base)) acc) a)
        as [k Hk].
      { rewrite Nat2N.inj_succ, N.pow_succ_r' in Hn.
        apply N.Div0.div_lt_upper_bound. nia. }
      exists (N.succ k). rewrite Hk, Hone. f_equal.
      rewrite N.pow_succ_r'. lia.
Qed.

Lemma parse_digits_digits n :
  Py.parse_digits base 0 (Py.digits base up n) = Some n.
Proof.
  unfold Py.digits.
  destruct (parse_digits_go (S (N.to_nat (N.log2 n))) n EmptyString 0) as [k ->].
  - destruct (decide (n = 0%N)) as [->|Hn]; [done|].
    rewrite Nat2N.inj_succ, N2Nat.id. apply N.log2_spec. lia.
  - simpl. f_equal; lia.
Qed.

Lemma digits_digits n : all_chars is_digit (Py.digits base up n).
Proof. by apply digits_go_digits. Qed.

Lemma digits_nonempty n : Py.digits base up n ≠ EmptyString.
Proof. apply digits_go_nonempty. Qed.
End digits.

Lemma append_nil s : "" +:+ s = s.
Proof. done. Qed.

Lemma append_cons c s1 s2 : String c s1 +:+ s2 = String c (s1 +:+ s2).
Proof. done. Qed.

Lemma lstrip_id c s : not_space c → Py.lstrip (String c s) = String c s.
Proof. intros Hc. simpl. by rewrite Hc. Qed.

Lemma rstrip_id s : all_chars not_space s → Py.rstrip s = s.
Proof.
  induction s as [|c s IH]; simpl; [done|]. intros [Hc Hs].
  rewrite IH by done. destruct s; [by rewrite Hc | done].
Qed.

Lemma strip_id c s :
  all_chars not_space (String c s) → Py.strip (String c s) = String c s.
Proof.
  intros Hs. unfold Py.strip. rewrite lstrip_id by apply Hs. by apply rstrip_id.
Qed.

Lemma strip_all s : all_chars not_space s → Py.strip s = s.
Proof. destruct s; [done | apply strip_id]. Qed.

Lemma digits_not_space s : all_chars is_digit s → all_chars not_space s.
Proof. apply all_chars_impl. intros c Hc. by apply is_digit_plain in Hc as [? _]. Qed.

Lemma drop_sign_digits s : all_chars is_digit s → Py.drop_sign s = (false, s).
Proof.
  destruct s as [|c s]; simpl; [done|]. intros [Hc _].
  apply is_digit_plain in Hc as (_ & Hm & Hp & _).
  apply Ascii.eqb_neq in Hm as ->. by apply Ascii.eqb_neq in Hp as ->.
Qed.

Lemma drop_0x_digits s : all_chars is_digit s → Py.drop_0x s = s.
Proof.
  destruct s as [|c1 [|c2 s]]; simpl; [done..|]. intros (_ & Hc & _).
  apply is_digit_plain in Hc as (_ & _ & _ & Hx & HX & _).
  apply Ascii.eqb_neq in Hx as ->. apply Ascii.eqb_neq in HX as ->.
  by rewrite andb_false_r.
Qed.

(** Reading back what [format], [hex] and [str] write. *)
Ltac read_digits :=
  rewrite parse_digits_digits by lia;
  match goal with
  | H : Py.digits ?b ?u ?n ≠ EmptyString |- _ =>
      destruct (Py.digits b u n); [done | f_equal; lia]
  end.

Lemma int_render base up z :
  (2 ≤ base ≤ 16)%N → Py.int (Py.render base up "" z) base = Ok z.
Proof.
  intros Hbase. unfold Py.int, Py.render.
  assert (all_chars is_digit (Py.digits base up (Z.abs_N z))) as Hd
    by (apply digits_digits; lia).
  pose proof (digits_nonempty base up (Z.abs_N z)) as Hne.
  destruct (Z.ltb_spec z 0) as [Hz|Hz]; rewrite ?append_cons, ?append_nil.
  - rewrite strip_id by (split; [done | by apply digits_not_space]).
    simpl Py.drop_sign. cbv iota beta.
    rewrite drop_0x_digits, Tauto.if_same by done. read_digits.
  - rewrite strip_all by (by apply digits_not_space).
    rewrite drop_sign_digits by done.
    rewrite drop_0x_digits, Tauto.if_same by done. read_digits.
Qed.

Lemma int_hex_int z : Py.int (Py.render 16 false "0x" z) 16 = Ok z.
Proof.
  unfold Py.int, Py.render.
  assert (all_chars is_digit (Py.digits 16 false (Z.abs_N z))) as Hd
    by (apply digits_digits; lia).
  pose proof (digits_nonempty 16 false (Z.abs_N z)) as Hne.
  assert (all_chars not_space ("0x" +:+ Py.digits 16 false (Z.abs_N z))) as Hs.
  { rewrite !append_cons, append_nil. repeat split; try done.
    by apply digits_not_space. }
  rewrite !append_cons, append_nil in Hs.
  destruct (Z.ltb_spec z 0) as [Hz|Hz]; rewrite ?append_cons, ?append_nil.
  - rewrite strip_id by (by split). simpl. read_digits.
  - rewrite strip_id by done. simpl. read_digits.
Qed.

Lemma hex_str_to_int_to_hex z : hex_str_to_int (to_hex z) = Ok z.
Proof. apply int_render. lia. Qed.

Lemma int_str z : Py.int (Py.str z) 10 = Ok z.
Proof. apply int_render. lia. Qed.

Lemma append_nil_r s : s +:+ "" = s.
Proof. induction s as [|c s IH]; [done|]. by rewrite append_cons, IH. Qed.

Lemma hex_int z : Py.is_long z = false → Py.hex z = Py.render 16 false "0x" z.
Proof. intros Hz. unfold Py.hex. rewrite Hz. apply append_nil_r. Qed.

Lemma hex_long z :
  Py.is_long z = true → Py.hex z = Py.render 16 false "0x" z +:+ "L".
Proof. intros Hz. unfold Py.hex. by rewrite Hz. Qed.

(** Within the machine range the key of a code point reads back. *)
Lemma int_hex z : Py.is_long z = false → Py.int (Py.hex z) 16 = Ok z.
Proof. intros Hz. rewrite hex_int by done. apply int_hex_int. Qed.

Lemma is_digit_not_L c : is_digit c → c ≠ "L"%char.
Proof. intros [d Hd] ->. discriminate Hd. Qed.

Lemma render_hex_lacks_L z : lacks "L" (Py.render 16 false "0x" z).
Proof.
  unfold Py.render.
  assert (lacks "L" (Py.digits 16 false (Z.abs_N z))) as Hd.
  { apply (all_chars_impl is_digit); [apply is_digit_not_L|].
    apply digits_digits; lia. }
  destruct (z <? 0); rewrite !append_cons, !append_nil; by repeat split.
Qed.

Lemma append_L_inj s1 s2 : s1 +:+ "L" = s2 +:+ "L" → s1 = s2.
Proof.
  revert s2; induction s1 as [|c s1 IH]; intros [|d s2];
    rewrite ?append_cons, ?append_nil; try done.
  - intros [= <- H]. by destruct s2.
  - intros [= -> H]. by destruct s1.
  - intros [= -> H]. f_equal. by apply IH.
Qed.

Lemma append_L_ne s1 s2 : lacks "L" s2 → s1 +:+ "L" ≠ s2.
Proof.
  revert s2; induction s1 as [|c s1 IH]; intros [|d s2];
    rewrite ?append_cons, ?append_nil; try done.
  - intros [Hd _] [= <- _]. done.
  - intros [_ Hs] [= _ H]. by apply (IH s2).
Qed.

Lemma hex_inj : Inj (=) (=) Py.hex.
Proof.
  assert (Inj (=) (=) (Py.render 16 false "0x")) as Hinj.
  { intros a b Hab. pose proof (int_hex_int a) as Ha.
    rewrite Hab, int_hex_int in Ha. by injection Ha. }
  intros a b. unfold Py.hex.
  destruct (Py.is_long a), (Py.is_long b); rewrite ?append_nil_r; intros Hab.
  - by apply Hinj, append_L_inj.
  - by apply append_L_ne in Hab; [|apply render_hex_lacks_L].
  - symmetry in Hab. by apply append_L_ne in Hab; [|apply render_hex_lacks_L].
  - by apply Hinj.
Qed.

(** ** The identity key *)

Lemma hex_not_space z : all_chars not_space (Py.hex z).
Proof.
  unfold Py.hex. apply all_chars_app. split.
  - unfold Py.render.
    assert (all_chars not_space (Py.digits 16 false (Z.abs_N z))) as Hd
      by (apply digits_not_space, digits_digits; lia).
    destruct (z <? 0); rewrite !append_cons, !append_nil; by repeat split.
  - by destruct (Py.is_long z).
Qed.

Lemma hex_nonempty z : Py.hex z ≠ EmptyString.
Proof.
  unfold Py.hex, Py.render.
  by destruct (z <? 0); rewrite !append_cons, !append_nil.
Qed.

Lemma blank_split s1 s2 r1 r2 :
  all_chars not_space s1 → all_chars not_space s2 →
  s1 +:+ String " " r1 = s2 +:+ String " " r2 → s1 = s2 ∧ r1 = r2.
Proof.
  revert s2; induction s1 as [|c1 s1 IH]; intros [|c2 s2];
    rewrite ?append_cons, ?append_nil; simpl.
  - by intros _ _ [= ->].
  - by intros _ [Hc _] [= <-].
  - by intros [Hc _] _ [= ->].
  - intros [_ H1] [_ H2] [= -> H]. by destruct (IH s2 H1 H2 H) as [-> ->].
Qed.

Lemma blank_absent s s' r :
  all_chars not_space s → all_chars not_space s' → s ≠ s' +:+ String " " r.
Proof.
  revert s'; induction s as [|c s IH]; intros [|c' s'];
    rewrite ?append_cons, ?append_nil; simpl; try done.
  - by intros [Hc _] _ [= ->].
  - intros [_ H1] [_ H2] [= -> H]. by eapply IH.
Qed.

Lemma codepoint_to_string_cons x y l :
  codepoint_to_string (x :: y :: l)
  = Py.hex x +:+ String " " (codepoint_to_string (y :: l)).
Proof. done. Qed.

Lemma codepoint_to_string_one x : codepoint_to_string [x] = Py.hex x.
Proof. done. Qed.

Lemma codepoint_to_string_empty l : codepoint_to_string l = "" → l = [].
Proof.
  destruct l as [|x [|y l]]; [done|..].
  - rewrite codepoint_to_string_one. intros H. by apply hex_nonempty in H.
  - rewrite codepoint_to_string_cons. intros H.
    destruct (Py.hex x) eqn:Hx; [by apply hex_nonempty in Hx | done].
Qed.

(** Two sequences of code points with the same key are the same. *)
Lemma codepoint_to_string_inj : Inj (=) (=) codepoint_to_string.
Proof.
  assert (∀ x y l, Py.hex x ≠ Py.hex y +:+ String " " l) as Hne
    by (intros; apply blank_absent; apply hex_not_space).
  intros l1. induction l1 as [|x l1 IH]; intros [|y l2] H; [done|..].
  - symmetry in H. by apply codepoint_to_string_empty in H.
  - by apply codepoint_to_string_empty in H.
  - destruct l1 as [|x' l1], l2 as [|y' l2];
      rewrite ?codepoint_to_string_cons, ?codepoint_to_string_one in H.
    + f_equal. by apply hex_inj.
    + by apply Hne in H.
    + symmetry in H. by apply Hne in H.
    + apply blank_split in H as [Hx Hl]; auto using hex_not_space.
      apply hex_inj in Hx as ->. f_equal. by apply IH.
Qed.

(** ** The registry built from the Unicode files *)

Lemma keyed_insert m key e :
  keyed m → codepoint_to_string (EmojiData.codepoints e) = key →
  keyed (<[key := e]> m).
Proof. intros Hm He. by apply map_Forall_insert_2. Qed.

Section intervals.
Implicit Types (m : emoji_map) (cp : Z) (style : bool).

Lemma add_interval_codepoint_keyed style m cp :
  keyed m → keyed (add_interval_codepoint style m cp).
Proof.
  intros Hm. unfold add_interval_codepoint.
  destruct (m !! codepoint_to_string [cp]) as [e|] eqn:He.
  - destruct (style || _); [|done].
    apply keyed_insert; [done|]. simpl. by apply Hm in He.
  - by apply keyed_insert.
Qed.

Lemma add_interval_codepoint_styled_keep style m cp key :
  styled key m → styled key (add_interval_codepoint style m cp).
Proof.
  intros (e & He & Hs). unfold add_interval_codepoint, styled.
  destruct (decide (codepoint_to_string [cp] = key)) as [->|Hne].
  - rewrite He. destruct (style || _); [|eauto].
    rewrite lookup_insert_eq. eauto.
  - destruct (m !! codepoint_to_string [cp]); [destruct (style || _)|];
      rewrite ?lookup_insert_ne by done; eauto.
Qed.

Lemma add_interval_codepoint_styled style m cp :
  style = true ∨ cp ∈ EMOJI_STYLE_EXCEPTIONS →
  styled (codepoint_to_string [cp]) (add_interval_codepoint style m cp).
Proof.
  intros Hs. unfold add_interval_codepoint, styled.
  assert (style || bool_decide (cp ∈ EMOJI_STYLE_EXCEPTIONS) = true) as ->.
  { destruct Hs as [->|Hs]; [done|]. rewrite (bool_decide_eq_true_2 _ Hs).
    apply orb_true_r. }
  destruct (m !! codepoint_to_string [cp]); rewrite lookup_insert_eq; eauto.
Qed.

Lemma add_interval_codepoints_keyed style cps m :
  keyed m → keyed (foldl (add_interval_codepoint style) m cps).
Proof.
  revert m; induction cps as [|cp cps IH]; intros m Hm; simpl; [done|].
  by apply IH, add_interval_codepoint_keyed.
Qed.

Lemma add_interval_codepoints_styled_keep style cps m key :
  styled key m → styled key (foldl (add_interval_codepoint style) m cps).
Proof.
  revert m; induction cps as [|cp cps IH]; intros m Hm; simpl; [done|].
  by apply IH, add_interval_codepoint_styled_keep.
Qed.

Lemma add_interval_codepoints_styled style cps m cp :
  cp ∈ cps → style = true ∨ cp ∈ EMOJI_STYLE_EXCEPTIONS →
  styled (codepoint_to_string [cp]) (foldl (add_interval_codepoint style) m cps).
Proof.
  revert m; induction cps as [|cp' cps IH]; intros m Hcp Hs; simpl.
  - by apply elem_of_nil in Hcp.
  - apply elem_of_cons in Hcp as [<-|Hcp]; [|by apply IH].
    by apply add_interval_codepoints_styled_keep, add_interval_codepoint_styled.
Qed.

Lemma read_emoji_intervals_keyed m file m' :
  keyed m → read_emoji_intervals m file = Ok m' → keyed m'.
Proof.
  intros Hm. apply (for_each_invariant _ keyed); [|done].
  intros line m1 m2 _ Hm1 H. inv_bind H. destruct a as [cps style].
  injection H as <-. by apply add_interval_codepoints_keyed.
Qed.

Lemma read_emoji_intervals_styled_keep m file m' key :
  styled key m → read_emoji_intervals m file = Ok m' → styled key m'.
Proof.
  intros Hm. apply (for_each_invariant _ (styled key)); [|done].
  intros line m1 m2 _ Hm1 H. inv_bind H. destruct a as [cps style].
  injection H as <-. by apply add_interval_codepoints_styled_keep.
Qed.

(** After the file is read, every code point of every line that is an
    exception or stands on a presentation line is an emoji style entry. *)
Lemma read_emoji_intervals_styled m file m' line cps style cp :
  read_emoji_intervals m file = Ok m' →
  line ∈ read_emoji_lines file → interval_line line = Ok (cps, style) →
  cp ∈ cps → style = true ∨ cp ∈ EMOJI_STYLE_EXCEPTIONS →
  styled (codepoint_to_string [cp]) m'.
Proof.
  intros H Hline Hparse Hcp Hs. unfold read_emoji_intervals in H.
  revert line Hline Hparse.
  eapply (for_each_post _
            (fun line m => interval_line line = Ok (cps, style) →
                           styled (codepoint_to_string [cp]) m));
    [| |exact H].
  - intros l m1 m2 _ Hbody Hl. cbv beta in Hbody. rewrite Hl in Hbody.
    injection Hbody as <-.
    by apply add_interval_codepoints_styled.
  - intros l1 l2 m1 m2 _ _ HQ Hbody Hl. inv_bind Hbody.
    destruct a as [cps' style']. injection Hbody as <-.
    by apply add_interval_codepoints_styled_keep, HQ.
Qed.
End intervals.

Section sequences.
Implicit Types (m : emoji_map) (line : string).

Lemma add_sequence_inv m line m' :
  add_sequence m line = Ok m' →
  ∃ codepoints,
    sequence_line line = Ok codepoints ∧
    let key := codepoint_to_string (sequence_codepoints codepoints) in
    (m !! key = None ∧
     m' = <[key := EmojiData.init (sequence_codepoints codepoints) false]> m)
    ∨ (is_Some (m !! key) ∧ m' = m).
Proof.
  intros H. unfold add_sequence in H. inv_bind H.
  exists a. split; [done|]. fold (sequence_codepoints a) in H.
  destruct (m !! _) eqn:Hm; injection H as <-; eauto.
Qed.

Lemma add_sequence_subseteq m line m' : add_sequence m line = Ok m' → m ⊆ m'.
Proof.
  intros (cps & _ & [[Hm ->]|[_ ->]])%add_sequence_inv; [|done].
  by apply insert_subseteq.
Qed.

Lemma add_sequence_keyed m line m' :
  keyed m → add_sequence m line = Ok m' → keyed m'.
Proof.
  intros Hm (cps & _ & [[_ ->]|[_ ->]])%add_sequence_inv; [|done].
  by apply keyed_insert.
Qed.

Lemma read_emoji_sequences_subseteq m file m' :
  read_emoji_sequences m file = Ok m' → m ⊆ m'.
Proof.
  apply (for_each_invariant _ (fun m1 => m ⊆ m1)); [|done].
  intros line m1 m2 _ Hm1 H%add_sequence_subseteq. by etrans.
Qed.

Lemma read_emoji_sequences_keyed m file m' :
  keyed m → read_emoji_sequences m file = Ok m' → keyed m'.
Proof.
  intros Hm. apply (for_each_invariant _ keyed); [|done].
  intros line m1 m2 _. apply add_sequence_keyed.
Qed.

(** What is found under the key of each line after the lines are read:
    the entry that was there before, or else a fresh entry holding the
    code points of the line. *)
Lemma add_sequences_lookup lines m m' line codepoints :
  for_each add_sequence lines m = Ok m' →
  line ∈ lines → sequence_line line = Ok codepoints →
  let key := codepoint_to_string (sequence_codepoints codepoints) in
  m' !! key
  = Some (default (EmojiData.init (sequence_codepoints codepoints) false)
                  (m !! key)).
Proof.
  intros H Hline Hparse key. revert m H.
  induction lines as [|line0 lines IH]; intros m H.
  - by apply elem_of_nil in Hline.
  - simpl in H. apply bind_Ok in H as (m1 & Hline0 & H).
    assert (m1 ⊆ m') as Hsub.
    { revert H. apply (for_each_invariant _ (fun m2 => m1 ⊆ m2)); [|done].
      intros l m2 m3 _ Hm2 Hl%add_sequence_subseteq. by etrans. }
    apply add_sequence_inv in Hline0 as (cps0 & Hparse0 & Hcase).
    apply elem_of_cons in Hline as [->|Hline].
    + rewrite Hparse in Hparse0. injection Hparse0 as <-.
      eapply lookup_weaken; [|exact Hsub]. fold key in Hcase.
      destruct Hcase as [[Hm ->]|[[e He] ->]].
      * by rewrite Hm, lookup_insert_eq.
      * by rewrite He.
    + rewrite (IH Hline m1 H). f_equal.
      destruct Hcase as [[Hm ->]|[_ ->]]; [|done].
      destruct (decide (codepoint_to_string (sequence_codepoints cps0) = key))
        as [Heq|Hne].
      * rewrite Heq, lookup_insert_eq. rewrite Heq in Hm. rewrite Hm. simpl.
        by apply codepoint_to_string_inj in Heq as ->.
      * by rewrite lookup_insert_ne.
Qed.
End sequences.

Lemma load_emoji_data_map_inv unicode_path android m :
  load_emoji_data_map unicode_path android = Ok m →
  ∃ m1 m2 m3,
    read_emoji_intervals ∅ (EMOJI_DATA_FILE unicode_path) = Ok m1 ∧
    read_emoji_sequences m1 (EMOJI_ZWJ_FILE unicode_path) = Ok m2 ∧
    read_emoji_sequences m2 (EMOJI_SEQ_FILE unicode_path) = Ok m3 ∧
    match android with
    | Some file => read_emoji_sequences m3 file = Ok m
    | None => m = m3
    end.
Proof.
  intros H. unfold load_emoji_data_map in H. inv_bind H.
  exists a, a0, a1. repeat split; try done.
  destruct android; [done | by injection H].
Qed.

Lemma load_emoji_data_map_keyed unicode_path android m :
  load_emoji_data_map unicode_path android = Ok m → keyed m.
Proof.
  intros (m1 & m2 & m3 & H1 & H2 & H3 & H4)%load_emoji_data_map_inv.
  apply read_emoji_intervals_keyed in H1; [|apply map_Forall_empty].
  apply read_emoji_sequences_keyed in H2; [|done].
  apply read_emoji_sequences_keyed in H3; [|done].
  destruct android; [by eapply read_emoji_sequences_keyed | by subst].
Qed.

(** ** The walk over the tables of the font *)

Import EmojiFontCreator.

Lemma for_each_Raise_inv {A S} (body : S → A → result S) xs s e :
  for_each body xs s = Raise e → ∃ x s1, x ∈ xs ∧ body s1 x = Raise e.
Proof.
  revert s; induction xs as [|x xs IH]; simpl; intros s H; [done|].
  destruct (body s x) as [s1|e1] eqn:Hx; simpl in H.
  - destruct (IH _ H) as (y & s2 & Hy & Hbody).
    exists y, s2. split; [by right | done].
  - injection H as ->. exists x, s. split; [by left | done].
Qed.

Lemma for_each_must_raise {A S} (body : S → A → result S) xs s x :
  x ∈ xs → (∀ s1, ∃ e, body s1 x = Raise e) → ∃ e, for_each body xs s = Raise e.
Proof.
  intros Hx Hbody. destruct (for_each body xs s) as [s'|e] eqn:H; [|eauto].
  destruct (for_each_Ok_body _ _ _ _ _ H Hx) as (s1 & s2 & Hs).
  destruct (Hbody s1) as [e He]. by rewrite He in Hs.
Qed.

Lemma is_cmap12_true table :
  is_cmap12 table = true
  ↔ format table = 12 ∧ platformID table = 3 ∧ platEncID table = 10.
Proof. unfold is_cmap12. rewrite !andb_true_iff, !Z.eqb_eq. tauto. Qed.

Lemma update_emoji_data_metrics self codepoints glyph_name self' :
  update_emoji_data self codepoints glyph_name = Ok self' →
  glyph_to_image_metrics_map self' = glyph_to_image_metrics_map self.
Proof.
  unfold update_emoji_data. intros H.
  destruct (emoji_data_map self !! _); [|by injection H as <-].
  inv_bind H. destruct (EmojiData.emoji_id _ =? 0); by injection H as <-.
Qed.

Lemma update_emoji_data_Raise self codepoints glyph_name e :
  update_emoji_data self codepoints glyph_name = Raise e → metrics_missing self e.
Proof.
  unfold update_emoji_data, getitem. intros H.
  destruct (emoji_data_map self !! _); [|done].
  destruct (glyph_to_image_metrics_map self !! glyph_name) eqn:Hm; simpl in H.
  - by destruct (EmojiData.emoji_id _ =? 0).
  - injection H as <-. by exists glyph_name.
Qed.

Lemma read_cmap12_items_Raise items st e :
  for_each read_cmap12_item items st = Raise e → metrics_missing st.1 e.
Proof.
  revert st; induction items as [|[cp g] items IH]; intros [self g2c] H; [done|].
  simpl in H.
  destruct (update_emoji_data self [cp] g) as [self1|e1] eqn:Hup; simpl in H.
  - apply IH in H. simpl in *. destruct H as (glyph & -> & Hg).
    exists glyph. split; [done|].
    by rewrite <- (update_emoji_data_metrics _ _ _ _ Hup).
  - injection H as ->. by eapply update_emoji_data_Raise.
Qed.

Lemma read_and_clear_cmap12_loop_absent self seen tables g2c :
  (∀ table, table ∈ tables → is_cmap12 table = false) →
  read_and_clear_cmap12_loop self seen tables g2c = Raise no_cmap12.
Proof.
  revert seen; induction tables as [|table tables IH]; intros seen Hno; [done|].
  simpl. rewrite Hno by (by left). apply IH. intros t Ht. apply Hno. by right.
Qed.

Lemma read_and_clear_cmap12_loop_present self seen tables g2c :
  (∃ table, table ∈ tables ∧ is_cmap12 table = true) →
  match read_and_clear_cmap12_loop self seen tables g2c with
  | Ok _ => True
  | Raise e => metrics_missing self e
  end.
Proof.
  revert seen; induction tables as [|table tables IH]; intros seen (t & Ht & H12).
  - by apply elem_of_nil in Ht.
  - simpl. destruct (is_cmap12 table) eqn:Htable.
    + destruct (for_each read_cmap12_item (cmap table) (self, g2c))
        as [[self1 g2c1]|e] eqn:Hitems; simpl; [done|].
      by apply read_cmap12_items_Raise in Hitems.
    + apply IH. exists t. split; [|done].
      apply elem_of_cons in Ht as [->|Ht]; [congruence | done].
Qed.

Section for_each_more.
Context {A B S : Type}.

Lemma for_each_ext (body1 body2 : S → A → result S) xs s :
  (∀ s x, x ∈ xs → body1 s x = body2 s x) →
  for_each body1 xs s = for_each body2 xs s.
Proof.
  revert s; induction xs as [|x xs IH]; intros s Hext; simpl; [done|].
  rewrite Hext by (by left). destruct (body2 s x); simpl; [|done].
  apply IH. intros s1 y Hy. apply Hext. by right.
Qed.

Lemma for_each_fmap (body : S → B → result S) (f : A → B) xs s :
  for_each body (f <$> xs) s = for_each (fun s x => body s (f x)) xs s.
Proof.
  revert s; induction xs as [|x xs IH]; intros s; simpl; [done|].
  destruct (body s (f x)); simpl; [apply IH | done].
Qed.

Lemma for_each_bind_list (body : S → B → result S) (f : A → list B) xs s :
  for_each body (xs ≫= f) s = for_each (fun s x => for_each body (f x) s) xs s.
Proof.
  revert s; induction xs as [|x xs IH]; intros s; [done|].
  rewrite bind_cons, for_each_app. simpl.
  destruct (for_each body (f x) s); simpl; [apply IH | done].
Qed.

(** A body that first computes something of the item alone. *)
Lemma for_each_comprehension (f : A → result B) (body : S → B → result S)
    xs s s' :
  for_each (fun s x => y ← f x; body s y) xs s = Ok s' →
  ∃ ys, comprehension f xs = Ok ys ∧ for_each body ys s = Ok s'.
Proof.
  revert s; induction xs as [|x xs IH]; intros s H; simpl in *.
  - exists []. by injection H as <-.
  - apply bind_Ok in H as (s1 & Hx & H).
    apply bind_Ok in Hx as (y & Hfx & Hy).
    destruct (IH _ H) as (ys & Hys & Hbody).
    exists (y :: ys). rewrite Hfx, Hys. simpl. by rewrite Hy.
Qed.
End for_each_more.

Lemma comprehension_Raise_inv {A B} (f : A → result B) xs e :
  comprehension f xs = Raise e → ∃ x, x ∈ xs ∧ f x = Raise e.
Proof.
  induction xs as [|x xs IH]; simpl; [done|].
  destruct (f x) as [y|e1] eqn:Hx; simpl.
  - destruct (comprehension f xs); simpl; [done|]. intros [= ->].
    destruct IH as (z & Hz & Hfz); [done|]. exists z. split; [by right | done].
  - intros [= ->]. exists x. split; [by left | done].
Qed.

(** The walk over the ligatures is a loop over the ligature rules. *)
Lemma read_and_clear_gsub_rules self ttf g2c :
  for_each (fun (self : t) (lookup : lookup_table) =>
              for_each (read_subtable g2c) lookup self)
           (GSUB_Lookup ttf) self
  = for_each (fun self rule =>
                c ← rule_call g2c rule; update_emoji_data self c.1 c.2)
             (ligature_rules ttf) self.
Proof.
  unfold ligature_rules. rewrite for_each_bind_list.
  apply for_each_ext. intros s lookup _. rewrite for_each_bind_list.
  apply for_each_ext. intros s1 ligatures _.
  unfold read_subtable, subtable_rules. rewrite for_each_bind_list.
  apply for_each_ext. intros s2 [name ligs] _. rewrite for_each_fmap.
  apply for_each_ext. intros s3 ligature _.
  unfold read_ligature, rule_call. cbn [fst snd].
  by destruct (comprehension (getitem g2c) (name :: Component ligature)).
Qed.

Lemma elem_of_ligature_rules ttf names glyph_name :
  (names, glyph_name) ∈ ligature_rules ttf ↔
  ∃ lookup ligatures name ligs ligature,
    lookup ∈ GSUB_Lookup ttf ∧ ligatures ∈ lookup ∧ (name, ligs) ∈ ligatures
    ∧ ligature ∈ ligs
    ∧ names = name :: Component ligature ∧ glyph_name = LigGlyph ligature.
Proof.
  unfold ligature_rules, subtable_rules. rewrite list_elem_of_bind. split.
  - intros (lookup & (ligatures & ([name ligs] & Hin & Hs)%list_elem_of_bind
                      & Hl)%list_elem_of_bind & Hg).
    apply list_elem_of_fmap in Hin as (ligature & [= -> ->] & Hlig).
    by exists lookup, ligatures, name, ligs, ligature.
  - intros (lookup & ligatures & name & ligs & ligature
            & Hg & Hl & Hs & Hlig & -> & ->).
    exists lookup. split; [|done]. apply list_elem_of_bind.
    exists ligatures. split; [|done]. apply list_elem_of_bind.
    exists (name, ligs). split; [|done]. apply list_elem_of_fmap. eauto.
Qed.

Lemma getitem_Raise {V} (d : gmap string V) key e :
  getitem d key = Raise e → e = KeyError key ∧ d !! key = None.
Proof. unfold getitem. destruct (d !! key); [done | by intros [= <-]]. Qed.

Lemma rule_call_missing g2c names glyph_name glyph :
  glyph ∈ names → g2c !! glyph = None →
  ∃ e, rule_call g2c (names, glyph_name) = Raise e.
Proof.
  intros Hin Hg. unfold rule_call. simpl.
  destruct (comprehension_Raise (getitem g2c) names glyph (KeyError glyph))
    as [e ->]; [done | by unfold getitem; rewrite Hg | by eexists].
Qed.

Lemma rule_call_Raise g2c rule e :
  rule_call g2c rule = Raise e → ∃ key, e = KeyError key.
Proof.
  unfold rule_call. intros H.
  destruct (comprehension (getitem g2c) rule.1) eqn:Hc; [done|].
  injection H as <-.
  apply comprehension_Raise_inv in Hc as (x & _ & [-> _]%getitem_Raise). eauto.
Qed.

Lemma read_and_clear_gsub_Raise self ttf g2c e :
  read_and_clear_gsub self ttf g2c = Raise e → ∃ key, e = KeyError key.
Proof.
  unfold read_and_clear_gsub. rewrite read_and_clear_gsub_rules. intros H.
  destruct (for_each _ (ligature_rules ttf) self) eqn:Hwalk; [done|].
  injection H as <-.
  apply for_each_Raise_inv in Hwalk as (rule & s & _ & Hbody).
  destruct (rule_call g2c rule) as [c|e1] eqn:Hrule; simpl in Hbody.
  - apply update_emoji_data_Raise in Hbody as (key & -> & _). eauto.
  - injection Hbody as <-. by eapply rule_call_Raise.
Qed.

(** The walk over the items of the table of format 12. *)
Lemma read_cmap12_items_Ok table self g2c self' g2c' :
  for_each read_cmap12_item (cmap table) (self, g2c) = Ok (self', g2c') →
  correlate_all self (cmap12_calls table) = Ok self'
  ∧ g2c' = side_table table g2c.
Proof.
  unfold cmap12_calls, side_table, correlate_all.
  generalize (cmap table). intros items. revert self g2c.
  induction items as [|[cp g] items IH]; intros self g2c H; simpl in *.
  - by injection H as <- <-.
  - apply bind_Ok in H as ([self1 g2c1] & Hitem & H).
    apply bind_Ok in Hitem as (self2 & Hup & [= <- <-]).
    rewrite Hup. simpl. by apply IH.
Qed.

Lemma read_and_clear_cmap12_loop_Ok self seen tables g2c self' tables' g2c' idx :
  read_and_clear_cmap12_loop self seen tables g2c = Ok (self', tables', g2c', idx) →
  ∃ before table after,
    tables = before ++ table :: after
    ∧ (∀ t, t ∈ before → is_cmap12 t = false)
    ∧ is_cmap12 table = true
    ∧ for_each read_cmap12_item (cmap table) (self, g2c) = Ok (self', g2c')
    ∧ tables' = seen ++ before ++ clear_cmap table :: after
    ∧ idx = length (seen ++ before).
Proof.
  revert seen; induction tables as [|table tables IH]; intros seen H; [done|].
  simpl in H. destruct (is_cmap12 table) eqn:H12.
  - apply bind_Ok in H as ([self1 g2c1] & Hitems & [= <- <- <- <-]).
    exists [], table, tables. rewrite app_nil_r. repeat split; try done.
    intros t Ht. by apply elem_of_nil in Ht.
  - apply IH in H as (before & t & after & -> & Hno & Ht & Hitems & -> & ->).
    exists (table :: before), t, after. rewrite <- !app_assoc. simpl.
    repeat split; try done.
    intros t' [->|Ht']%elem_of_cons; [done | by apply Hno].
Qed.

Lemma side_table_is_Some table start glyph :
  is_Some (side_table table start !! glyph) →
  is_Some (start !! glyph) ∨ ∃ cp, (cp, glyph) ∈ cmap table.
Proof.
  unfold side_table. generalize (cmap table). intros items. revert start.
  induction items as [|[cp g] items IH]; intros start H; simpl in *; [by left|].
  apply IH in H as [H|[cp' H]].
  - destruct (decide (g = glyph)) as [->|Hne].
    + right. exists cp. by left.
    + left. by rewrite lookup_insert_ne in H.
  - right. exists cp'. by right.
Qed.

Lemma dict_update_empty (other : gmap Z string) :
  dict_update [] other = map_to_list other.
Proof. unfold dict_update. simpl. by rewrite (right_id_L ∅ (∪)). Qed.

Lemma correlate_all_app self calls1 calls2 :
  correlate_all self (calls1 ++ calls2)
  = self1 ← correlate_all self calls1; correlate_all self1 calls2.
Proof. apply for_each_app. Qed.

(** What a run of [rewrite_tables] that returns has done. *)
Lemma rewrite_tables_inv self ttf self' ttf' :
  rewrite_tables self ttf = Ok (self', ttf') →
  ∃ before table after calls,
    first_cmap12 ttf before table after
    ∧ glyph_calls ttf table = Ok calls
    ∧ correlate_all (read_cbdt self ttf) calls = Ok self'
    ∧ cmap_tables ttf'
      = before ++ remapped_table table (remapped_codepoints self') :: after.
Proof.
  unfold rewrite_tables, read_and_clear_cmap12, read_and_clear_gsub. intros H.
  apply bind_Ok in H as ([[[self1 ttf1] g2c] idx] & Hcmap & H).
  apply bind_Ok in Hcmap as ([[[self1' tables] g2c'] idx'] & Hloop & [= -> <- -> ->]).
  apply bind_Ok in H as ([self2 ttf2] & Hgsub & [= <- <-]).
  apply bind_Ok in Hgsub as (self2' & Hwalk & [= -> <-]).
  apply read_and_clear_cmap12_loop_Ok in Hloop
    as (before & table & after & Htables & Hno & H12 & Hitems & -> & ->).
  apply read_cmap12_items_Ok in Hitems as [Hcalls1 ->].
  rewrite read_and_clear_gsub_rules in Hwalk. simpl in Hwalk.
  apply for_each_comprehension in Hwalk as (calls & Hrules & Hcalls2).
  exists before, table, after, (cmap12_calls table ++ calls).
  split; [done|]. split; [|split].
  - unfold glyph_calls. unfold ligature_rules in *.
    cbn [GSUB_Lookup set_cmap_tables] in Hrules. by rewrite Hrules.
  - rewrite correlate_all_app, Hcalls1. simpl. unfold correlate_all.
    rewrite <- Hcalls2. apply for_each_ext. by intros s [cps g] _.
  - unfold update_cmap. simpl.
    replace (length before) with (length before + 0)%nat by lia.
    rewrite alter_app_r. simpl. by rewrite dict_update_empty.
Qed.

(** What a run of [create_font] that returns has done. *)
Lemma create_font_inv self unicode_path android csv ttf self' out :
  create_font self unicode_path android csv ttf = Ok (self', out) →
  ∃ m0 m1 next before table after calls,
    load_emoji_data_map unicode_path android = Ok m0
    ∧ load_previous_metadata m0 csv = Ok (m1, next)
    ∧ first_cmap12 ttf before table after
    ∧ glyph_calls ttf table = Ok calls
    ∧ correlate_all
        (read_cbdt {| emoji_data_map := m1;
                      remapped_codepoints := remapped_codepoints self;
                      glyph_to_image_metrics_map := glyph_to_image_metrics_map self;
                      emoji_id := next |} ttf) calls = Ok self'
    ∧ cmap_tables (out_font out)
      = before ++ remapped_table table (remapped_codepoints self') :: after
    ∧ out_json out = (write_metadata_json self').1
    ∧ total_emoji_count out = (write_metadata_json self').2
    ∧ out_csv out = write_metadata_csv self'.
Proof.
  unfold create_font. intros H.
  apply bind_Ok in H as (m0 & Hload & H).
  apply bind_Ok in H as ([m1 next] & Hprev & H).
  apply bind_Ok in H as ([self1 ttf1] & Hrewrite & H).
  destruct (write_metadata_json self1) as [json total] eqn:Hjson.
  injection H as <- <-.
  apply rewrite_tables_inv in Hrewrite
    as (before & table & after & calls & Hfirst & Hcalls & Hrun & Htables).
  exists m0, m1, next, before, table, after, calls. simpl.
  split; [done|]. split; [done|]. split; [exact Hfirst|].
  split; [exact Hcalls|]. split; [exact Hrun|]. by rewrite Hjson.
Qed.

(** ** Calls of [update_emoji_data] *)

Lemma update_emoji_data_Ok self codepoints glyph_name self' :
  update_emoji_data self codepoints glyph_name = Ok self' →
  match emoji_data_map self !! codepoint_to_string codepoints with
  | None => self' = self
  | Some e =>
      ∃ m, glyph_to_image_metrics_map self !! glyph_name = Some m
           ∧ emoji_data_map self'
             = <[codepoint_to_string codepoints := correlated e m (emoji_id self)]>
                 (emoji_data_map self)
           ∧ remapped_codepoints self'
             = <[EmojiData.emoji_id (correlated e m (emoji_id self)) := glyph_name]>
                 (remapped_codepoints self)
           ∧ glyph_to_image_metrics_map self' = glyph_to_image_metrics_map self
           ∧ emoji_id self'
             = if EmojiData.emoji_id e =? 0 then emoji_id self + 1
               else emoji_id self
  end.
Proof.
  unfold update_emoji_data, getitem, correlated. intros H.
  destruct (emoji_data_map self !! codepoint_to_string codepoints) as [e|];
    [|by injection H as <-].
  destruct (glyph_to_image_metrics_map self !! glyph_name) as [m|]; [|done].
  exists m. split; [done|]. simpl in *.
  by destruct (EmojiData.emoji_id e =? 0); injection H as <-.
Qed.

Lemma correlated_id e m next :
  EmojiData.emoji_id (correlated e m next)
  = if EmojiData.emoji_id e =? 0 then next else EmojiData.emoji_id e.
Proof.
  unfold correlated. simpl. by destruct (EmojiData.emoji_id e =? 0) eqn:H.
Qed.

Lemma correlated_fields e m next :
  EmojiData.width (correlated e m next) = metrics_width m
  ∧ EmojiData.height (correlated e m next) = metrics_height m
  ∧ EmojiData.codepoints (correlated e m next) = EmojiData.codepoints e
  ∧ EmojiData.emoji_style (correlated e m next) = EmojiData.emoji_style e
  ∧ EmojiData.sdk_added (correlated e m next) = EmojiData.sdk_added e
  ∧ EmojiData.compat_added (correlated e m next) = EmojiData.compat_added e.
Proof. unfold correlated. simpl. by destruct (EmojiData.emoji_id e =? 0). Qed.

(** A call for another key leaves the entry alone. *)
Lemma update_emoji_data_other self codepoints glyph_name self' key :
  update_emoji_data self codepoints glyph_name = Ok self' →
  codepoint_to_string codepoints ≠ key →
  emoji_data_map self' !! key = emoji_data_map self !! key.
Proof.
  intros H%update_emoji_data_Ok Hne. simpl in H.
  destruct (emoji_data_map self !! codepoint_to_string codepoints);
    [|by subst].
  destruct H as (m & _ & -> & _). by rewrite lookup_insert_ne.
Qed.

(** A call keeps every entry, and keeps the id of an entry that has one. *)
Lemma update_emoji_data_keeps self codepoints glyph_name self' key e :
  update_emoji_data self codepoints glyph_name = Ok self' →
  emoji_data_map self !! key = Some e →
  ∃ e', emoji_data_map self' !! key = Some e'
        ∧ (EmojiData.emoji_id e ≠ 0 → EmojiData.emoji_id e' = EmojiData.emoji_id e).
Proof.
  intros H He.
  destruct (decide (codepoint_to_string codepoints = key)) as [Heq|Hne].
  - apply update_emoji_data_Ok in H. simpl in H. rewrite Heq, He in H.
    destruct H as (m & _ & -> & _). rewrite lookup_insert_eq.
    eexists. split; [done|]. rewrite correlated_id.
    by intros ->%Z.eqb_neq.
  - rewrite (update_emoji_data_other _ _ _ _ _ H Hne). eauto.
Qed.

Section correlate_all.
Implicit Types (self : t) (calls : list call).

Lemma correlate_all_cons self codepoints glyph_name calls self' :
  correlate_all self ((codepoints, glyph_name) :: calls) = Ok self' ↔
  ∃ self1, update_emoji_data self codepoints glyph_name = Ok self1
           ∧ correlate_all self1 calls = Ok self'.
Proof. unfold correlate_all. simpl. apply bind_Ok. Qed.

Lemma correlate_all_metrics self calls self' :
  correlate_all self calls = Ok self' →
  glyph_to_image_metrics_map self' = glyph_to_image_metrics_map self.
Proof.
  apply (for_each_invariant _
           (fun s => glyph_to_image_metrics_map s = glyph_to_image_metrics_map self));
    [|done].
  intros [cps g] s1 s2 _ <- H. by eapply update_emoji_data_metrics.
Qed.

Lemma correlate_all_other self calls self' key :
  correlate_all self calls = Ok self' →
  (∀ c, c ∈ calls → codepoint_to_string c.1 ≠ key) →
  emoji_data_map self' !! key = emoji_data_map self !! key.
Proof.
  intros H Hother. revert H.
  apply (for_each_invariant _
           (fun s => emoji_data_map s !! key = emoji_data_map self !! key));
    [|done].
  intros [cps g] s1 s2 Hc <- H.
  eapply update_emoji_data_other; [done|]. by apply (Hother _ Hc).
Qed.

Lemma correlate_all_keeps self calls self' key e :
  correlate_all self calls = Ok self' →
  emoji_data_map self !! key = Some e →
  ∃ e', emoji_data_map self' !! key = Some e'
        ∧ (EmojiData.emoji_id e ≠ 0 → EmojiData.emoji_id e' = EmojiData.emoji_id e).
Proof.
  revert self e; induction calls as [|[cps g] calls IH]; intros self e H He.
  - injection H as <-. eauto.
  - apply correlate_all_cons in H as (self1 & Hcall & H).
    destruct (update_emoji_data_keeps _ _ _ _ _ _ Hcall He) as (e1 & He1 & Hid1).
    destruct (IH _ _ H He1) as (e' & He' & Hid).
    exists e'. split; [done|]. intros Hne.
    rewrite Hid; rewrite Hid1; done.
Qed.
End correlate_all.

(** ** The previous metadata *)

Lemma load_previous_row_Ok (m : emoji_map) cur row m' cur' :
  load_previous_row (m, cur) row = Ok (m', cur') →
  ∃ r, snapshot_row row = Ok r ∧
    match r with
    | None => m' = m ∧ cur' = cur
    | Some (id, sdk_added, compat_added, codepoints) =>
        match m !! codepoint_to_string codepoints with
        | Some e =>
            m' = <[codepoint_to_string codepoints :=
                     EmojiData.update e id sdk_added compat_added]> m
            ∧ cur' = (if id >=? cur then id + 1 else cur)
        | None => m' = m ∧ cur' = cur
        end
    end.
Proof.
  unfold load_previous_row. intros H.
  apply bind_Ok in H as (r & Hr & H). exists r. split; [done|].
  destruct r as [[[[id sdk] compat] cps]|]; [|by injection H as <- <-].
  destruct (m !! codepoint_to_string cps); by injection H as <- <-.
Qed.

Lemma load_previous_row_total (m : emoji_map) cur row r :
  snapshot_row row = Ok r → ∃ st, load_previous_row (m, cur) row = Ok st.
Proof.
  intros Hr. unfold load_previous_row. rewrite Hr. simpl.
  destruct r as [[[[id sdk] compat] cps]|]; [|by eexists].
  destruct (m !! codepoint_to_string cps); by eexists.
Qed.

Lemma load_previous_row_lookup (m : emoji_map) cur row m' cur' key :
  load_previous_row (m, cur) row = Ok (m', cur') →
  is_Some (m' !! key) ↔ is_Some (m !! key).
Proof.
  intros (r & _ & H)%load_previous_row_Ok.
  destruct r as [[[[id sdk] compat] cps]|]; [|by destruct H as [-> _]].
  destruct (m !! codepoint_to_string cps) as [e|] eqn:He;
    destruct H as [-> _]; [|done].
  destruct (decide (codepoint_to_string cps = key)) as [<-|Hne].
  - rewrite lookup_insert_eq, He. split; eauto.
  - by rewrite lookup_insert_ne.
Qed.

Lemma load_previous_row_keyed (m : emoji_map) cur row m' cur' :
  keyed m → load_previous_row (m, cur) row = Ok (m', cur') → keyed m'.
Proof.
  intros Hm (r & _ & H)%load_previous_row_Ok.
  destruct r as [[[[id sdk] compat] cps]|]; [|by destruct H as [-> _]].
  destruct (m !! codepoint_to_string cps) as [e|] eqn:He;
    destruct H as [-> _]; [|done].
  apply keyed_insert; [done|]. simpl. by apply Hm in He.
Qed.

(** The next id after the rows: the largest of the current id and the
    successors of the ids of the records that match. *)
Lemma load_previous_rows_next (m0 : emoji_map) rows (m : emoji_map) cur m' next :
  (∀ key, is_Some (m !! key) ↔ is_Some (m0 !! key)) →
  for_each load_previous_row rows (m, cur) = Ok (m', next) →
  cur ≤ next
  ∧ (∀ id, matched m0 rows id → id + 1 ≤ next)
  ∧ (next = cur ∨ ∃ id, matched m0 rows id ∧ next = id + 1).
Proof.
  revert m cur; induction rows as [|row rows IH]; intros m cur Hdom H.
  - injection H as <- <-. split; [lia|]. split; [|by left].
    intros id (row & ? & ? & ? & Hrow%elem_of_nil & _). done.
  - simpl in H. apply bind_Ok in H as ([m1 cur1] & Hrow & H).
    assert (∀ key, is_Some (m1 !! key) ↔ is_Some (m0 !! key)) as Hdom1.
    { intros key. rewrite <- Hdom. by eapply load_previous_row_lookup. }
    destruct (IH _ _ Hdom1 H) as (Hle & Hub & Hmax).
    assert (∀ id, matched m0 rows id → matched m0 (row :: rows) id) as Hweak.
    { intros id (r & sdk & compat & cps & Hr & Hs).
      exists r, sdk, compat, cps. split; [by right | done]. }
    apply load_previous_row_Ok in Hrow as (r & Hr & Hcase).
    assert (cur ≤ cur1
            ∧ (∀ id, matched m0 [row] id → id + 1 ≤ cur1)
            ∧ (cur1 = cur ∨ ∃ id, matched m0 [row] id ∧ cur1 = id + 1))
      as (Hle1 & Hub1 & Hmax1).
    { destruct r as [[[[id sdk] compat] cps]|].
      - destruct (m !! codepoint_to_string cps) as [e|] eqn:He.
        + destruct Hcase as [_ ->].
          assert (matched m0 [row] id) as Hid.
          { exists row, sdk, compat, cps. split; [by left|]. split; [done|].
            apply Hdom. by rewrite He. }
          destruct (Z.geb_spec id cur); (split; [lia|]); split.
          * intros id' (row' & sdk' & compat' & cps' & ->%list_elem_of_singleton
                        & Hr' & _).
            rewrite Hr in Hr'. injection Hr' as <- _ _ _. lia.
          * right. by exists id.
          * intros id' (row' & sdk' & compat' & cps' & ->%list_elem_of_singleton
                        & Hr' & _).
            rewrite Hr in Hr'. injection Hr' as <- _ _ _. lia.
          * by left.
        + destruct Hcase as [_ ->]. split; [lia|]. split; [|by left].
          intros id' (row' & sdk' & compat' & cps' & ->%list_elem_of_singleton
                      & Hr' & Hin).
          rewrite Hr in Hr'. injection Hr' as <- <- <- <-.
          apply Hdom in Hin. rewrite He in Hin. by destruct Hin.
      - destruct Hcase as [_ ->]. split; [lia|]. split; [|by left].
        intros id' (row' & sdk' & compat' & cps' & ->%list_elem_of_singleton
                    & Hr' & _).
        by rewrite Hr in Hr'. }
    assert (∀ id, matched m0 [row] id → matched m0 (row :: rows) id) as Hweak1.
    { intros id (r1 & sdk & compat & cps & ->%list_elem_of_singleton & Hs).
      exists row, sdk, compat, cps. split; [by left | done]. }
    split; [lia|]. split.
    + intros id (r1 & sdk & compat & cps & [->|Hin]%elem_of_cons & Hs).
      * assert (id + 1 ≤ cur1); [|lia]. apply Hub1.
        exists row, sdk, compat, cps. split; [by left | done].
      * apply Hub. by exists r1, sdk, compat, cps.
    + destruct Hmax as [->|(id & Hid & ->)].
      * destruct Hmax1 as [->|(id & Hid & ->)]; [by left|].
        right. exists id. split; [by apply Hweak1 | done].
      * right. exists id. split; [by apply Hweak | done].
Qed.

(** ** Sorting and the metadata files *)

Section sorted.
Context {A : Type} (key : A → Z).

Lemma insert_sorted_perm x l : Py.insert_sorted key x l ≡ₚ x :: l.
Proof.
  induction l as [|y l IH]; simpl; [done|].
  destruct (key x <=? key y); [done|]. rewrite IH. apply Permutation_swap.
Qed.

Lemma sorted_perm l : Py.sorted l key ≡ₚ l.
Proof.
  unfold Py.sorted. induction l as [|x l IH]; simpl; [done|].
  by rewrite insert_sorted_perm, IH.
Qed.

Lemma insert_sorted_sorted x l :
  StronglySorted (fun a b => key a ≤ key b) l →
  StronglySorted (fun a b => key a ≤ key b) (Py.insert_sorted key x l).
Proof.
  induction 1 as [|y l Hl IH Hy]; simpl.
  - repeat constructor.
  - destruct (Z.leb_spec (key x) (key y)) as [Hle|Hgt].
    + constructor; [by constructor|]. constructor; [done|].
      eapply Forall_impl; [exact Hy|]. simpl. intros z Hz. lia.
    + constructor; [done|]. rewrite insert_sorted_perm.
      constructor; [lia | done].
Qed.

Lemma sorted_sorted l :
  StronglySorted (fun a b => key a ≤ key b) (Py.sorted l key).
Proof.
  unfold Py.sorted. induction l as [|x l IH]; simpl; [constructor|].
  by apply insert_sorted_sorted.
Qed.
End sorted.

Lemma emoji_data_list_perm self :
  emoji_data_list self ≡ₚ (map_to_list (emoji_data_map self)).*2.
Proof. apply sorted_perm. Qed.

Lemma elem_of_emoji_data_list self e :
  e ∈ emoji_data_list self ↔ ∃ key, emoji_data_map self !! key = Some e.
Proof.
  rewrite emoji_data_list_perm, list_elem_of_fmap. split.
  - intros ([key e'] & -> & Hin%elem_of_map_to_list). by exists key.
  - intros [key Hkey]. exists (key, e). by rewrite elem_of_map_to_list.
Qed.

Lemma emoji_data_list_keys self :
  keyed (emoji_data_map self) →
  key_of <$> emoji_data_list self ≡ₚ (map_to_list (emoji_data_map self)).*1.
Proof.
  intros Hkeyed. rewrite emoji_data_list_perm, <- list_fmap_compose.
  assert (key_of ∘ snd <$> map_to_list (emoji_data_map self)
          = (map_to_list (emoji_data_map self)).*1) as ->; [|done].
  apply Forall_fmap_ext_1, Forall_forall.
  intros [key e] Hin%elem_of_map_to_list. simpl. by apply Hkeyed in Hin.
Qed.

Lemma emoji_data_list_NoDup self :
  keyed (emoji_data_map self) → NoDup (key_of <$> emoji_data_list self).
Proof.
  intros Hkeyed. rewrite emoji_data_list_keys by done.
  apply NoDup_fst_map_to_list.
Qed.

(** Reading back the rows that [write_metadata_csv] writes. *)
Lemma to_hex_no_comment id : Py.startswith (to_hex id) "#" = false.
Proof.
  unfold to_hex, Py.format_X, Py.render, Py.startswith.
  assert (all_chars is_digit (Py.digits 16 true (Z.abs_N id))) as Hd
    by (apply digits_digits; lia).
  pose proof (digits_nonempty 16 true (Z.abs_N id)) as Hne.
  destruct (id <? 0); rewrite ?append_cons, !append_nil; [done|].
  destruct (Py.digits 16 true (Z.abs_N id)) as [|c s]; [done|].
  destruct Hd as [Hc _].
  apply is_digit_plain in Hc as (_ & _ & _ & _ & _ & Hc).
  change (String.prefix "#" (String c s))
    with (if Ascii.ascii_dec "#" c then String.prefix "" s else false).
  by destruct (Ascii.ascii_dec "#" c) as [<-|].
Qed.

Lemma snapshot_row_create_txt_row e :
  snapshot_row (EmojiData.create_txt_row e)
  = Ok (Some (EmojiData.emoji_id e, EmojiData.sdk_added e,
              EmojiData.compat_added e, EmojiData.codepoints e)).
Proof.
  unfold snapshot_row, EmojiData.create_txt_row. simpl.
  rewrite to_hex_no_comment, hex_str_to_int_to_hex. cbn [mbind result_bind].
  rewrite int_str. cbn [mbind result_bind].
  rewrite int_str. cbn [mbind result_bind]. rewrite drop_0.
  rewrite (comprehension_fmap hex_str_to_int to_hex id).
  - by rewrite list_fmap_id.
  - intros x _. apply hex_str_to_int_to_hex.
Qed.

Lemma load_previous_row_create_txt_row (m : emoji_map) cur e :
  ∃ m' cur',
    load_previous_row (m, cur) (EmojiData.create_txt_row e) = Ok (m', cur')
    ∧ m' !! key_of e = reconciled e <$> m !! key_of e
    ∧ ∀ key, key ≠ key_of e → m' !! key = m !! key.
Proof.
  unfold load_previous_row. rewrite snapshot_row_create_txt_row. simpl.
  fold (key_of e). destruct (m !! key_of e) as [e0|] eqn:He0.
  - eexists _, _. split; [done|]. split.
    + by rewrite lookup_insert_eq.
    + intros key Hne. by rewrite lookup_insert_ne.
  - eexists _, _. split; [done|]. by rewrite He0.
Qed.

(** Every entry of the list gives its id and versions to the entry with
    its key, and the other entries stay as they are. *)
Lemma load_previous_rows_create_txt_rows es (m : emoji_map) cur :
  NoDup (key_of <$> es) →
  ∃ m' next,
    for_each load_previous_row (EmojiData.create_txt_row <$> es) (m, cur)
    = Ok (m', next)
    ∧ (∀ e, e ∈ es → m' !! key_of e = reconciled e <$> m !! key_of e)
    ∧ (∀ key, key ∉ key_of <$> es → m' !! key = m !! key).
Proof.
  revert m cur; induction es as [|e0 es IH]; intros m cur Hnodup.
  - exists m, cur. split; [done|]. split; [|done].
    intros e He. exfalso. exact (proj1 (elem_of_nil e) He).
  - rewrite fmap_cons in Hnodup. apply NoDup_cons in Hnodup as [Hfresh Hnodup].
    destruct (load_previous_row_create_txt_row m cur e0)
      as (m1 & cur1 & Hrow & Hthis & Hother).
    destruct (IH m1 cur1 Hnodup) as (m' & next & Hrows & Hin & Hout).
    exists m', next. rewrite fmap_cons. cbn [for_each]. rewrite Hrow.
    split; [done|]. split.
    + intros e [->|He]%elem_of_cons.
      * by rewrite (Hout _ Hfresh).
      * rewrite (Hin _ He). rewrite Hother; [done|].
        intros Heq. apply Hfresh. rewrite <- Heq.
        apply list_elem_of_fmap. eauto.
    + intros key Hkey. rewrite fmap_cons, not_elem_of_cons in Hkey.
      destruct Hkey as [Hne Hkey]. rewrite (Hout _ Hkey). by apply Hother.
Qed.

(** Writing the metadata file and reading it into a registry. *)
Lemma load_written_metadata self (m : emoji_map) :
  keyed (emoji_data_map self) →
  ∃ m' next,
    load_previous_metadata m (Some (write_metadata_csv self)) = Ok (m', next)
    ∧ ∀ key,
        m' !! key = match emoji_data_map self !! key with
                    | Some e => reconciled e <$> m !! key
                    | None => m !! key
                    end.
Proof.
  intros Hkeyed.
  destruct (load_previous_rows_create_txt_rows (emoji_data_list self) m
              DEFAULT_EMOJI_ID (emoji_data_list_NoDup _ Hkeyed))
    as (m' & next & Hrows & Hin & Hout).
  exists m', next. split; [exact Hrows|].
  intros key. destruct (emoji_data_map self !! key) as [e|] eqn:He.
  - assert (key_of e = key) as <- by (by apply Hkeyed in He).
    apply Hin, elem_of_emoji_data_list. eauto.
  - apply Hout. rewrite emoji_data_list_keys by done.
    intros ([key' e] & -> & Hin'%elem_of_map_to_list)%list_elem_of_fmap.
    simpl in He. by rewrite He in Hin'.
Qed.

Lemma load_previous_metadata_keeps (m : emoji_map) csv m' next :
  load_previous_metadata m csv = Ok (m', next) →
  (keyed m → keyed m') ∧ ∀ key, is_Some (m' !! key) ↔ is_Some (m !! key).
Proof.
  unfold load_previous_metadata. destruct csv as [csvfile|];
    [|by intros [= <- <-]].
  intros H.
  apply (for_each_invariant load_previous_row
           (fun st => (keyed m → keyed st.1)
                      ∧ ∀ key, is_Some (st.1 !! key) ↔ is_Some (m !! key))
           csvfile (m, DEFAULT_EMOJI_ID) (m', next)); [|done|done].
  intros row [m1 cur1] [m2 cur2] _ [Hk Hdom] Hrow. simpl in *. split.
  - intros Hm. eapply load_previous_row_keyed; [by apply Hk | done].
  - intros key. rewrite <- Hdom. by eapply load_previous_row_lookup.
Qed.

Lemma update_emoji_data_keeps_keys self codepoints glyph_name self' :
  update_emoji_data self codepoints glyph_name = Ok self' →
  (keyed (emoji_data_map self) → keyed (emoji_data_map self'))
  ∧ ∀ key, is_Some (emoji_data_map self' !! key)
           ↔ is_Some (emoji_data_map self !! key).
Proof.
  intros H%update_emoji_data_Ok.
  destruct (emoji_data_map self !! codepoint_to_string codepoints) as [e|] eqn:He;
    [|by subst].
  destruct H as (m & _ & -> & _). split.
  - intros Hkeyed. apply keyed_insert; [done|].
    destruct (correlated_fields e m (emoji_id self)) as (_ & _ & -> & _).
    by apply Hkeyed in He.
  - intros key. destruct (decide (codepoint_to_string codepoints = key)) as [<-|].
    + rewrite lookup_insert_eq, He. split; eauto.
    + by rewrite lookup_insert_ne.
Qed.

Lemma correlate_all_keeps_keys self calls self' :
  correlate_all self calls = Ok self' →
  (keyed (emoji_data_map self) → keyed (emoji_data_map self'))
  ∧ ∀ key, is_Some (emoji_data_map self' !! key)
           ↔ is_Some (emoji_data_map self !! key).
Proof.
  apply (for_each_invariant _
           (fun s => (keyed (emoji_data_map self) → keyed (emoji_data_map s))
                     ∧ ∀ key, is_Some (emoji_data_map s !! key)
                              ↔ is_Some (emoji_data_map self !! key)));
    [|done].
  intros [cps g] s1 s2 _ [Hk Hdom] [Hk' Hdom']%update_emoji_data_keeps_keys.
  split; [auto|]. intros key. by rewrite Hdom'.
Qed.

(** The registry at the end of a run: its entries are stored under their
    keys and its keys are those of the registry read from the files. *)
Lemma create_font_registry self unicode_path android csv ttf self' out m0 :
  create_font self unicode_path android csv ttf = Ok (self', out) →
  load_emoji_data_map unicode_path android = Ok m0 →
  keyed (emoji_data_map self')
  ∧ ∀ key, is_Some (emoji_data_map self' !! key) ↔ is_Some (m0 !! key).
Proof.
  intros (m0' & m1 & next & before & table & after & calls & Hload & Hprev
          & _ & _ & Hrun & _)%create_font_inv Hload'.
  rewrite Hload' in Hload. injection Hload as <-.
  apply load_emoji_data_map_keyed in Hload'.
  apply load_previous_metadata_keeps in Hprev as [Hk1 Hdom1].
  apply correlate_all_keeps_keys in Hrun as [Hk2 Hdom2]. simpl in *.
  split; [auto|]. intros key. by rewrite Hdom2.
Qed.

(** ** The dictionary of remapped code points *)






Lemma load_previous_metadata_next (m : emoji_map) csv m' next :
  load_previous_metadata m csv = Ok (m', next) → DEFAULT_EMOJI_ID ≤ next.
Proof.
  unfold load_previous_metadata. destruct csv as [csvfile|].
  - intros H. by destruct (load_previous_rows_next m csvfile m _ _ _
                             ltac:(done) H) as [? _].
  - by intros [= _ <-].
Qed.

(** ** Ids before the walk over the font *)

Lemma add_interval_codepoint_unassigned style (m : emoji_map) cp :
  unassigned m → unassigned (add_interval_codepoint style m cp).
Proof.
  intros Hm. unfold add_interval_codepoint.
  destruct (m !! codepoint_to_string [cp]) as [e|] eqn:He.
  - destruct (style || _); [|done].
    apply map_Forall_insert_2; [|done]. simpl. by apply Hm in He.
  - by apply map_Forall_insert_2.
Qed.

Lemma load_emoji_data_map_unassigned unicode_path android m :
  load_emoji_data_map unicode_path android = Ok m → unassigned m.
Proof.
  assert (∀ (m m' : emoji_map) file,
            unassigned m → read_emoji_sequences m file = Ok m' → unassigned m')
    as Hseq.
  { intros m1 m' file Hm1. apply (for_each_invariant _ unassigned); [|done].
    intros line m2 m3 _ Hm2 (cps & _ & [[_ ->]|[_ ->]])%add_sequence_inv;
      [|done].
    by apply map_Forall_insert_2. }
  intros (m1 & m2 & m3 & H1 & H2 & H3 & H4)%load_emoji_data_map_inv.
  assert (unassigned m1) as Hm1.
  { revert H1. apply (for_each_invariant _ unassigned); [|apply map_Forall_empty].
    intros line m4 m5 _ Hm4 H. inv_bind H. destruct a as [cps style].
    injection H as <-. clear Hstep. revert m4 Hm4.
    induction cps as [|cp cps IH]; intros m4 Hm4; simpl; [done|].
    by apply IH, add_interval_codepoint_unassigned. }
  destruct android; [|subst]; eauto.
Qed.

(** The id of an entry after the previous metadata is read is the id it had
    or the id of a record of the file whose key is in the registry. *)
Lemma load_previous_metadata_id (m : emoji_map) csv m' next key e' :
  load_previous_metadata m csv = Ok (m', next) →
  m' !! key = Some e' →
  ∃ e, m !! key = Some e
       ∧ (EmojiData.emoji_id e' = EmojiData.emoji_id e
          ∨ ∃ csvfile, csv = Some csvfile
                       ∧ matched m csvfile (EmojiData.emoji_id e')).
Proof.
  unfold load_previous_metadata. destruct csv as [csvfile|];
    [|intros [= <- <-] He'; eauto].
  intros H. revert key e'.
  apply (for_each_invariant load_previous_row
           (fun st => ∀ key e', st.1 !! key = Some e' →
              ∃ e, m !! key = Some e
                   ∧ (EmojiData.emoji_id e' = EmojiData.emoji_id e
                      ∨ ∃ csvfile', Some csvfile = Some csvfile'
                           ∧ matched m csvfile' (EmojiData.emoji_id e')))
           csvfile (m, DEFAULT_EMOJI_ID) (m', next)); [| |done].
  - intros row [m1 cur1] [m2 cur2] Hrow Hinv (r & Hr & Hcase)%load_previous_row_Ok.
    simpl in *.
    destruct r as [[[[id sdk] compat] cps]|]; [|by destruct Hcase as [-> _]].
    destruct (m1 !! codepoint_to_string cps) as [e1|] eqn:He1;
      destruct Hcase as [-> _]; [|done].
    intros key e' [[<- <-]|[_ He']]%lookup_insert_Some; [|eauto].
    destruct (Hinv _ _ He1) as (e & He & _).
    exists e. split; [done|]. right. exists csvfile. split; [done|].
    exists row, sdk, compat, cps. split; [done|]. split; [done|]. by eexists.
  - simpl. intros key e' He'. eauto.
Qed.

(** The id of an entry after the previous metadata is read is the id it had
    or the id of a record of the file with the key of the entry. *)
Lemma load_previous_metadata_recorded (m : emoji_map) csv m' next key e' :
  load_previous_metadata m csv = Ok (m', next) →
  m' !! key = Some e' →
  ∃ e, m !! key = Some e
       ∧ (EmojiData.emoji_id e' = EmojiData.emoji_id e
          ∨ ∃ csvfile, csv = Some csvfile
                       ∧ recorded csvfile key (EmojiData.emoji_id e')).
Proof.
  unfold load_previous_metadata. destruct csv as [csvfile|];
    [|intros [= <- <-] He'; eauto].
  intros H. revert key e'.
  apply (for_each_invariant load_previous_row
           (fun st => ∀ key e', st.1 !! key = Some e' →
              ∃ e, m !! key = Some e
                   ∧ (EmojiData.emoji_id e' = EmojiData.emoji_id e
                      ∨ ∃ csvfile', Some csvfile = Some csvfile'
                           ∧ recorded csvfile' key (EmojiData.emoji_id e')))
           csvfile (m, DEFAULT_EMOJI_ID) (m', next)); [| |done].
  - intros row [m1 cur1] [m2 cur2] Hrow Hinv (r & Hr & Hcase)%load_previous_row_Ok.
    simpl in *.
    destruct r as [[[[id sdk] compat] cps]|]; [|by destruct Hcase as [-> _]].
    destruct (m1 !! codepoint_to_string cps) as [e1|] eqn:He1;
      destruct Hcase as [-> _]; [|done].
    intros key e' [[<- <-]|[_ He']]%lookup_insert_Some; [|eauto].
    destruct (Hinv _ _ He1) as (e & He & _).
    exists e. split; [done|]. right. exists csvfile. split; [done|].
    by exists row, sdk, compat, cps.
  - simpl. intros key e' He'. eauto.
Qed.

Lemma write_metadata_json_spec self :
  write_metadata_json self
  = ({| j_version := METADATA_VERSION;
        j_list := EmojiData.create_json_element <$> emoji_data_list self |},
     Z.of_nat (length (emoji_data_list self))).
Proof.
  unfold write_metadata_json.
  assert (∀ l elements total,
            foldl (fun '(elements, total_emoji_count) emoji_data =>
                     (elements ++ [EmojiData.create_json_element emoji_data],
                      total_emoji_count + 1))
                  (elements, total) l
            = (elements ++ (EmojiData.create_json_element <$> l),
               total + Z.of_nat (length l))) as Hfold.
  { induction l as [|x l IH]; intros elements total; simpl.
    - by rewrite app_nil_r, Z.add_0_r.
    - rewrite IH, <- app_assoc. simpl. f_equal. lia. }
  by rewrite Hfold.
Qed.

(** ** The ids that the walk hands out *)

Lemma update_emoji_data_ids self codepoints glyph_name self' :
  update_emoji_data self codepoints glyph_name = Ok self' →
  0 < emoji_id self → ids_below self →
  ids_below self'
  ∧ emoji_id self ≤ emoji_id self'
  ∧ (∀ key e e', emoji_data_map self !! key = Some e →
                 emoji_data_map self' !! key = Some e' →
                 id_kept_or_new (emoji_id self) (emoji_id self') e e')
  ∧ (ids_unique (emoji_data_map self) → ids_unique (emoji_data_map self')).
Proof.
  intros H Hpos Hbelow. apply update_emoji_data_Ok in H.
  destruct (emoji_data_map self !! codepoint_to_string codepoints) as [e0|] eqn:He0.
  - destruct H as (m & _ & Hmap & _ & _ & Hnext).
    pose proof (correlated_id e0 m (emoji_id self)) as Hid.
    pose proof (Hbelow _ _ He0) as Hlt0.
    assert (EmojiData.emoji_id (correlated e0 m (emoji_id self)) < emoji_id self')
      as Hlt.
    { rewrite Hid, Hnext. destruct (EmojiData.emoji_id e0 =? 0); lia. }
    assert (emoji_id self ≤ emoji_id self') as Hle.
    { rewrite Hnext. destruct (EmojiData.emoji_id e0 =? 0); lia. }
    split; [|split; [done|split]].
    + intros key e He. rewrite Hmap in He.
      apply lookup_insert_Some in He as [[_ <-]|[_ He]]; [done|].
      apply Hbelow in He. lia.
    + intros key e e' He He'. rewrite Hmap in He'.
      apply lookup_insert_Some in He' as [[<- <-]|[_ He']].
      * rewrite He0 in He. injection He as <-. unfold id_kept_or_new.
        rewrite Hid, Hnext.
        destruct (Z.eqb_spec (EmojiData.emoji_id e0) 0); [right; lia | by left].
      * rewrite He in He'. injection He' as <-. by left.
    + intros Hunique k1 k2 e1 e2 H1 H2 Heq Hne. rewrite Hmap in H1, H2.
      apply lookup_insert_Some in H1 as [[<- <-]|[Hk1 H1]];
        apply lookup_insert_Some in H2 as [[<- <-]|[Hk2 H2]]; try done.
      * rewrite Hid in Heq, Hne. pose proof (Hbelow _ _ H2).
        destruct (Z.eqb_spec (EmojiData.emoji_id e0) 0); [lia|].
        by apply (Hunique _ _ _ _ He0 H2).
      * rewrite Hid in Heq. pose proof (Hbelow _ _ H1).
        destruct (Z.eqb_spec (EmojiData.emoji_id e0) 0); [lia|].
        symmetry. apply (Hunique _ _ _ _ He0 H1); [done | lia].
      * by apply (Hunique _ _ _ _ H1 H2).
  - subst self'. split; [done|]. split; [lia|]. split; [|done].
    intros key e e' He He'. rewrite He in He'. injection He' as <-. by left.
Qed.

Lemma correlate_all_ids calls self self' :
  correlate_all self calls = Ok self' →
  0 < emoji_id self → ids_below self →
  ids_below self'
  ∧ emoji_id self ≤ emoji_id self'
  ∧ (∀ key e e', emoji_data_map self !! key = Some e →
                 emoji_data_map self' !! key = Some e' →
                 id_kept_or_new (emoji_id self) (emoji_id self') e e')
  ∧ (ids_unique (emoji_data_map self) → ids_unique (emoji_data_map self')).
Proof.
  revert self; induction calls as [|[cps g] calls IH];
    intros self Hrun Hpos Hbelow.
  - injection Hrun as <-. split; [done|]. split; [lia|]. split; [|done].
    intros key e e' He He'. rewrite He in He'. injection He' as <-. by left.
  - apply correlate_all_cons in Hrun as (self1 & Hcall & Hrun).
    destruct (update_emoji_data_ids _ _ _ _ Hcall Hpos Hbelow)
      as (Hbelow1 & Hle1 & Hids1 & Hunique1).
    destruct (IH self1 Hrun) as (Hbelow' & Hle' & Hids' & Hunique');
      [lia | done |].
    split; [done|]. split; [lia|]. split; [|auto].
    intros key e e' He He'.
    destruct (update_emoji_data_keeps _ _ _ _ _ _ Hcall He) as (e1 & He1 & _).
    destruct (Hids1 _ _ _ He He1) as [Hsame1|[Hzero1 Hrange1]],
             (Hids' _ _ _ He1 He') as [Hsame'|[Hzero' Hrange']];
      unfold id_kept_or_new.
    + left. congruence.
    + right. rewrite <- Hsame1. lia.
    + right. rewrite Hsame'. lia.
    + lia.
Qed.


Import EmojiFontCreator.

(** * Scenarios

    The readers and the run on small inputs. *)

Example interval_line_range :
  interval_line "1F93C..1F93E ; EMOJI_PRESENTATION # [...]"
  = Ok ([0x1F93C; 0x1F93D; 0x1F93E], true).
Proof. computed. Qed.

Example interval_line_three_fields :
  interval_line "1F93C ; EMOJI ; MORE # [...]" = Raise (ValueError "unpack").
Proof. computed. Qed.

Example sequence_line_zwj :
  sequence_line "1F468 200D 2764 FE0F 200D 1F468 ; NAME ; C"
  = Ok [0x1F468; 0x200D; 0x2764; 0xFE0F; 0x200D; 0x1F468].
Proof. computed. Qed.

Example read_emoji_lines_skips :
  read_emoji_lines ["# comment"; ""; "  1f600 ; Emoji # face  "]
  = ["1F600 ; EMOJI # FACE"].
Proof. computed. Qed.

Example codepoint_to_string_flag :
  codepoint_to_string [0x1F1E6; 0x1F1E8] = "0x1f1e6 0x1f1e8".
Proof. computed. Qed.

(** A record of the previous metadata gives its id and versions to the
    entry with its key. *)
Example reconciled_entry :
  Sample.reconciled_registry !! "0x1f600"
  = Some {| EmojiData.codepoints := [0x1F600];
            EmojiData.emoji_style := true;
            EmojiData.emoji_id := 0xF0005;
            EmojiData.width := 0;
            EmojiData.height := 0;
            EmojiData.sdk_added := 19;
            EmojiData.compat_added := 1 |}.
Proof. computed. Qed.

(** Without previous metadata the ids are handed out from 0xF0001 on, in
    the order of the walk. *)
Example first_ids :
  (fun r => (EmojiData.emoji_id <$> emoji_data_map r.1 !! "0x2764",
             EmojiData.emoji_id <$> emoji_data_map r.1 !! "0x1f600"))
    <$> (match EmojiFontCreator.create_font EmojiFontCreator.init
                 Sample.unicode None None Sample.font with
         | Ok r => Some r
         | Raise _ => None
         end)
  = Some (Some 0xF0001, Some 0xF0002).
Proof. computed. Qed.

(** * The claims *)

(** C6: every code point of the fixed override set (0x2600, 0x2601, 0x260E,
    0x261D, 0x263A, 0x2660, 0x2663, 0x2665, 0x2666, 0x270C, 0x2744, 0x2764)
    that stands on a line of the interval file has an entry in the registry
    that [load_emoji_data_map] returns, and that entry is an emoji style entry,
    whatever property the lines that name it carry. *)
Theorem style_exceptions_are_emoji_style
    unicode_path android m line codepoints style codepoint :
  load_emoji_data_map unicode_path android = Ok m →
  line ∈ read_emoji_lines (EMOJI_DATA_FILE unicode_path) →
  interval_line line = Ok (codepoints, style) →
  codepoint ∈ codepoints →
  codepoint ∈ EMOJI_STYLE_EXCEPTIONS →
  ∃ e, m !! codepoint_to_string [codepoint] = Some e
       ∧ EmojiData.emoji_style e = true
       ∧ EmojiData.codepoints e = [codepoint].
Proof.
  intros Hload Hline Hparse Hcp Hexc.
  pose proof (load_emoji_data_map_keyed _ _ _ Hload) as Hkeyed.
  apply load_emoji_data_map_inv in Hload as (m1 & m2 & m3 & H1 & H2 & H3 & H4).
  assert (styled (codepoint_to_string [codepoint]) m1) as (e & He & Hs).
  { eapply read_emoji_intervals_styled; eauto. }
  assert (m1 ⊆ m) as Hsub.
  { apply read_emoji_sequences_subseteq in H2, H3.
    etrans; [exact H2|]. etrans; [exact H3|].
    destruct android; [by eapply read_emoji_sequences_subseteq | by subst]. }
  exists e. pose proof (lookup_weaken _ _ _ _ He Hsub) as He'.
  repeat split; [done..|].
  apply Hkeyed in He'. by apply codepoint_to_string_inj in He'.
Qed.

Lemma style_exceptions_are_emoji_style_witness :
  ∃ e, Sample.registry !! codepoint_to_string [0x2764] = Some e
       ∧ EmojiData.emoji_style e = true
       ∧ EmojiData.codepoints e = [0x2764].
Proof.
  apply (style_exceptions_are_emoji_style Sample.unicode None Sample.registry
           "2764 ; EMOJI # HEAVY BLACK HEART" [0x2764] false 0x2764).
  - computed.
  - vm_compute. apply list_elem_of_here.
  - computed.
  - apply list_elem_of_here.
  - do 11 apply list_elem_of_further. apply list_elem_of_here.
Defined.

(** C10: an entry that the sequence grammar creates is created with the
    emoji style flag false, and an entry that is already in the registry is
    found unchanged after the file is read, so that no line of a sequence
    file sets the flag of an entry to true. *)
Theorem sequences_never_emoji_style (m : emoji_map) file m' :
  read_emoji_sequences m file = Ok m' →
  (∀ key e, m' !! key = Some e → m !! key = None →
            EmojiData.emoji_style e = false)
  ∧ (∀ key e, m !! key = Some e → m' !! key = Some e).
Proof.
  intros H. split.
  - revert H.
    apply (for_each_invariant _
             (fun m1 => ∀ key e, m1 !! key = Some e → m !! key = None →
                                 EmojiData.emoji_style e = false)).
    + intros line m1 m2 _ Hm1 Hadd key e He Hm.
      apply add_sequence_inv in Hadd as (cps & _ & [[_ ->]|[_ ->]]); [|eauto].
      apply lookup_insert_Some in He as [[_ <-]|[_ He]]; [done | eauto].
    + intros key e He Hm. by rewrite Hm in He.
  - intros key e He. apply read_emoji_sequences_subseteq in H.
    by eapply lookup_weaken.
Qed.

Lemma sequences_never_emoji_style_witness :
  (∀ key e, Sample.sequence_registry !! key = Some e →
            Sample.interval_registry !! key = None →
            EmojiData.emoji_style e = false)
  ∧ (∀ key e, Sample.interval_registry !! key = Some e →
              Sample.sequence_registry !! key = Some e).
Proof.
  apply (sequences_never_emoji_style Sample.interval_registry
           (EMOJI_SEQ_FILE Sample.unicode)).
  computed.
Defined.

(** C7: the key of a sequence line is the key of the code points of the line
    without the occurrences of 0xFE0F.  After a sequence file is read, an
    entry that was in the registry under that key is found there unchanged,
    otherwise a fresh entry holding those code points is; nothing that was
    in the registry before is changed.  [load_emoji_data_map] reads the ZWJ
    sequences, then the emoji sequences, then the file of the library, each
    on top of what was read before, so that the first definition wins. *)
Theorem sequence_first_definition_wins :
  (∀ (m : emoji_map) file m',
     read_emoji_sequences m file = Ok m' →
     m ⊆ m'
     ∧ ∀ line codepoints,
         line ∈ read_emoji_lines file →
         sequence_line line = Ok codepoints →
         let stripped := filter (fun x => x ≠ EMOJI_STYLE_VS) codepoints in
         let key := codepoint_to_string stripped in
         match m !! key with
         | Some e => m' !! key = Some e
         | None => m' !! key = Some (EmojiData.init stripped false)
         end)
  ∧ (∀ unicode_path android m,
       load_emoji_data_map unicode_path android = Ok m →
       ∃ m1 m2 m3,
         read_emoji_intervals ∅ (EMOJI_DATA_FILE unicode_path) = Ok m1
         ∧ read_emoji_sequences m1 (EMOJI_ZWJ_FILE unicode_path) = Ok m2
         ∧ read_emoji_sequences m2 (EMOJI_SEQ_FILE unicode_path) = Ok m3
         ∧ match android with
           | Some file => read_emoji_sequences m3 file = Ok m
           | None => m = m3
           end
         ∧ m1 ⊆ m2 ∧ m2 ⊆ m3 ∧ m3 ⊆ m).
Proof.
  split.
  - intros m file m' H. split; [by eapply read_emoji_sequences_subseteq|].
    intros line codepoints Hline Hparse stripped key.
    pose proof (add_sequences_lookup _ _ _ _ _ H Hline Hparse) as Hkey.
    cbv zeta in Hkey.
    change (sequence_codepoints codepoints) with stripped in Hkey.
    fold key in Hkey. revert Hkey. by destruct (m !! key).
  - intros unicode_path android m
      (m1 & m2 & m3 & H1 & H2 & H3 & H4)%load_emoji_data_map_inv.
    exists m1, m2, m3. repeat split; try done.
    + by eapply read_emoji_sequences_subseteq.
    + by eapply read_emoji_sequences_subseteq.
    + destruct android; [by eapply read_emoji_sequences_subseteq | by subst].
Qed.

(** The heart of the sample files: the entry that the interval file made
    for 0x2764 is not replaced by the line [2764 FE0F] of the sequence file,
    and the flag sequence gets a fresh entry. *)
Lemma sequence_first_definition_wins_witness :
  Sample.sequence_registry !! "0x2764"
  = Some (EmojiData.init [0x2764] true)
  ∧ Sample.sequence_registry !! "0x1f1e6 0x1f1e8"
    = Some (EmojiData.init [0x1F1E6; 0x1F1E8] false).
Proof.
  destruct (proj1 sequence_first_definition_wins Sample.interval_registry
              (EMOJI_SEQ_FILE Sample.unicode) Sample.sequence_registry)
    as [_ Hlines]; [computed|].
  split.
  - apply (Hlines "2764 FE0F ; EMOJI_PRESENTATION_SEQUENCE ; HEART"
                  [0x2764; 0xFE0F]).
    + vm_compute. apply list_elem_of_further, list_elem_of_here.
    + computed.
  - apply (Hlines "1F1E6 1F1E8 ; EMOJI_FLAG_SEQUENCE ; ASCENSION ISLAND"
                  [0x1F1E6; 0x1F1E8]).
    + vm_compute. apply list_elem_of_here.
    + computed.
Defined.


(** C8: when the font has no cmap table of format 12 for platform 3 and
    encoding 10, [read_and_clear_cmap12] raises the error that says so and
    [create_font] does not return.  When the font has such a table,
    [read_and_clear_cmap12] returns, unless the image metrics of a glyph of
    that table are missing: it does not raise that error. *)
Theorem cmap12_absent_is_fatal self ttf glyph_to_codepoint_map :
  (¬ has_cmap12 ttf →
   read_and_clear_cmap12 self ttf glyph_to_codepoint_map = Raise no_cmap12
   ∧ ∀ unicode_path android csv,
       ∃ e, create_font self unicode_path android csv ttf = Raise e)
  ∧ (has_cmap12 ttf →
     read_and_clear_cmap12 self ttf glyph_to_codepoint_map ≠ Raise no_cmap12
     ∧ match read_and_clear_cmap12 self ttf glyph_to_codepoint_map with
       | Ok _ => True
       | Raise e => metrics_missing self e
       end).
Proof.
  assert (∀ self ttf g2c, ¬ has_cmap12 ttf →
            read_and_clear_cmap12 self ttf g2c = Raise no_cmap12) as Habsent.
  { clear. intros self ttf g2c Hno. unfold read_and_clear_cmap12.
    rewrite read_and_clear_cmap12_loop_absent; [done|].
    intros table Ht. apply not_true_is_false. intros H12%is_cmap12_true.
    apply Hno. by exists table. }
  split.
  - intros Hno. split; [by apply Habsent|].
    intros unicode_path android csv. unfold create_font.
    destruct (load_emoji_data_map unicode_path android) as [m|e]; [|by eexists].
    simpl. destruct (load_previous_metadata m csv) as [[m1 next]|e]; [|by eexists].
    simpl. unfold rewrite_tables. rewrite Habsent; [by eexists | done].
  - intros (table & Ht & H12%is_cmap12_true).
    pose proof (read_and_clear_cmap12_loop_present self [] (cmap_tables ttf)
                  glyph_to_codepoint_map) as Hloop.
    unfold read_and_clear_cmap12.
    destruct (read_and_clear_cmap12_loop _ _ _ _) as [[[[self1 tables] g2c] idx]|e];
      simpl; [done|].
    assert (metrics_missing self e) as Hm by (apply Hloop; eauto).
    split; [|done]. destruct Hm as (glyph & -> & _). done.
Qed.

Lemma cmap12_absent_is_fatal_witness :
  (read_and_clear_cmap12 init
     {| head_fontRevision := 2; CBDT_strikeData := [Sample.strike];
        cmap_tables := [Sample.cmap4]; GSUB_Lookup := Sample.gsub |} ∅
   = Raise no_cmap12)
  ∧ read_and_clear_cmap12 init Sample.font ∅ ≠ Raise no_cmap12.
Proof.
  split.
  - apply (cmap12_absent_is_fatal init
             {| head_fontRevision := 2; CBDT_strikeData := [Sample.strike];
                cmap_tables := [Sample.cmap4]; GSUB_Lookup := Sample.gsub |} ∅).
    intros (table & Ht & H12 & _). apply list_elem_of_singleton in Ht as ->.
    discriminate H12.
  - apply (cmap12_absent_is_fatal init Sample.font ∅).
    exists Sample.cmap12. split; [|done].
    apply list_elem_of_further, list_elem_of_here.
Defined.

(** C9: when a glyph name of a ligature rule, the first glyph or one of the
    components, is not in the glyph to code point table, the walk over the
    ligatures raises a [KeyError] and returns nothing: no rule is skipped.
    In a run the table is the one filled from the items of the table of
    format 12, so that [create_font] does not return when the glyph is the
    glyph of no item of such a table. *)
Theorem ligature_glyph_without_codepoint_is_fatal
    ttf lookup ligatures name ligs ligature glyph :
  lookup ∈ GSUB_Lookup ttf → ligatures ∈ lookup → (name, ligs) ∈ ligatures →
  ligature ∈ ligs → glyph ∈ name :: Component ligature →
  (∀ self glyph_to_codepoint_map,
     glyph_to_codepoint_map !! glyph = None →
     ∃ key, read_and_clear_gsub self ttf glyph_to_codepoint_map
            = Raise (KeyError key))
  ∧ (∀ self unicode_path android csv,
       (∀ table codepoint, table ∈ cmap_tables ttf → is_cmap12 table = true →
                           (codepoint, glyph) ∉ cmap table) →
       ∃ e, create_font self unicode_path android csv ttf = Raise e).
Proof.
  intros Hlookup Hligatures Hligs Hligature Hglyph.
  assert ((name :: Component ligature, LigGlyph ligature) ∈ ligature_rules ttf)
    as Hrule.
  { apply elem_of_ligature_rules.
    by exists lookup, ligatures, name, ligs, ligature. }
  split.
  - intros self g2c Hnone.
    destruct (read_and_clear_gsub self ttf g2c) as [r|e] eqn:Hwalk.
    + exfalso. revert Hwalk. unfold read_and_clear_gsub.
      rewrite read_and_clear_gsub_rules.
      destruct (for_each_must_raise
                  (fun self rule =>
                     c ← rule_call g2c rule; update_emoji_data self c.1 c.2)
                  (ligature_rules ttf) self _ Hrule) as [e ->]; [|done].
      intros s.
      destruct (rule_call_missing g2c _ (LigGlyph ligature) glyph Hglyph Hnone)
        as [e ->].
      by exists e.
    + apply read_and_clear_gsub_Raise in Hwalk as [key ->]. by exists key.
  - intros self unicode_path android csv Hnone.
    destruct (create_font self unicode_path android csv ttf)
      as [[self' out]|e] eqn:Hrun; [exfalso | by exists e].
    apply create_font_inv in Hrun
      as (m0 & m1 & next & before & table & after & calls
          & _ & _ & (Htables & _ & H12) & Hcalls & _).
    unfold glyph_calls in Hcalls.
    assert (side_table table ∅ !! glyph = None) as Hside.
    { apply eq_None_not_Some. intros [H|[cp H]]%side_table_is_Some.
      - by destruct H.
      - eapply Hnone; [|exact H12|exact H]. rewrite Htables.
        apply elem_of_app. right. by left. }
    destruct (rule_call_missing _ _ (LigGlyph ligature) glyph Hglyph Hside)
      as [e He].
    destruct (comprehension_Raise _ _ _ _ Hrule He) as [e' He'].
    unfold ligature_rules in *. simpl in Hcalls. by rewrite He' in Hcalls.
Qed.

Lemma ligature_glyph_without_codepoint_is_fatal_witness :
  (∃ key, read_and_clear_gsub init Sample.stray_font {[ "gA" := 0x1F1E6 ]}
          = Raise (KeyError key))
  ∧ ∃ e, create_font init Sample.unicode None None Sample.stray_font = Raise e.
Proof.
  destruct (ligature_glyph_without_codepoint_is_fatal Sample.stray_font
              [[("gA", [Sample.stray_ligature])]]
              [("gA", [Sample.stray_ligature])]
              "gA" [Sample.stray_ligature] Sample.stray_ligature "gZ")
    as [Hwalk Hrun]; try apply list_elem_of_here.
  { apply list_elem_of_further, list_elem_of_here. }
  split.
  - apply Hwalk. computed.
  - apply Hrun. intros table cp Htable _ Hcp.
    apply elem_of_cons in Htable as [->|Htable%list_elem_of_singleton].
    + apply list_elem_of_singleton in Hcp. discriminate Hcp.
    + subst table. simpl in Hcp.
      repeat (apply elem_of_cons in Hcp as [Hcp|Hcp]; [discriminate Hcp|]).
      by apply elem_of_nil in Hcp.
Defined.

(** C3, as the claim states it, fails: a second call of [update_emoji_data]
    for an entry that already has an id keeps the id and replaces the width
    and the height by those of the glyph of the second call. *)
Lemma later_call_replaces_metrics :
  update_emoji_data Sample.creator [0x1F600] "g1F600" = Ok Sample.after_first_call
  ∧ update_emoji_data Sample.after_first_call [0x1F600] "gA"
    = Ok Sample.after_second_call
  ∧ emoji_data_map Sample.after_first_call !! "0x1f600"
    = Some {| EmojiData.codepoints := [0x1F600];
              EmojiData.emoji_style := true;
              EmojiData.emoji_id := 0xF0001;
              EmojiData.width := 136;
              EmojiData.height := 128;
              EmojiData.sdk_added := 25;
              EmojiData.compat_added := 1 |}
  ∧ emoji_data_map Sample.after_second_call !! "0x1f600"
    = Some {| EmojiData.codepoints := [0x1F600];
              EmojiData.emoji_style := true;
              EmojiData.emoji_id := 0xF0001;
              EmojiData.width := 68;
              EmojiData.height := 64;
              EmojiData.sdk_added := 25;
              EmojiData.compat_added := 1 |}.
Proof. repeat split; computed. Qed.

(** C3, amended: in a sequence of calls of [update_emoji_data] the first
    writer wins for the id only.  An entry that has an id keeps it through
    all the calls, and an entry without an id that the first call finds
    gets the id which that call hands out and keeps it; the width and the
    height are those of the glyph of the last call that finds the entry. *)
Theorem first_writer_wins_for_id_only self calls self' key e :
  correlate_all self calls = Ok self' →
  emoji_data_map self !! key = Some e →
  ∃ e', emoji_data_map self' !! key = Some e'
    ∧ (EmojiData.emoji_id e ≠ 0 → EmojiData.emoji_id e' = EmojiData.emoji_id e)
    ∧ (∀ codepoints glyph_name calls1,
         calls = (codepoints, glyph_name) :: calls1 →
         codepoint_to_string codepoints = key →
         EmojiData.emoji_id e = 0 → emoji_id self ≠ 0 →
         EmojiData.emoji_id e' = emoji_id self)
    ∧ (∀ calls0 codepoints glyph_name calls1,
         calls = calls0 ++ (codepoints, glyph_name) :: calls1 →
         codepoint_to_string codepoints = key →
         (∀ c, c ∈ calls1 → codepoint_to_string c.1 ≠ key) →
         ∃ m, glyph_to_image_metrics_map self !! glyph_name = Some m
              ∧ EmojiData.width e' = metrics_width m
              ∧ EmojiData.height e' = metrics_height m).
Proof.
  intros Hrun He.
  destruct (correlate_all_keeps _ _ _ _ _ Hrun He) as (e' & He' & Hid).
  exists e'. split; [done|]. split; [done|]. split.
  - intros cps g calls1 -> Hkey Hzero Hnext.
    apply correlate_all_cons in Hrun as (self1 & Hcall & Hrun).
    pose proof (update_emoji_data_Ok _ _ _ _ Hcall) as Hfirst.
    rewrite Hkey, He in Hfirst. destruct Hfirst as (m & _ & Hmap & _).
    assert (emoji_data_map self1 !! key = Some (correlated e m (emoji_id self)))
      as He1 by (by rewrite Hmap, lookup_insert_eq).
    destruct (correlate_all_keeps _ _ _ _ _ Hrun He1) as (e2 & He2 & Hid2).
    rewrite He' in He2. injection He2 as <-.
    rewrite Hid2; rewrite correlated_id, Hzero; done.
  - intros calls0 cps g calls1 -> Hkey Hlast.
    rewrite correlate_all_app in Hrun.
    apply bind_Ok in Hrun as (self0 & Hrun0 & Hrun).
    apply correlate_all_cons in Hrun as (self1 & Hcall & Hrun1).
    destruct (correlate_all_keeps _ _ _ _ _ Hrun0 He) as (e0 & He0 & _).
    pose proof (update_emoji_data_Ok _ _ _ _ Hcall) as Hthis.
    rewrite Hkey, He0 in Hthis. destruct Hthis as (m & Hm & Hmap & _).
    rewrite (correlate_all_metrics _ _ _ Hrun0) in Hm.
    exists m. split; [done|].
    rewrite (correlate_all_other _ _ _ _ Hrun1 Hlast), Hmap,
      lookup_insert_eq in He'.
    injection He' as <-. split; apply correlated_fields.
Qed.

Lemma first_writer_wins_for_id_only_witness :
  ∃ e', emoji_data_map Sample.after_second_call !! "0x1f600" = Some e'
        ∧ EmojiData.emoji_id e' = 0xF0001
        ∧ EmojiData.width e' = 68 ∧ EmojiData.height e' = 64.
Proof.
  destruct (first_writer_wins_for_id_only Sample.creator Sample.two_calls
              Sample.after_second_call "0x1f600" (EmojiData.init [0x1F600] true))
    as (e' & He' & _ & Hfirst & Hlast); [computed | computed |].
  exists e'. split; [done|]. split.
  - by apply (Hfirst [0x1F600] "g1F600" [([0x1F600], "gA")]).
  - assert (∀ c : call, c ∈ [] → codepoint_to_string c.1 ≠ "0x1f600") as Hnone
      by (intros c Hc; exfalso; exact (proj1 (elem_of_nil c) Hc)).
    destruct (Hlast [([0x1F600], "g1F600")] [0x1F600] "gA" []
                eq_refl eq_refl Hnone) as (m & Hm & Hwidth & Hheight).
    assert (glyph_to_image_metrics_map Sample.creator !! "gA"
            = Some {| metrics_width := 68; metrics_height := 64 |}) as Hg
      by computed.
    rewrite Hm in Hg. injection Hg as Hm'. subst m.
    split; [exact Hwidth | exact Hheight].
Defined.

(** C2: [load_previous_metadata] does not return the successor of the
    largest id of the metadata file, as the claim and its own documentation
    say it does.  The largest id of the sample metadata file is 0xF0009, in
    the record of an emoji that the registry does not hold: the next id is
    0xF0008, below an id of the file, and not 0xF000A.  The largest id of a
    file whose one record has the id 1 is 1, the entry of the record gets
    that id, and the next id is 0xF0001 and not 2. *)
Theorem next_id_is_not_past_the_largest_id :
  (["F0009"; "19"; "1"; "1F999"] ∈ Sample.csv
   ∧ snapshot_row ["F0009"; "19"; "1"; "1F999"]
     = Ok (Some (0xF0009, 19, 1, [0x1F999]))
   ∧ Sample.registry !! codepoint_to_string [0x1F999] = None
   ∧ load_previous_metadata Sample.registry (Some Sample.csv)
     = Ok (Sample.reconciled_registry, 0xF0008))
  ∧ (snapshot_row ["1"; "19"; "1"; "1F600"] = Ok (Some (1, 19, 1, [0x1F600]))
     ∧ load_previous_metadata Sample.registry (Some Sample.low_csv)
       = Ok (Sample.low_registry, 0xF0001)
     ∧ EmojiData.emoji_id
         <$> Sample.low_registry !! codepoint_to_string [0x1F600]
       = Some 1).
Proof.
  split.
  - split; [do 3 apply list_elem_of_further; apply list_elem_of_here|].
    repeat split; computed.
  - repeat split; computed.
Qed.

(** C5: the metadata file that a run writes, read by [load_previous_metadata]
    into a fresh registry built from the same Unicode files, is read without
    an error, and every entry of that registry has afterwards the id, the
    [sdk_added] and the [compat_added] that the entry with its key had when
    the file was written, its other fields staying as they were.  The two
    registries have the same keys, so that every id after the reconciliation
    is an id that was written: no id is new. *)
Theorem snapshot_round_trip self unicode_path android csv ttf self' out :
  create_font self unicode_path android csv ttf = Ok (self', out) →
  out_csv out = write_metadata_csv self'
  ∧ ∃ m0 m2 next,
      load_emoji_data_map unicode_path android = Ok m0
      ∧ load_previous_metadata m0 (Some (out_csv out)) = Ok (m2, next)
      ∧ ∀ key,
          match emoji_data_map self' !! key with
          | Some e =>
              ∃ e0 e2, m0 !! key = Some e0 ∧ m2 !! key = Some e2
                ∧ EmojiData.emoji_id e2 = EmojiData.emoji_id e
                ∧ EmojiData.sdk_added e2 = EmojiData.sdk_added e
                ∧ EmojiData.compat_added e2 = EmojiData.compat_added e
                ∧ EmojiData.codepoints e2 = EmojiData.codepoints e0
                ∧ EmojiData.emoji_style e2 = EmojiData.emoji_style e0
                ∧ EmojiData.width e2 = EmojiData.width e0
                ∧ EmojiData.height e2 = EmojiData.height e0
          | None => m0 !! key = None ∧ m2 !! key = None
          end.
Proof.
  intros Hrun.
  pose proof (create_font_inv _ _ _ _ _ _ _ Hrun)
    as (m0 & m1 & next1 & before & table & after & calls & Hload & _ & _ & _
        & _ & _ & _ & _ & Hcsv).
  destruct (create_font_registry _ _ _ _ _ _ _ _ Hrun Hload) as [Hkeyed Hdom].
  destruct (load_written_metadata self' m0 Hkeyed) as (m2 & next & Hread & Hm2).
  split; [done|]. exists m0, m2, next. rewrite Hcsv.
  split; [done|]. split; [done|].
  intros key. specialize (Hm2 key). specialize (Hdom key).
  destruct (emoji_data_map self' !! key) as [e|].
  - destruct (proj1 Hdom) as [e0 He0]; [by eexists|].
    rewrite He0 in Hm2. simpl in Hm2. exists e0, (reconciled e e0).
    split; [done|]. split; [done|]. unfold reconciled. simpl. done.
  - destruct (m0 !! key) as [e0|] eqn:He0; [|done].
    destruct (proj2 Hdom) as [e He]; [by eexists | done].
Qed.

Lemma snapshot_round_trip_witness :
  out_csv Sample.run.2 = write_metadata_csv Sample.run.1
  ∧ ∃ m0 m2 next,
      load_emoji_data_map Sample.unicode None = Ok m0
      ∧ load_previous_metadata m0 (Some (out_csv Sample.run.2)) = Ok (m2, next)
      ∧ ∀ key,
          match emoji_data_map Sample.run.1 !! key with
          | Some e =>
              ∃ e0 e2, m0 !! key = Some e0 ∧ m2 !! key = Some e2
                ∧ EmojiData.emoji_id e2 = EmojiData.emoji_id e
                ∧ EmojiData.sdk_added e2 = EmojiData.sdk_added e
                ∧ EmojiData.compat_added e2 = EmojiData.compat_added e
                ∧ EmojiData.codepoints e2 = EmojiData.codepoints e0
                ∧ EmojiData.emoji_style e2 = EmojiData.emoji_style e0
                ∧ EmojiData.width e2 = EmojiData.width e0
                ∧ EmojiData.height e2 = EmojiData.height e0
          | None => m0 !! key = None ∧ m2 !! key = None
          end.
Proof.
  apply (snapshot_round_trip init Sample.unicode None (Some Sample.csv)
           Sample.font).
  computed.
Defined.


(** Two records of the previous metadata file with one id: the entries of
    0x1F600 and 0x1F601 both get the id 0xF0005, the font has a glyph for
    the first one only, and the item under 0xF0005 is the item of that
    glyph. *)
Lemma shared_id_has_one_item :
  create_font init Sample.unicode None (Some Sample.shared_csv) Sample.font
  = Ok Sample.shared_run
  ∧ EmojiData.emoji_id <$> emoji_data_map Sample.shared_run.1 !! "0x1f600"
    = Some 0xF0005
  ∧ EmojiData.emoji_id <$> emoji_data_map Sample.shared_run.1 !! "0x1f601"
    = Some 0xF0005
  ∧ EmojiData.width <$> emoji_data_map Sample.shared_run.1 !! "0x1f601"
    = Some 0
  ∧ remapped_codepoints Sample.shared_run.1 !! 0xF0005 = Some "g1F600".
Proof. repeat split; computed. Qed.



(** C1, as the claim states it, fails: in the run on the sample inputs the
    font has no glyph for 0x1F602, the entry keeps the id 0, and the entry
    is in both metadata files. *)
Lemma entry_without_id_is_written :
  create_font init Sample.unicode None (Some Sample.csv) Sample.font
  = Ok Sample.run
  ∧ emoji_data_map Sample.run.1 !! "0x1f602"
    = Some (EmojiData.init [0x1F602] true)
  ∧ EmojiData.create_json_element (EmojiData.init [0x1F602] true)
    ∈ j_list (out_json Sample.run.2)
  ∧ out_csv Sample.run.2 !! 1%nat = Some ["0"; "25"; "1"; "1F602"].
Proof.
  split; [computed|]. split; [computed|]. split; [|computed].
  apply list_elem_of_lookup. exists 0%nat. computed.
Qed.

(** C1, amended: the two metadata files hold every entry of the registry,
    those with the id 0 too, in ascending order of the ids; the file for
    the flatbuffer compiler also holds their number.  An entry that no call
    of [update_emoji_data] finds is as the reading of the previous metadata
    left it: its id is 0, or the id of a record of the previous metadata
    file that has the key of the entry; it is written to both files as
    well. *)
Theorem outputs_hold_every_entry self unicode_path android csv ttf self' out :
  create_font self unicode_path android csv ttf = Ok (self', out) →
  (∃ entries,
     entries ≡ₚ (map_to_list (emoji_data_map self')).*2
     ∧ ascending entries
     ∧ out_json out
       = {| j_version := METADATA_VERSION;
            j_list := EmojiData.create_json_element <$> entries |}
     ∧ total_emoji_count out = Z.of_nat (length entries)
     ∧ out_csv out = csv_header :: (EmojiData.create_txt_row <$> entries))
  ∧ ∃ m0 m1 next before table after calls,
      load_emoji_data_map unicode_path android = Ok m0
      ∧ load_previous_metadata m0 csv = Ok (m1, next)
      ∧ first_cmap12 ttf before table after
      ∧ glyph_calls ttf table = Ok calls
      ∧ ∀ key e,
          emoji_data_map self' !! key = Some e →
          (∀ c, c ∈ calls → codepoint_to_string c.1 ≠ key) →
          m1 !! key = Some e
          ∧ (EmojiData.emoji_id e = 0
             ∨ ∃ csvfile, csv = Some csvfile
                          ∧ recorded csvfile key (EmojiData.emoji_id e))
          ∧ EmojiData.create_json_element e ∈ j_list (out_json out)
          ∧ EmojiData.create_txt_row e ∈ out_csv out.
Proof.
  intros (m0 & m1 & next & before & table & after & calls & Hload & Hprev
          & Hfirst & Hcalls & Hrun & _ & Hjson & Htotal & Hcsv)%create_font_inv.
  rewrite write_metadata_json_spec in Hjson, Htotal. simpl in Hjson, Htotal.
  split.
  - exists (emoji_data_list self'). split; [apply emoji_data_list_perm|].
    split; [apply sorted_sorted|]. by rewrite Hcsv.
  - exists m0, m1, next, before, table, after, calls.
    split; [done|]. split; [done|]. split; [done|]. split; [done|].
    intros key e He Hnone.
    rewrite (correlate_all_other _ _ _ _ Hrun Hnone) in He. simpl in He.
    split; [done|]. split.
    + destruct (load_previous_metadata_recorded _ _ _ _ _ _ Hprev He)
        as (e0 & He0 & [Hid|Hid]); [|by right].
      left. rewrite Hid. by apply (load_emoji_data_map_unassigned _ _ _ Hload) in He0.
    + assert (e ∈ emoji_data_list self') as Hin.
      { apply elem_of_emoji_data_list. exists key.
        by rewrite (correlate_all_other _ _ _ _ Hrun Hnone). }
      rewrite Hjson, Hcsv. simpl. split.
      * apply list_elem_of_fmap. eauto.
      * right. apply list_elem_of_fmap. eauto.
Qed.

Lemma outputs_hold_every_entry_witness :
  (∃ entries,
     entries ≡ₚ (map_to_list (emoji_data_map Sample.run.1)).*2
     ∧ ascending entries
     ∧ out_json Sample.run.2
       = {| j_version := METADATA_VERSION;
            j_list := EmojiData.create_json_element <$> entries |}
     ∧ total_emoji_count Sample.run.2 = Z.of_nat (length entries)
     ∧ out_csv Sample.run.2
       = csv_header :: (EmojiData.create_txt_row <$> entries))
  ∧ ∃ m0 m1 next before table after calls,
      load_emoji_data_map Sample.unicode None = Ok m0
      ∧ load_previous_metadata m0 (Some Sample.csv) = Ok (m1, next)
      ∧ first_cmap12 Sample.font before table after
      ∧ glyph_calls Sample.font table = Ok calls
      ∧ ∀ key e,
          emoji_data_map Sample.run.1 !! key = Some e →
          (∀ c, c ∈ calls → codepoint_to_string c.1 ≠ key) →
          m1 !! key = Some e
          ∧ (EmojiData.emoji_id e = 0
             ∨ ∃ csvfile, Some Sample.csv = Some csvfile
                          ∧ recorded csvfile key (EmojiData.emoji_id e))
          ∧ EmojiData.create_json_element e ∈ j_list (out_json Sample.run.2)
          ∧ EmojiData.create_txt_row e ∈ out_csv Sample.run.2.
Proof.
  apply (outputs_hold_every_entry init Sample.unicode None (Some Sample.csv)
           Sample.font).
  computed.
Defined.

(** * Further properties of the script *)

(** X1: the key of a sequence of code points determines the sequence: two
    sequences have the same key exactly when they are the same sequence. *)
Theorem identity_key_unique (codepoints1 codepoints2 : list Z) :
  codepoint_to_string codepoints1 = codepoint_to_string codepoints2
  ↔ codepoints1 = codepoints2.
Proof. split; [apply codepoint_to_string_inj | by intros ->]. Qed.

Lemma digit_value_lt c d : Py.digit_value c = Some d → (d < 16)%N.
Proof.
  destruct c as [[] [] [] [] [] [] [] []]; vm_compute; intros [= <-]; done.
Qed.

Lemma parse_digits_L s acc :
  all_chars is_digit s → Py.parse_digits 16 acc (s +:+ "L") = None.
Proof.
  revert acc; induction s as [|c s IH]; intros acc; [done|].
  intros [[d Hd] Hs]. rewrite append_cons. cbn [Py.parse_digits]. rewrite Hd.
  apply digit_value_lt, N.ltb_lt in Hd as ->. by apply IH.
Qed.

(** The key of a code point beyond the machine range cannot be read back:
    the [L] at its end is no digit. *)
Lemma int_hex_long z :
  Py.is_long z = true →
  Py.int (Py.hex z) 16 = Raise (ValueError "invalid literal for int()").
Proof.
  intros Hz. rewrite hex_long by done. unfold Py.int, Py.render.
  assert (all_chars is_digit (Py.digits 16 false (Z.abs_N z))) as Hd
    by (apply digits_digits; lia).
  assert (all_chars not_space
            ("0x" +:+ Py.digits 16 false (Z.abs_N z) +:+ "L")) as Hs.
  { rewrite !append_cons, append_nil. repeat split; try done.
    apply all_chars_app. split; [by apply digits_not_space | by repeat split]. }
  rewrite !append_cons, append_nil in Hs.
  destruct (Z.ltb_spec z 0) as [Hz0|Hz0];
    rewrite ?append_cons, ?append_nil, ?append_assoc, ?append_cons, ?append_nil.
  - rewrite strip_id by (by split). simpl. rewrite parse_digits_L by done.
    by destruct (Py.digits 16 false (Z.abs_N z) +:+ "L").
  - rewrite strip_id by done. simpl. rewrite parse_digits_L by done.
    by destruct (Py.digits 16 false (Z.abs_N z) +:+ "L").
Qed.

(** X2: what [to_hex] writes, [hex_str_to_int] reads back, for every
    integer, negative ones too.  The key of a single code point within the
    machine range reads back as well; beyond that range [hex] ends the key
    with an [L], and [hex_str_to_int] raises on it. *)
Theorem to_hex_round_trip (value : Z) :
  hex_str_to_int (to_hex value) = Ok value
  ∧ (- Py.maxint - 1 ≤ value ≤ Py.maxint →
     hex_str_to_int (codepoint_to_string [value]) = Ok value)
  ∧ (value < - Py.maxint - 1 ∨ Py.maxint < value →
     hex_str_to_int (codepoint_to_string [value])
     = Raise (ValueError "invalid literal for int()")).
Proof.
  split; [apply hex_str_to_int_to_hex|]. split.
  - intros Hvalue. apply int_hex. unfold Py.is_long.
    apply orb_false_intro; apply Z.ltb_ge; lia.
  - intros Hvalue. apply int_hex_long. unfold Py.is_long.
    apply orb_true_iff. destruct Hvalue; [left | right]; by apply Z.ltb_lt.
Qed.

(** X3: every entry of the registry that [load_emoji_data_map] returns is
    stored under the key of its own code points and is as the constructor
    leaves an entry: id 0, width 0, height 0, [sdk_added] 25 and
    [compat_added] 1. *)
Theorem loaded_registry_is_fresh unicode_path android (m : emoji_map) key e :
  load_emoji_data_map unicode_path android = Ok m →
  m !! key = Some e →
  key = codepoint_to_string (EmojiData.codepoints e)
  ∧ EmojiData.emoji_id e = 0
  ∧ EmojiData.width e = 0 ∧ EmojiData.height e = 0
  ∧ EmojiData.sdk_added e = SDK_VERSION
  ∧ EmojiData.compat_added e = METADATA_VERSION.
Proof.
  intros Hload He.
  pose proof (load_emoji_data_map_keyed _ _ _ Hload _ _ He) as Hkey.
  split; [done|].
  assert (map_Forall (fun _ e => untouched e) m) as Hfresh.
  { assert (∀ (m m' : emoji_map) file,
              map_Forall (fun _ e => untouched e) m →
              read_emoji_sequences m file = Ok m' →
              map_Forall (fun _ e => untouched e) m') as Hseq.
    { intros m1 m' file Hm1.
      apply (for_each_invariant _ (map_Forall (fun _ e => untouched e)));
        [|done].
      intros line m2 m3 _ Hm2 (cps & _ & [[_ ->]|[_ ->]])%add_sequence_inv;
        [|done].
      by apply map_Forall_insert_2. }
    apply load_emoji_data_map_inv in Hload as (m1 & m2 & m3 & H1 & H2 & H3 & H4).
    assert (map_Forall (fun _ e => untouched e) m1) as Hm1.
    { revert H1.
      apply (for_each_invariant _ (map_Forall (fun _ e => untouched e)));
        [|apply map_Forall_empty].
      intros line m4 m5 _ Hm4 H. apply bind_Ok in H as ([cps style] & _ & H).
      injection H as <-. revert m4 Hm4.
      induction cps as [|cp cps IH]; intros m4 Hm4; simpl; [done|].
      apply IH. unfold add_interval_codepoint.
      destruct (m4 !! codepoint_to_string [cp]) as [e4|] eqn:He4.
      - destruct (style || _); [|done].
        apply map_Forall_insert_2; [|done].
        apply Hm4 in He4. unfold untouched in *. simpl. by rewrite He4.
      - by apply map_Forall_insert_2. }
    destruct android; [|subst]; eauto. }
  apply Hfresh in He. by rewrite He.
Qed.

Lemma loaded_registry_is_fresh_witness :
  "0x2764" = codepoint_to_string
               (EmojiData.codepoints (EmojiData.init [0x2764] true))
  ∧ EmojiData.emoji_id (EmojiData.init [0x2764] true) = 0
  ∧ EmojiData.width (EmojiData.init [0x2764] true) = 0
  ∧ EmojiData.height (EmojiData.init [0x2764] true) = 0
  ∧ EmojiData.sdk_added (EmojiData.init [0x2764] true) = SDK_VERSION
  ∧ EmojiData.compat_added (EmojiData.init [0x2764] true) = METADATA_VERSION.
Proof.
  apply (loaded_registry_is_fresh Sample.unicode None Sample.registry).
  - computed.
  - computed.
Defined.

(** X4: an entry that [read_emoji_sequences] adds to the registry comes from
    a line of the file: its code points are those of the line without
    0xFE0F, it is stored under their key, and it never holds 0xFE0F. *)
Theorem sequence_entries_come_from_lines (m : emoji_map) file m' key e :
  read_emoji_sequences m file = Ok m' →
  m' !! key = Some e → m !! key = None →
  (EMOJI_STYLE_VS ∉ EmojiData.codepoints e)
  ∧ key = codepoint_to_string (EmojiData.codepoints e)
  ∧ ∃ line codepoints,
      line ∈ read_emoji_lines file
      ∧ sequence_line line = Ok codepoints
      ∧ e = EmojiData.init
              (filter (fun x => x ≠ EMOJI_STYLE_VS) codepoints) false.
Proof.
  intros H He Hnew.
  assert (∃ line codepoints,
            line ∈ read_emoji_lines file
            ∧ sequence_line line = Ok codepoints
            ∧ key = codepoint_to_string (sequence_codepoints codepoints)
            ∧ e = EmojiData.init (sequence_codepoints codepoints) false)
    as (line & cps & Hline & Hparse & -> & ->).
  { revert key e He Hnew. revert H.
    apply (for_each_invariant add_sequence
             (fun m1 => ∀ key e, m1 !! key = Some e → m !! key = None →
                ∃ line codepoints,
                  line ∈ read_emoji_lines file
                  ∧ sequence_line line = Ok codepoints
                  ∧ key = codepoint_to_string (sequence_codepoints codepoints)
                  ∧ e = EmojiData.init (sequence_codepoints codepoints) false)).
    - intros line m1 m2 Hline Hinv
        (cps & Hparse & [[_ ->]|[_ ->]])%add_sequence_inv; [|done].
      intros key e [[<- <-]|[_ He]]%lookup_insert_Some Hnew; [|eauto].
      by exists line, cps.
    - intros key e He Hnew. by rewrite Hnew in He. }
  simpl. split; [|split; [done|by exists line, cps]].
  unfold sequence_codepoints. rewrite list_elem_of_filter. tauto.
Qed.

Lemma sequence_entries_come_from_lines_witness :
  (EMOJI_STYLE_VS ∉ EmojiData.codepoints (EmojiData.init [0x1F1E6; 0x1F1E8] false))
  ∧ "0x1f1e6 0x1f1e8"
    = codepoint_to_string
        (EmojiData.codepoints (EmojiData.init [0x1F1E6; 0x1F1E8] false))
  ∧ ∃ line codepoints,
      line ∈ read_emoji_lines (EMOJI_SEQ_FILE Sample.unicode)
      ∧ sequence_line line = Ok codepoints
      ∧ EmojiData.init [0x1F1E6; 0x1F1E8] false
        = EmojiData.init
            (filter (fun x => x ≠ EMOJI_STYLE_VS) codepoints) false.
Proof.
  apply (sequence_entries_come_from_lines Sample.interval_registry
           (EMOJI_SEQ_FILE Sample.unicode) Sample.sequence_registry).
  - computed.
  - computed.
  - computed.
Defined.

(** X5: the registry that [read_emoji_intervals] builds from nothing holds
    one entry for every code point that a line of the file names and no
    other entry; the entry of a code point holds that code point alone, and
    its emoji style flag is true exactly when a line with the presentation
    property names the code point or the code point is one of the
    exceptions. *)
Theorem interval_registry_is_exact file (m : emoji_map) :
  read_emoji_intervals ∅ file = Ok m →
  (∀ codepoint, interval_names file codepoint →
                is_Some (m !! codepoint_to_string [codepoint]))
  ∧ ∀ key e,
      m !! key = Some e →
      ∃ codepoint,
        key = codepoint_to_string [codepoint]
        ∧ EmojiData.codepoints e = [codepoint]
        ∧ interval_names file codepoint
        ∧ (EmojiData.emoji_style e = true
           ↔ interval_presents file codepoint
             ∨ codepoint ∈ EMOJI_STYLE_EXCEPTIONS).
Proof.
  intros H.
  assert (∀ (style : bool) cps (m1 : emoji_map) cp,
            cp ∈ cps →
            is_Some (foldl (add_interval_codepoint style) m1 cps
                       !! codepoint_to_string [cp])) as Hadds.
  { intros style cps. induction cps as [|cp' cps IH]; intros m1 cp Hcp.
    - exfalso. exact (proj1 (elem_of_nil cp) Hcp).
    - simpl. apply elem_of_cons in Hcp as [<-|Hcp]; [|by apply IH].
      assert (∀ (m2 : emoji_map) key,
                is_Some (m2 !! key) →
                is_Some (foldl (add_interval_codepoint style) m2 cps !! key))
        as Hkeep.
      { clear. induction cps as [|c cps IH]; intros m2 key Hkey; simpl; [done|].
        apply IH. unfold add_interval_codepoint.
        destruct (m2 !! codepoint_to_string [c]) as [e2|] eqn:He2.
        - destruct (style || _); [|done].
          destruct (decide (codepoint_to_string [c] = key)) as [<-|];
            [by rewrite lookup_insert_eq | by rewrite lookup_insert_ne].
        - destruct (decide (codepoint_to_string [c] = key)) as [<-|];
            [by rewrite lookup_insert_eq | by rewrite lookup_insert_ne]. }
      apply Hkeep. unfold add_interval_codepoint.
      destruct (m1 !! codepoint_to_string [cp]) as [e1|] eqn:He1.
      + destruct (style || _); [by rewrite lookup_insert_eq | by rewrite He1].
      + by rewrite lookup_insert_eq. }
  split.
  - intros cp (line & cps & style & Hline & Hparse & Hcp).
    revert line Hline Hparse. unfold read_emoji_intervals in H.
    eapply (for_each_post _
              (fun line m => interval_line line = Ok (cps, style) →
                             is_Some (m !! codepoint_to_string [cp])));
      [| |exact H].
    + intros l m1 m2 _ Hbody Hl. cbv beta in Hbody. rewrite Hl in Hbody.
      injection Hbody as <-. by apply Hadds.
    + intros l1 l2 m1 m2 _ _ HQ Hbody Hl. specialize (HQ Hl).
      apply bind_Ok in Hbody as ([cps' style'] & _ & [= <-]).
      clear -HQ. revert m1 HQ.
      induction cps' as [|c cps' IH]; intros m1 HQ; simpl; [done|].
      apply IH. unfold add_interval_codepoint.
      destruct (m1 !! codepoint_to_string [c]) as [e1|] eqn:He1.
      * destruct (style' || _); [|done].
        destruct (decide (codepoint_to_string [c] = codepoint_to_string [cp]))
          as [<-|]; [by rewrite lookup_insert_eq | by rewrite lookup_insert_ne].
      * destruct (decide (codepoint_to_string [c] = codepoint_to_string [cp]))
          as [<-|]; [by rewrite lookup_insert_eq | by rewrite lookup_insert_ne].
  - intros key e He.
    assert (∃ cp, key = codepoint_to_string [cp]
                  ∧ EmojiData.codepoints e = [cp]
                  ∧ interval_names file cp
                  ∧ (EmojiData.emoji_style e = true
                     → interval_presents file cp
                       ∨ cp ∈ EMOJI_STYLE_EXCEPTIONS))
      as (cp & -> & Hcps & Hn & Hs).
    { revert key e He. revert H. unfold read_emoji_intervals.
      apply (for_each_invariant _
               (fun m1 : emoji_map => ∀ key e, m1 !! key = Some e →
                  ∃ cp, key = codepoint_to_string [cp]
                        ∧ EmojiData.codepoints e = [cp]
                        ∧ interval_names file cp
                        ∧ (EmojiData.emoji_style e = true
                           → interval_presents file cp
                             ∨ cp ∈ EMOJI_STYLE_EXCEPTIONS))).
      + intros line m1 m2 Hline Hinv Hbody.
        apply bind_Ok in Hbody as ([cps style] & Hparse & [= <-]).
        assert (∀ c, c ∈ cps → interval_names file c) as Hnames
          by (intros c Hc; by exists line, cps, style).
        assert (style = true → ∀ c, c ∈ cps → interval_presents file c) as Hpres
          by (intros -> c Hc; by exists line, cps).
        clear Hparse Hline. revert m1 Hinv.
        induction cps as [|c cps IH]; intros m1 Hinv; simpl; [done|].
        apply IH.
        { intros c' Hc'. apply Hnames. by right. }
        { intros Hs c' Hc'. apply Hpres; [done | by right]. }
        unfold add_interval_codepoint.
        assert (style || bool_decide (c ∈ EMOJI_STYLE_EXCEPTIONS) = true →
                interval_presents file c ∨ c ∈ EMOJI_STYLE_EXCEPTIONS) as Hstyle.
        { intros [Hs|Hs%bool_decide_eq_true_1]%orb_true_iff; [|by right].
          left. apply Hpres; [done | by left]. }
        destruct (m1 !! codepoint_to_string [c]) as [e1|] eqn:He1.
        * destruct (style || bool_decide (c ∈ EMOJI_STYLE_EXCEPTIONS)) eqn:Hs;
            [|done].
          intros key e' [[<- <-]|[_ He']]%lookup_insert_Some; [|eauto].
          destruct (Hinv _ _ He1) as (cp & Hkey & Hcps & Hn & _).
          apply codepoint_to_string_inj in Hkey. injection Hkey as <-.
          exists c. simpl. by auto.
        * intros key e' [[<- <-]|[_ He']]%lookup_insert_Some; [|eauto].
          exists c. simpl. split; [done|]. split; [done|].
          split; [apply Hnames; by left | done].
      + intros key e' He'. by rewrite lookup_empty in He'. }
    exists cp. split; [done|]. split; [done|]. split; [done|].
    split; [done|]. intros Hor.
    assert (styled (codepoint_to_string [cp]) m) as (e' & He' & Hs').
    { destruct Hor as [(line & cps & Hline & Hparse & Hcp)|Hexc].
      - eapply read_emoji_intervals_styled; eauto.
      - destruct Hn as (line & cps & style & Hline & Hparse & Hcp).
        eapply read_emoji_intervals_styled; eauto. }
    rewrite He in He'. by injection He' as <-.
Qed.

Lemma interval_registry_is_exact_witness :
  (∀ codepoint, interval_names (EMOJI_DATA_FILE Sample.unicode) codepoint →
                is_Some (Sample.interval_registry
                           !! codepoint_to_string [codepoint]))
  ∧ ∀ key e,
      Sample.interval_registry !! key = Some e →
      ∃ codepoint,
        key = codepoint_to_string [codepoint]
        ∧ EmojiData.codepoints e = [codepoint]
        ∧ interval_names (EMOJI_DATA_FILE Sample.unicode) codepoint
        ∧ (EmojiData.emoji_style e = true
           ↔ interval_presents (EMOJI_DATA_FILE Sample.unicode) codepoint
             ∨ codepoint ∈ EMOJI_STYLE_EXCEPTIONS).
Proof.
  apply (interval_registry_is_exact (EMOJI_DATA_FILE Sample.unicode)).
  computed.
Defined.

(** ** Reading the previous metadata *)

Lemma update_same_emoji x y id sdk_added compat_added :
  same_emoji x y →
  EmojiData.update x id sdk_added compat_added
  = EmojiData.update y id sdk_added compat_added.
Proof.
  intros (Hc & Hs & Hw & Hh). unfold EmojiData.update.
  by rewrite Hc, Hs, Hw, Hh.
Qed.

Lemma same_emoji_update e id sdk_added compat_added :
  same_emoji e (EmojiData.update e id sdk_added compat_added).
Proof. done. Qed.

Lemma same_emoji_trans x y z : same_emoji x y → same_emoji y z → same_emoji x z.
Proof.
  intros (Hc & Hs & Hw & Hh) (Hc' & Hs' & Hw' & Hh'). unfold same_emoji.
  by rewrite Hc', Hs', Hw', Hh'.
Qed.

(** What a row does to the entry under a key. *)
Lemma load_previous_row_effect (m : emoji_map) cur row m' cur' key :
  load_previous_row (m, cur) row = Ok (m', cur') →
  m' !! key = m !! key
  ∨ ∃ id sdk_added compat_added codepoints,
      snapshot_row row = Ok (Some (id, sdk_added, compat_added, codepoints))
      ∧ codepoint_to_string codepoints = key
      ∧ m' !! key
        = (fun e => EmojiData.update e id sdk_added compat_added) <$> m !! key.
Proof.
  intros (r & Hr & H)%load_previous_row_Ok.
  destruct r as [[[[id sdk] compat] cps]|]; [|left; by destruct H as [-> _]].
  destruct (m !! codepoint_to_string cps) as [e|] eqn:He;
    destruct H as [-> _]; [|by left].
  destruct (decide (codepoint_to_string cps = key)) as [<-|Hne].
  - right. exists id, sdk, compat, cps. split; [done|]. split; [done|].
    by rewrite lookup_insert_eq, He.
  - left. by rewrite lookup_insert_ne.
Qed.

Lemma load_previous_rows_same_emojis rows (m : emoji_map) cur m' next :
  for_each load_previous_row rows (m, cur) = Ok (m', next) → same_emojis m m'.
Proof.
  intros H.
  apply (for_each_invariant load_previous_row (fun st => same_emojis m st.1)
           rows (m, cur) (m', next)); [| |done].
  - intros row [m1 cur1] [m2 cur2] _ Hinv Hrow key. simpl in *.
    specialize (Hinv key).
    destruct (load_previous_row_effect _ _ _ _ _ key Hrow)
      as [->|(id & sdk & compat & cps & _ & _ & ->)]; [done|].
    destruct (m !! key) as [x|], (m1 !! key) as [y|]; simpl;
      first [done | eapply same_emoji_trans;
                      [exact Hinv | apply same_emoji_update]].
  - intros key. simpl. by destruct (m !! key).
Qed.

(** X6: reading the previous metadata adds no entry to the registry and
    removes none, and it leaves the code points, the emoji style flag, the
    width and the height of every entry as they are: only the id and the two
    versions of an entry can change. *)
Theorem reconciliation_keeps_the_emojis (m : emoji_map) csv m' next :
  load_previous_metadata m csv = Ok (m', next) →
  ∀ key,
    match m !! key with
    | Some e =>
        ∃ e', m' !! key = Some e'
              ∧ EmojiData.codepoints e' = EmojiData.codepoints e
              ∧ EmojiData.emoji_style e' = EmojiData.emoji_style e
              ∧ EmojiData.width e' = EmojiData.width e
              ∧ EmojiData.height e' = EmojiData.height e
    | None => m' !! key = None
    end.
Proof.
  unfold load_previous_metadata. intros H key.
  assert (same_emojis m m') as Hsame.
  { destruct csv as [csvfile|].
    - by eapply load_previous_rows_same_emojis.
    - injection H as <- _. intros k. by destruct (m !! k). }
  specialize (Hsame key).
  destruct (m !! key) as [e|], (m' !! key) as [e'|]; try done.
  by exists e'.
Qed.

Lemma reconciliation_keeps_the_emojis_witness :
  match Sample.registry !! "0x1f600" with
  | Some e =>
      ∃ e', Sample.reconciled_registry !! "0x1f600" = Some e'
            ∧ EmojiData.codepoints e' = EmojiData.codepoints e
            ∧ EmojiData.emoji_style e' = EmojiData.emoji_style e
            ∧ EmojiData.width e' = EmojiData.width e
            ∧ EmojiData.height e' = EmojiData.height e
  | None => Sample.reconciled_registry !! "0x1f600" = None
  end.
Proof.
  apply (reconciliation_keeps_the_emojis Sample.registry (Some Sample.csv)
           Sample.reconciled_registry 0xF0008).
  computed.
Defined.

Lemma load_previous_rows_unnamed rows (m : emoji_map) cur m' next key :
  for_each load_previous_row rows (m, cur) = Ok (m', next) →
  unnamed_by rows key → m' !! key = m !! key.
Proof.
  intros H Hun.
  apply (for_each_invariant load_previous_row
           (fun st => st.1 !! key = m !! key) rows (m, cur) (m', next));
    [|done|done].
  intros row [m1 cur1] [m2 cur2] Hrow <- Hstep. simpl.
  destruct (load_previous_row_effect _ _ _ _ _ key Hstep)
    as [->|(id & sdk & compat & cps & Hr & Hkey & _)]; [done|].
  by destruct (Hun _ _ _ _ _ Hrow Hr).
Qed.

Lemma load_previous_rows_last (m : emoji_map) rows0 row rows1 m' next
    id sdk_added compat_added codepoints :
  load_previous_metadata m (Some (rows0 ++ row :: rows1)) = Ok (m', next) →
  snapshot_row row = Ok (Some (id, sdk_added, compat_added, codepoints)) →
  unnamed_by rows1 (codepoint_to_string codepoints) →
  m' !! codepoint_to_string codepoints
  = (fun e => EmojiData.update e id sdk_added compat_added)
      <$> m !! codepoint_to_string codepoints
  ∧ ∀ key, unnamed_by (rows0 ++ row :: rows1) key → m' !! key = m !! key.
Proof.
  unfold load_previous_metadata. intros H Hrow Hlast. split.
  - rewrite for_each_app in H. apply bind_Ok in H as ([m0 cur0] & H0 & H).
    simpl in H. apply bind_Ok in H as ([m1 cur1] & H1 & H).
    rewrite (load_previous_rows_unnamed _ _ _ _ _ _ H Hlast).
    pose proof (load_previous_rows_same_emojis _ _ _ _ _ H0
                  (codepoint_to_string codepoints)) as Hsame.
    apply load_previous_row_Ok in H1 as (r & Hr & Hcase).
    rewrite Hrow in Hr. injection Hr as <-.
    destruct (m0 !! codepoint_to_string codepoints) as [e0|] eqn:He0;
      destruct Hcase as [-> _].
    + rewrite lookup_insert_eq.
      destruct (m !! codepoint_to_string codepoints) as [e|]; [|done].
      simpl. f_equal. symmetry. by apply update_same_emoji.
    + rewrite He0. by destruct (m !! codepoint_to_string codepoints).
  - intros key Hun. by eapply load_previous_rows_unnamed.
Qed.

(** X7: when several records of the previous metadata file have the same
    key, the last one wins: the entry with that key has afterwards the id and
    the two versions of the last record with its key, and its code points,
    emoji style flag, width and height are as they were; no entry appears
    under a key that had none.  An entry whose key no record has is left as
    it is. *)
Theorem last_record_wins (m : emoji_map) rows0 row rows1 m' next
    id sdk_added compat_added codepoints :
  load_previous_metadata m (Some (rows0 ++ row :: rows1)) = Ok (m', next) →
  snapshot_row row = Ok (Some (id, sdk_added, compat_added, codepoints)) →
  unnamed_by rows1 (codepoint_to_string codepoints) →
  match m !! codepoint_to_string codepoints with
  | Some e =>
      ∃ e', m' !! codepoint_to_string codepoints = Some e'
            ∧ EmojiData.emoji_id e' = id
            ∧ EmojiData.sdk_added e' = sdk_added
            ∧ EmojiData.compat_added e' = compat_added
            ∧ EmojiData.codepoints e' = EmojiData.codepoints e
            ∧ EmojiData.emoji_style e' = EmojiData.emoji_style e
            ∧ EmojiData.width e' = EmojiData.width e
            ∧ EmojiData.height e' = EmojiData.height e
  | None => m' !! codepoint_to_string codepoints = None
  end
  ∧ ∀ key, unnamed_by (rows0 ++ row :: rows1) key → m' !! key = m !! key.
Proof.
  intros H Hrow Hlast.
  destruct (load_previous_rows_last _ _ _ _ _ _ _ _ _ _ H Hrow Hlast)
    as [Hkey Hother].
  split; [|done]. rewrite Hkey.
  destruct (m !! codepoint_to_string codepoints) as [e|]; [|done].
  simpl. by eexists.
Qed.

Lemma last_record_wins_witness :
  match Sample.registry !! codepoint_to_string [0x1F600] with
  | Some e =>
      ∃ e', Sample.reconciled_registry !! codepoint_to_string [0x1F600] = Some e'
            ∧ EmojiData.emoji_id e' = 0xF0005
            ∧ EmojiData.sdk_added e' = 19
            ∧ EmojiData.compat_added e' = 1
            ∧ EmojiData.codepoints e' = EmojiData.codepoints e
            ∧ EmojiData.emoji_style e' = EmojiData.emoji_style e
            ∧ EmojiData.width e' = EmojiData.width e
            ∧ EmojiData.height e' = EmojiData.height e
  | None => Sample.reconciled_registry !! codepoint_to_string [0x1F600] = None
  end
  ∧ ∀ key, unnamed_by Sample.csv key →
           Sample.reconciled_registry !! key = Sample.registry !! key.
Proof.
  apply (last_record_wins Sample.registry
           [["#id"; "sdkAdded"; "compatAdded"; "codepoints"]]
           ["F0005"; "19"; "1"; "1F600"]
           [["F0007"; "19"; "1"; "1F601"]; ["F0009"; "19"; "1"; "1F999"]]
           Sample.reconciled_registry 0xF0008).
  - computed.
  - computed.
  - intros row id sdk compat cps Hin Hrow.
    apply elem_of_cons in Hin as [->|Hin];
      [|apply list_elem_of_singleton in Hin as ->];
      vm_compute in Hrow; injection Hrow as _ _ _ <-; vm_compute;
      discriminate.
Defined.

Lemma load_previous_rows_agree rows (a b : emoji_map) cur a' next :
  same_emojis a b →
  for_each load_previous_row rows (a, cur) = Ok (a', next) →
  ∃ b', for_each load_previous_row rows (b, cur) = Ok (b', next)
        ∧ ∀ key, a' !! key = b' !! key
                 ∨ (a' !! key = a !! key ∧ b' !! key = b !! key).
Proof.
  revert a b cur; induction rows as [|row rows IH]; intros a b cur Hab H.
  - injection H as <- <-. exists b. split; [done|]. intros key. by right.
  - simpl in H. apply bind_Ok in H as ([a1 cur1] & Hrow & H).
    assert (∃ b1, load_previous_row (b, cur) row = Ok (b1, cur1)
                  ∧ same_emojis a1 b1
                  ∧ ∀ key, a1 !! key = b1 !! key
                           ∨ (a1 !! key = a !! key ∧ b1 !! key = b !! key))
      as (b1 & Hrowb & Hab1 & Hone).
    { apply load_previous_row_Ok in Hrow as (r & Hr & Hcase).
      unfold load_previous_row. rewrite Hr. simpl.
      destruct r as [[[[id sdk] compat] cps]|].
      - pose proof (Hab (codepoint_to_string cps)) as Hk.
        destruct (a !! codepoint_to_string cps) as [x|] eqn:Hx,
                 (b !! codepoint_to_string cps) as [y|] eqn:Hy; try done.
        + destruct Hcase as [-> ->]. eexists. split; [done|].
          rewrite (update_same_emoji x y) by done. split.
          * intros key. destruct (decide (codepoint_to_string cps = key)) as [<-|].
            -- by rewrite !lookup_insert_eq.
            -- rewrite !lookup_insert_ne by done. apply Hab.
          * intros key. destruct (decide (codepoint_to_string cps = key)) as [<-|].
            -- left. by rewrite !lookup_insert_eq.
            -- right. by rewrite !lookup_insert_ne.
        + destruct Hcase as [-> ->]. exists b. split; [done|].
          split; [done|]. intros key. by right.
      - destruct Hcase as [-> ->]. exists b. split; [done|].
        split; [done|]. intros key. by right. }
    destruct (IH _ _ _ Hab1 H) as (b' & Hrows & Hall).
    exists b'. cbn [for_each]. rewrite Hrowb. split; [done|].
    intros key. destruct (Hall key) as [Heq|[Ha Hb]]; [by left|].
    destruct (Hone key) as [Heq1|[Ha1 Hb1]].
    + left. by rewrite Ha, Hb.
    + right. by rewrite Ha, Hb.
Qed.

(** X8: reading the previous metadata a second time changes nothing: the
    registry and the next id that a first reading returns are what a reading
    of the same file into the registry it returned returns again. *)
Theorem reconciliation_is_idempotent (m : emoji_map) csv m' next :
  load_previous_metadata m csv = Ok (m', next) →
  load_previous_metadata m' csv = Ok (m', next).
Proof.
  unfold load_previous_metadata. destruct csv as [csvfile|];
    [|by intros [= <- <-]].
  intros H.
  destruct (load_previous_rows_agree csvfile m m' DEFAULT_EMOJI_ID m' next)
    as (b' & Hb & Hall); [by eapply load_previous_rows_same_emojis | done |].
  rewrite Hb. do 2 f_equal. apply map_eq. intros key.
  destruct (Hall key) as [Heq|[_ Hb']]; done.
Qed.

Lemma reconciliation_is_idempotent_witness :
  load_previous_metadata Sample.reconciled_registry (Some Sample.csv)
  = Ok (Sample.reconciled_registry, 0xF0008).
Proof.
  apply (reconciliation_is_idempotent Sample.registry). computed.
Defined.

(** ** The ids that a run hands out *)

(** X9: the ids that a run hands out are new.  The next id of the creator
    never decreases and stays above every id of the registry; an entry keeps
    the id that the previous metadata gave it, and an entry without an id
    either stays without one or gets an id between the next id that
    [load_previous_metadata] returned and the next id at the end.  When no
    two entries share an id after the previous metadata is read, as on a
    first run, no two entries share an id at the end. *)
Theorem handed_out_ids_are_new unicode_path android csv ttf self' out :
  create_font init unicode_path android csv ttf = Ok (self', out) →
  ∃ m0 m1 next,
    load_emoji_data_map unicode_path android = Ok m0
    ∧ load_previous_metadata m0 csv = Ok (m1, next)
    ∧ next ≤ emoji_id self'
    ∧ ids_below self'
    ∧ (∀ key e e', m1 !! key = Some e → emoji_data_map self' !! key = Some e' →
                   id_kept_or_new next (emoji_id self') e e')
    ∧ (ids_unique m1 → ids_unique (emoji_data_map self'))
    ∧ (csv = None → ids_unique (emoji_data_map self')).
Proof.
  intros (m0 & m1 & next & before & table & after & calls & Hload & Hprev
          & _ & _ & Hrun & _)%create_font_inv.
  exists m0, m1, next. split; [done|]. split; [done|].
  pose proof (load_previous_metadata_next _ _ _ _ Hprev) as Hnext.
  pose proof (load_emoji_data_map_unassigned _ _ _ Hload) as Hzero.
  assert (∀ key e, m1 !! key = Some e → EmojiData.emoji_id e < next) as Hbelow.
  { intros key e He.
    destruct (load_previous_metadata_id _ _ _ _ _ _ Hprev He)
      as (e0 & He0 & [Hid|(csvfile & -> & Hid)]).
    - rewrite Hid, (Hzero _ _ He0). unfold DEFAULT_EMOJI_ID in Hnext. lia.
    - unfold load_previous_metadata in Hprev.
      destruct (load_previous_rows_next m0 csvfile m0 _ _ _ ltac:(done) Hprev)
        as (_ & Hub & _).
      apply Hub in Hid. lia. }
  assert (0 < next) as Hpos by (unfold DEFAULT_EMOJI_ID in Hnext; lia).
  destruct (correlate_all_ids _ _ _ Hrun Hpos Hbelow)
    as (Hbelow' & Hle & Hids & Hunique).
  simpl in *. split; [done|]. split; [done|]. split; [done|]. split; [done|].
  intros ->. apply Hunique. injection Hprev as <- _.
  intros k1 k2 e1 e2 H1 _ _ Hne. by rewrite (Hzero _ _ H1) in Hne.
Qed.

Lemma handed_out_ids_are_new_witness :
  ∃ m0 m1 next,
    load_emoji_data_map Sample.unicode None = Ok m0
    ∧ load_previous_metadata m0 (Some Sample.csv) = Ok (m1, next)
    ∧ next ≤ emoji_id Sample.run.1
    ∧ ids_below Sample.run.1
    ∧ (∀ key e e', m1 !! key = Some e →
                   emoji_data_map Sample.run.1 !! key = Some e' →
                   id_kept_or_new next (emoji_id Sample.run.1) e e')
    ∧ (ids_unique m1 → ids_unique (emoji_data_map Sample.run.1))
    ∧ (Some Sample.csv = None → ids_unique (emoji_data_map Sample.run.1)).
Proof.
  apply (handed_out_ids_are_new Sample.unicode None (Some Sample.csv)
           Sample.font Sample.run.1 Sample.run.2).
  computed.
Defined.

(** *** The image metrics *)

Lemma read_cbdt_items self ttf :
  glyph_to_image_metrics_map (read_cbdt self ttf)
  = foldl (fun m '(key, data) => <[key := data]> m)
          (glyph_to_image_metrics_map self) (strike_items ttf).
Proof.
  unfold read_cbdt, strike_items. simpl.
  generalize (glyph_to_image_metrics_map self).
  induction (CBDT_strikeData ttf) as [|strike strikes IH]; intros m; [done|].
  simpl. by rewrite foldl_app, IH.
Qed.

Lemma insert_items_lookup (items : list (string * metrics))
    (m : gmap string metrics) glyph_name :
  foldl (fun m '(key, data) => <[key := data]> m) m items !! glyph_name
  = match last (filter (fun item => item.1 = glyph_name) items) with
    | Some item => Some item.2
    | None => m !! glyph_name
    end.
Proof.
  induction items as [|[key data] items IH] using rev_ind; [done|].
  rewrite foldl_app, filter_app. simpl.
  destruct (decide (key = glyph_name)) as [->|Hne].
  - rewrite filter_cons_True by done. rewrite filter_nil, last_snoc. simpl.
    apply lookup_insert_eq.
  - rewrite filter_cons_False by done. rewrite filter_nil, app_nil_r.
    by rewrite lookup_insert_ne.
Qed.

(** X10: the image metrics that [read_cbdt] records for a glyph are those of
    the last item with the name of the glyph, over all strikes of the font
    in their order; a glyph that no strike names keeps what the creator held
    for it. *)
Theorem image_metrics_last_item_wins self ttf glyph_name :
  glyph_to_image_metrics_map (read_cbdt self ttf) !! glyph_name
  = match last (filter (fun item => item.1 = glyph_name) (strike_items ttf)) with
    | Some item => Some item.2
    | None => glyph_to_image_metrics_map self !! glyph_name
    end.
Proof. rewrite read_cbdt_items. apply insert_items_lookup. Qed.

Lemma elem_of_concat {A} (x : A) (ls : list (list A)) :
  x ∈ concat ls ↔ ∃ l, x ∈ l ∧ l ∈ ls.
Proof.
  induction ls as [|l ls IH]; simpl.
  - split; [by intros ?%elem_of_nil | by intros (? & _ & ?%elem_of_nil)].
  - rewrite elem_of_app, IH. split.
    + intros [H|(l' & H & Hl')]; [exists l | exists l']; split; try done.
      * by left.
      * by right.
    + intros (l' & H & [->|Hl']%elem_of_cons); [by left | right; by exists l'].
Qed.

Lemma read_cbdt_has_metrics self ttf glyph_name :
  glyph_to_image_metrics_map self = ∅ →
  is_Some (glyph_to_image_metrics_map (read_cbdt self ttf) !! glyph_name)
  ↔ has_metrics ttf glyph_name.
Proof.
  intros Hempty.
  rewrite read_cbdt_items, insert_items_lookup. unfold has_metrics, strike_items.
  rewrite Hempty, lookup_empty.
  destruct (last (filter _ _)) as [[g m]|] eqn:Hlast.
  - split; [intros _ | by eexists].
    apply last_Some in Hlast as [l Hl].
    assert ((g, m) ∈ filter (fun item : string * metrics => item.1 = glyph_name)
                            (concat (CBDT_strikeData ttf))) as Hin.
    { rewrite Hl. apply elem_of_app. right. by left. }
    apply list_elem_of_filter in Hin as [Hg Hin]. simpl in Hg. subst g.
    apply elem_of_concat in Hin as (strike & Hin & Hstrike).
    by exists strike, m.
  - split; [by intros [? ?]|]. intros (strike & m & Hstrike & Hin). exfalso.
    apply last_None in Hlast.
    assert ((glyph_name, m) ∈ filter (fun item : string * metrics => item.1 = glyph_name)
                            (concat (CBDT_strikeData ttf))) as Hin'.
    { apply list_elem_of_filter. split; [done|].
      apply elem_of_concat. by exists strike. }
    rewrite Hlast in Hin'. by apply elem_of_nil in Hin'.
Qed.

(** *** When a run returns *)

Lemma update_emoji_data_returns self codepoints glyph_name :
  (∃ self', update_emoji_data self codepoints glyph_name = Ok self')
  ↔ (is_Some (emoji_data_map self !! codepoint_to_string codepoints) →
     is_Some (glyph_to_image_metrics_map self !! glyph_name)).
Proof.
  unfold update_emoji_data, getitem.
  destruct (emoji_data_map self !! codepoint_to_string codepoints) as [e|].
  - destruct (glyph_to_image_metrics_map self !! glyph_name) as [m|]; simpl.
    + split; [intros _ _; by exists m|]. intros _.
      destruct (EmojiData.emoji_id e =? 0); by eexists.
    + split; [by intros [? ?]|]. intros H.
      destruct H as [m Hm]; [by exists e | done].
  - split; [intros _ [? ?]; done | by eexists].
Qed.

Lemma correlate_all_returns calls self :
  (∃ self', correlate_all self calls = Ok self')
  ↔ ∀ codepoints glyph_name,
      (codepoints, glyph_name) ∈ calls →
      is_Some (emoji_data_map self !! codepoint_to_string codepoints) →
      is_Some (glyph_to_image_metrics_map self !! glyph_name).
Proof.
  revert self; induction calls as [|[cps g] calls IH]; intros self.
  - split; [by intros _ ? ? ?%elem_of_nil | by eexists].
  - split.
    + intros [self' (self1 & Hcall & Hrun)%correlate_all_cons] cps' g' Hin Hkey.
      apply elem_of_cons in Hin as [[= -> ->]|Hin].
      * apply (proj1 (update_emoji_data_returns self cps g)); [|done].
        by exists self1.
      * rewrite <- (update_emoji_data_metrics _ _ _ _ Hcall).
        apply (proj1 (IH self1) (ex_intro _ self' Hrun) cps' g' Hin).
        by apply (update_emoji_data_keeps_keys _ _ _ _ Hcall).
    + intros Hall.
      destruct (proj2 (update_emoji_data_returns self cps g)) as [self1 Hcall].
      { apply Hall. by left. }
      destruct (proj2 (IH self1)) as [self' Hrun].
      { intros cps' g' Hin Hkey.
        rewrite (update_emoji_data_metrics _ _ _ _ Hcall).
        apply (Hall cps' g'); [by right|].
        by apply (update_emoji_data_keeps_keys _ _ _ _ Hcall). }
      exists self'. apply correlate_all_cons. by exists self1.
Qed.

Lemma read_cmap12_items_returns table self g2c self' :
  correlate_all self (cmap12_calls table) = Ok self' →
  for_each read_cmap12_item (cmap table) (self, g2c)
  = Ok (self', side_table table g2c).
Proof.
  unfold cmap12_calls, side_table, correlate_all.
  generalize (cmap table). intros items. revert self g2c.
  induction items as [|[cp g] items IH]; intros self g2c H; simpl in *.
  - by injection H as <-.
  - apply bind_Ok in H as (self1 & Hcall & H). rewrite Hcall. simpl.
    by apply IH.
Qed.

Lemma read_and_clear_cmap12_loop_first self seen before table after g2c :
  (∀ t, t ∈ before → is_cmap12 t = false) → is_cmap12 table = true →
  read_and_clear_cmap12_loop self seen (before ++ table :: after) g2c
  = '(self, g2c) ← for_each read_cmap12_item (cmap table) (self, g2c);
    Ok (self, (seen ++ before) ++ clear_cmap table :: after, g2c,
        length (seen ++ before)).
Proof.
  intros Hno H12. revert seen.
  induction before as [|t before IH]; intros seen; simpl.
  - by rewrite H12, app_nil_r.
  - rewrite (Hno t) by by left. rewrite IH.
    + by replace ((seen ++ [t]) ++ before) with (seen ++ t :: before)
        by (by rewrite <- app_assoc).
    + intros t' Ht'. apply Hno. by right.
Qed.

Lemma for_each_comprehension_returns {A B S} (f : A → result B)
    (body : S → B → result S) xs ys s :
  comprehension f xs = Ok ys →
  for_each (fun s x => y ← f x; body s y) xs s = for_each body ys s.
Proof.
  revert ys s; induction xs as [|x xs IH]; intros ys s H; simpl in *.
  - by injection H as <-.
  - apply bind_Ok in H as (y & Hy & H). apply bind_Ok in H as (ys' & Hys & [= <-]).
    rewrite Hy. simpl. destruct (body s y) as [s1|e]; [simpl|done].
    by apply IH.
Qed.

Lemma rewrite_tables_returns self ttf before table after calls self' :
  first_cmap12 ttf before table after →
  glyph_calls ttf table = Ok calls →
  correlate_all (read_cbdt self ttf) calls = Ok self' →
  ∃ ttf', rewrite_tables self ttf = Ok (self', ttf').
Proof.
  intros (Htables & Hno & H12) Hcalls Hrun.
  unfold glyph_calls in Hcalls.
  apply bind_Ok in Hcalls as (calls2 & Hrules & [= <-]).
  rewrite correlate_all_app in Hrun.
  apply bind_Ok in Hrun as (self1 & Hrun1 & Hrun2).
  unfold rewrite_tables, read_and_clear_cmap12.
  rewrite Htables, (read_and_clear_cmap12_loop_first _ _ _ _ _ _ Hno H12).
  rewrite (read_cmap12_items_returns _ _ _ _ Hrun1). cbn [mbind result_bind].
  unfold read_and_clear_gsub. rewrite read_and_clear_gsub_rules.
  cbn [GSUB_Lookup set_cmap_tables] in *.
  unfold ligature_rules in *. cbn [GSUB_Lookup set_cmap_tables].
  rewrite (for_each_comprehension_returns _ _ _ _ _ Hrules).
  unfold correlate_all in Hrun2.
  erewrite for_each_ext; [rewrite Hrun2|]; [|by intros s [cps g] _].
  cbn [mbind result_bind]. by eexists.
Qed.

(** X11: when the Unicode files and the previous metadata are read, a run
    returns exactly when the font has a table of format 12 for platform 3
    and encoding 10, every glyph name of a ligature rule is the glyph of an
    item of the first such table, and a strike has image metrics for the
    glyph of every call of [update_emoji_data] whose code points are in the
    registry.  A glyph whose code points are not in the registry needs no
    image metrics. *)
Theorem run_returns_iff unicode_path android csv ttf m0 m1 next :
  load_emoji_data_map unicode_path android = Ok m0 →
  load_previous_metadata m0 csv = Ok (m1, next) →
  (∃ self' out, create_font init unicode_path android csv ttf = Ok (self', out))
  ↔ ∃ before table after calls,
      first_cmap12 ttf before table after
      ∧ glyph_calls ttf table = Ok calls
      ∧ ∀ codepoints glyph_name,
          (codepoints, glyph_name) ∈ calls →
          is_Some (m1 !! codepoint_to_string codepoints) →
          has_metrics ttf glyph_name.
Proof.
  intros Hload Hprev. split.
  - intros (self' & out & Hrun).
    apply create_font_inv in Hrun
      as (m0' & m1' & next' & before & table & after & calls & Hload' & Hprev'
          & Hfirst & Hcalls & Hrun & _).
    rewrite Hload in Hload'. injection Hload' as <-.
    rewrite Hprev in Hprev'. injection Hprev' as <- <-.
    exists before, table, after, calls. split; [done|]. split; [done|].
    intros cps g Hin Hkey.
    eapply read_cbdt_has_metrics;
      [|exact (proj1 (correlate_all_returns calls _) (ex_intro _ self' Hrun)
                cps g Hin Hkey)]; done.
  - intros (before & table & after & calls & Hfirst & Hcalls & Hmetrics).
    unfold create_font. rewrite Hload. cbn [mbind result_bind].
    rewrite Hprev. cbn [mbind result_bind].
    set (self := {| emoji_data_map := m1;
                    remapped_codepoints := remapped_codepoints init;
                    glyph_to_image_metrics_map := glyph_to_image_metrics_map init;
                    emoji_id := next |}).
    set (ttf1 := {| head_fontRevision := METADATA_VERSION;
                    CBDT_strikeData := CBDT_strikeData ttf;
                    cmap_tables := cmap_tables ttf;
                    GSUB_Lookup := GSUB_Lookup ttf |}).
    destruct (proj2 (correlate_all_returns calls (read_cbdt self ttf1)))
      as [self' Hrun].
    { intros cps g Hin Hkey.
      apply read_cbdt_has_metrics; [done|]. by eapply Hmetrics. }
    destruct (rewrite_tables_returns self ttf1 before table after calls self')
      as [ttf' ->]; [done..|].
    cbn [mbind result_bind].
    destruct (write_metadata_json self') as [json total]. by eexists _, _.
Qed.

Lemma run_returns_iff_witness :
  (∃ self' out,
     create_font init Sample.unicode None (Some Sample.csv) Sample.font
     = Ok (self', out))
  ↔ ∃ before table after calls,
      first_cmap12 Sample.font before table after
      ∧ glyph_calls Sample.font table = Ok calls
      ∧ ∀ codepoints glyph_name,
          (codepoints, glyph_name) ∈ calls →
          is_Some (Sample.reconciled_registry !! codepoint_to_string codepoints) →
          has_metrics Sample.font glyph_name.
Proof.
  apply (run_returns_iff Sample.unicode None (Some Sample.csv) Sample.font
           Sample.registry Sample.reconciled_registry 0xF0008); computed.
Defined.

(** *** What a run leaves as it is *)

Lemma update_emoji_data_same_record self codepoints glyph_name self' key :
  update_emoji_data self codepoints glyph_name = Ok self' →
  match emoji_data_map self !! key with
  | Some e => ∃ e', emoji_data_map self' !! key = Some e' ∧ same_record e e'
  | None => emoji_data_map self' !! key = None
  end.
Proof.
  intros H. apply update_emoji_data_Ok in H.
  destruct (emoji_data_map self !! codepoint_to_string codepoints) as [e0|] eqn:He0.
  - destruct H as (m & _ & -> & _).
    destruct (decide (codepoint_to_string codepoints = key)) as [<-|Hne].
    + rewrite He0, lookup_insert_eq. eexists. split; [done|].
      unfold correlated, same_record. simpl.
      by destruct (EmojiData.emoji_id e0 =? 0).
    + rewrite lookup_insert_ne by done.
      destruct (emoji_data_map self !! key) as [e|]; [|done].
      by exists e.
  - subst self'. destruct (emoji_data_map self !! key) as [e|]; [|done].
    by exists e.
Qed.

Lemma correlate_all_same_record calls self self' key :
  correlate_all self calls = Ok self' →
  match emoji_data_map self !! key with
  | Some e => ∃ e', emoji_data_map self' !! key = Some e' ∧ same_record e e'
  | None => emoji_data_map self' !! key = None
  end.
Proof.
  revert self; induction calls as [|[cps g] calls IH]; intros self Hrun.
  - injection Hrun as <-. destruct (emoji_data_map self !! key) as [e|]; [|done].
    by exists e.
  - apply correlate_all_cons in Hrun as (self1 & Hcall & Hrun).
    pose proof (update_emoji_data_same_record _ _ _ _ key Hcall) as H1.
    pose proof (IH _ Hrun) as H2.
    destruct (emoji_data_map self !! key) as [e|].
    + destruct H1 as (e1 & He1 & Hsame1). rewrite He1 in H2.
      destruct H2 as (e' & He' & Hsame'). exists e'. split; [done|].
      unfold same_record in *. intuition congruence.
    + by rewrite H1 in H2.
Qed.

(** X12: the walk over the font adds no entry to the registry and removes
    none, and it leaves the code points, the emoji style flag and the two
    versions of every entry as the reading of the previous metadata left
    them: a run can change only the id, the width and the height of an
    entry. *)
Theorem run_keeps_the_records unicode_path android csv ttf self' out :
  create_font init unicode_path android csv ttf = Ok (self', out) →
  ∃ m0 m1 next,
    load_emoji_data_map unicode_path android = Ok m0
    ∧ load_previous_metadata m0 csv = Ok (m1, next)
    ∧ ∀ key,
        match m1 !! key with
        | Some e =>
            ∃ e', emoji_data_map self' !! key = Some e'
                  ∧ EmojiData.codepoints e' = EmojiData.codepoints e
                  ∧ EmojiData.emoji_style e' = EmojiData.emoji_style e
                  ∧ EmojiData.sdk_added e' = EmojiData.sdk_added e
                  ∧ EmojiData.compat_added e' = EmojiData.compat_added e
        | None => emoji_data_map self' !! key = None
        end.
Proof.
  intros (m0 & m1 & next & before & table & after & calls & Hload & Hprev
          & _ & _ & Hrun & _)%create_font_inv.
  exists m0, m1, next. split; [done|]. split; [done|]. intros key.
  exact (correlate_all_same_record _ _ _ key Hrun).
Qed.

Lemma run_keeps_the_records_witness :
  ∃ m0 m1 next,
    load_emoji_data_map Sample.unicode None = Ok m0
    ∧ load_previous_metadata m0 (Some Sample.csv) = Ok (m1, next)
    ∧ ∀ key,
        match m1 !! key with
        | Some e =>
            ∃ e', emoji_data_map Sample.run.1 !! key = Some e'
                  ∧ EmojiData.codepoints e' = EmojiData.codepoints e
                  ∧ EmojiData.emoji_style e' = EmojiData.emoji_style e
                  ∧ EmojiData.sdk_added e' = EmojiData.sdk_added e
                  ∧ EmojiData.compat_added e' = EmojiData.compat_added e
        | None => emoji_data_map Sample.run.1 !! key = None
        end.
Proof.
  apply (run_keeps_the_records Sample.unicode None (Some Sample.csv)
           Sample.font Sample.run.1 Sample.run.2).
  computed.
Defined.

Lemma rewrite_tables_font self ttf self' ttf' :
  rewrite_tables self ttf = Ok (self', ttf') →
  head_fontRevision ttf' = head_fontRevision ttf
  ∧ CBDT_strikeData ttf' = CBDT_strikeData ttf
  ∧ GSUB_Lookup ttf'
    = (fun lookup : lookup_table => (fun _ : subtable => [] : subtable) <$> lookup)
        <$> GSUB_Lookup ttf.
Proof.
  unfold rewrite_tables, read_and_clear_cmap12, read_and_clear_gsub. intros H.
  apply bind_Ok in H as ([[[self1 ttf1] g2c] idx] & Hcmap & H).
  apply bind_Ok in Hcmap as ([[[self1' tables] g2c'] idx'] & _ & [= -> <- -> ->]).
  apply bind_Ok in H as ([self2 ttf2] & Hgsub & [= <- <-]).
  by apply bind_Ok in Hgsub as (self2' & _ & [= -> <-]).
Qed.

Lemma cleared_fmap (lookups : list lookup_table) :
  cleared lookups
    ((fun lookup : lookup_table => (fun _ : subtable => [] : subtable) <$> lookup)
       <$> lookups).
Proof.
  unfold cleared. apply Forall2_fmap_r, Forall_Forall2_diag, Forall_forall.
  intros lookup _. split; [by rewrite length_fmap|].
  apply Forall_fmap, Forall_forall. by intros st _.
Qed.

Lemma cleared_no_rules ttf ttf' :
  cleared (GSUB_Lookup ttf) (GSUB_Lookup ttf') → ligature_rules ttf' = [].
Proof.
  unfold ligature_rules, cleared. generalize (GSUB_Lookup ttf').
  generalize (GSUB_Lookup ttf). intros lookups lookups' H.
  induction H as [|lookup lookup' lookups lookups' [_ Hempty] _ IH]; [done|].
  rewrite bind_cons, IH, app_nil_r. clear IH.
  induction Hempty as [|st lookup'' -> _ IH]; [done|].
  by rewrite bind_cons, IH.
Qed.

(** X13: besides the table of format 12, a run changes two things in the
    font: the font revision becomes the metadata version, and every subtable
    of every lookup loses all its ligatures, so that the font is left
    without a ligature rule; the lookups and their subtables stay in place
    and the strikes are as they were. *)
Theorem run_clears_the_ligatures self unicode_path android csv ttf self' out :
  create_font self unicode_path android csv ttf = Ok (self', out) →
  head_fontRevision (out_font out) = METADATA_VERSION
  ∧ CBDT_strikeData (out_font out) = CBDT_strikeData ttf
  ∧ cleared (GSUB_Lookup ttf) (GSUB_Lookup (out_font out))
  ∧ ligature_rules (out_font out) = [].
Proof.
  unfold create_font. intros H.
  apply bind_Ok in H as (m0 & _ & H).
  apply bind_Ok in H as ([m1 next] & _ & H).
  apply bind_Ok in H as ([self1 ttf1] & Hrewrite & H).
  destruct (write_metadata_json self1) as [json total].
  injection H as <- <-.
  apply rewrite_tables_font in Hrewrite as (Hhead & Hcbdt & Hgsub).
  cbn [out_font head_fontRevision CBDT_strikeData GSUB_Lookup] in *.
  assert (cleared (GSUB_Lookup ttf) (GSUB_Lookup ttf1)) as Hcleared.
  { rewrite Hgsub. apply cleared_fmap. }
  split; [done|]. split; [done|]. split; [done|].
  by apply (cleared_no_rules ttf).
Qed.

Lemma run_clears_the_ligatures_witness :
  head_fontRevision (out_font Sample.run.2) = METADATA_VERSION
  ∧ CBDT_strikeData (out_font Sample.run.2) = CBDT_strikeData Sample.font
  ∧ cleared (GSUB_Lookup Sample.font) (GSUB_Lookup (out_font Sample.run.2))
  ∧ ligature_rules (out_font Sample.run.2) = [].
Proof.
  apply (run_clears_the_ligatures init Sample.unicode None (Some Sample.csv)
           Sample.font Sample.run.1 Sample.run.2).
  computed.
Defined.

(** *** The lines of a Unicode file *)

Ltac ascii_cases c :=
  destruct c as [[] [] [] [] [] [] [] []]; vm_compute; reflexivity.

Lemma isspace_upper_char c : Py.isspace (Py.upper_char c) = Py.isspace c.
Proof. ascii_cases c. Qed.

Lemma upper_char_upper_char c : Py.upper_char (Py.upper_char c) = Py.upper_char c.
Proof. ascii_cases c. Qed.

Lemma digit_value_upper_char c :
  Py.digit_value (Py.upper_char c) = Py.digit_value c.
Proof. ascii_cases c. Qed.

Lemma eqb_upper_char_hash c :
  Ascii.eqb (Py.upper_char c) "#" = Ascii.eqb c "#".
Proof. ascii_cases c. Qed.

Lemma eqb_upper_char_minus c :
  Ascii.eqb (Py.upper_char c) "-" = Ascii.eqb c "-".
Proof. ascii_cases c. Qed.

Lemma eqb_upper_char_plus c :
  Ascii.eqb (Py.upper_char c) "+" = Ascii.eqb c "+".
Proof. ascii_cases c. Qed.

Lemma eqb_upper_char_zero c :
  Ascii.eqb (Py.upper_char c) "0" = Ascii.eqb c "0".
Proof. ascii_cases c. Qed.

Lemma eqb_upper_char_x c :
  Ascii.eqb (Py.upper_char c) "x" || Ascii.eqb (Py.upper_char c) "X"
  = Ascii.eqb c "x" || Ascii.eqb c "X".
Proof. ascii_cases c. Qed.

Lemma upper_upper s : Py.upper (Py.upper s) = Py.upper s.
Proof.
  induction s as [|c s IH]; simpl; [done|].
  by rewrite upper_char_upper_char, IH.
Qed.

Lemma upper_empty s : Py.upper s = "" ↔ s = "".
Proof. by destruct s. Qed.

Lemma lstrip_upper s : Py.lstrip (Py.upper s) = Py.upper (Py.lstrip s).
Proof.
  induction s as [|c s IH]; simpl; [done|].
  rewrite isspace_upper_char. by destruct (Py.isspace c).
Qed.

Lemma rstrip_upper s : Py.rstrip (Py.upper s) = Py.upper (Py.rstrip s).
Proof.
  induction s as [|c s IH]; simpl; [done|].
  rewrite IH, isspace_upper_char.
  destruct (Py.rstrip s); simpl; [by destruct (Py.isspace c) | done].
Qed.

Lemma strip_upper s : Py.strip (Py.upper s) = Py.upper (Py.strip s).
Proof. unfold Py.strip. by rewrite lstrip_upper, rstrip_upper. Qed.

Lemma startswith_hash s :
  Py.startswith s "#" = match s with
                        | String c _ => Ascii.eqb c "#"
                        | EmptyString => false
                        end.
Proof.
  unfold Py.startswith. destruct s as [|c s]; [done|].
  destruct s; ascii_cases c.
Qed.

Lemma startswith_upper s : Py.startswith (Py.upper s) "#" = Py.startswith s "#".
Proof.
  rewrite !startswith_hash. destruct s as [|c s]; [done|].
  simpl. apply eqb_upper_char_hash.
Qed.

Lemma rstrip_cons c s :
  Py.isspace c = false → Py.rstrip (String c s) = String c (Py.rstrip s).
Proof. intros Hc. simpl. rewrite Hc. by destruct (Py.rstrip s). Qed.

Lemma rstrip_rstrip s : Py.rstrip (Py.rstrip s) = Py.rstrip s.
Proof.
  induction s as [|c s IH]; [done|]. simpl.
  destruct (Py.rstrip s) as [|d r] eqn:Hr.
  - destruct (Py.isspace c) eqn:Hc; [done|]. simpl. by rewrite Hc.
  - change (Py.rstrip (String c (String d r))) with
      (match Py.rstrip (String d r) with
       | EmptyString => if Py.isspace c then EmptyString else String c EmptyString
       | r' => String c r'
       end).
    by rewrite IH.
Qed.

Lemma lstrip_head s :
  match Py.lstrip s with
  | String c _ => Py.isspace c = false
  | EmptyString => True
  end.
Proof.
  induction s as [|c s IH]; simpl; [done|].
  by destruct (Py.isspace c) eqn:Hc.
Qed.

Lemma strip_strip s : Py.strip (Py.strip s) = Py.strip s.
Proof.
  unfold Py.strip. pose proof (lstrip_head s) as Hhead.
  destruct (Py.lstrip s) as [|c t]; [done|].
  rewrite (rstrip_cons _ _ Hhead). simpl Py.lstrip. rewrite Hhead.
  by rewrite (rstrip_cons _ _ Hhead), rstrip_rstrip.
Qed.

Lemma read_emoji_lines_clean file :
  Forall clean_line (read_emoji_lines file).
Proof.
  induction file as [|line file IH]; simpl; [done|].
  destruct (String.eqb_spec (Py.strip line) "") as [|Hne]; simpl; [done|].
  destruct (Py.startswith (Py.strip line) "#") eqn:Hc; simpl; [done|].
  constructor; [|done]. unfold clean_line.
  rewrite strip_upper, strip_strip, startswith_upper, upper_upper, upper_empty.
  done.
Qed.

Lemma read_clean_lines lines :
  Forall clean_line lines → read_emoji_lines lines = lines.
Proof.
  induction 1 as [|line lines (Hstrip & Hne & Hc & Hup) _ IH]; [done|].
  simpl. rewrite Hstrip, Hc, Hup, IH.
  by destruct (String.eqb_spec line "").
Qed.

(** X14: every line that [read_emoji_lines] returns is without white space
    around it, is not empty, is not a comment and is in upper case; so
    reading the lines it returned returns them again. *)
Theorem emoji_lines_are_clean file :
  read_emoji_lines (read_emoji_lines file) = read_emoji_lines file
  ∧ ∀ line, line ∈ read_emoji_lines file →
            Py.strip line = line ∧ line ≠ ""
            ∧ Py.startswith line "#" = false ∧ Py.upper line = line.
Proof.
  split.
  - apply read_clean_lines, read_emoji_lines_clean.
  - intros line Hin.
    exact (proj1 (Forall_forall _ _) (read_emoji_lines_clean file) line Hin).
Qed.

Lemma parse_digits_upper base acc s :
  Py.parse_digits base acc (Py.upper s) = Py.parse_digits base acc s.
Proof.
  revert acc; induction s as [|c s IH]; intros acc; simpl; [done|].
  rewrite digit_value_upper_char.
  destruct (Py.digit_value c) as [d|]; [|done].
  by destruct (d <? base)%N.
Qed.

Lemma drop_sign_upper s :
  Py.drop_sign (Py.upper s)
  = ((Py.drop_sign s).1, Py.upper (Py.drop_sign s).2).
Proof.
  destruct s as [|c s]; [done|]. simpl.
  rewrite eqb_upper_char_minus, eqb_upper_char_plus.
  by destruct (Ascii.eqb c "-"), (Ascii.eqb c "+").
Qed.

Lemma drop_0x_upper s : Py.drop_0x (Py.upper s) = Py.upper (Py.drop_0x s).
Proof.
  destruct s as [|c1 [|c2 s]]; [done..|]. simpl.
  rewrite eqb_upper_char_zero, eqb_upper_char_x.
  by destruct (Ascii.eqb c1 "0" && (Ascii.eqb c2 "x" || Ascii.eqb c2 "X")).
Qed.

Lemma int_upper s base : Py.int (Py.upper s) base = Py.int s base.
Proof.
  unfold Py.int. rewrite strip_upper, drop_sign_upper.
  destruct (Py.drop_sign (Py.strip s)) as [neg body]. cbn [fst snd].
  assert (∀ body, match Py.upper body with
                  | EmptyString => @Raise Z (ValueError "invalid literal for int()")
                  | String _ _ =>
                      match Py.parse_digits base 0 (Py.upper body) with
                      | Some n => Ok (if neg then (- Z.of_N n)%Z else Z.of_N n)
                      | None => Raise (ValueError "invalid literal for int()")
                      end
                  end
                  = match body with
                    | EmptyString => Raise (ValueError "invalid literal for int()")
                    | String _ _ =>
                        match Py.parse_digits base 0 body with
                        | Some n => Ok (if neg then (- Z.of_N n)%Z else Z.of_N n)
                        | None => Raise (ValueError "invalid literal for int()")
                        end
                    end) as Hbody.
  { intros b. rewrite parse_digits_upper. by destruct b. }
  destruct (base =? 16)%N; [rewrite drop_0x_upper|]; apply Hbody.
Qed.

(** X15: the upper case that [read_emoji_lines] puts a line in does not
    change what the numbers of the line are read as: [hex_str_to_int] reads
    a string in upper case as it reads the string itself, an error
    included. *)
Theorem hex_str_to_int_ignores_case s :
  hex_str_to_int (Py.upper s) = hex_str_to_int s.
Proof. apply int_upper. Qed.

(** *** Records that cannot be read *)

Lemma snapshot_row_short row :
  (length row < 3)%nat →
  (∀ field, head row = Some field → Py.startswith field "#" = false) →
  ∃ e, snapshot_row row = Raise e.
Proof.
  intros Hlen Hfield. unfold snapshot_row, index.
  destruct row as [|row0 row]; [by eexists|]. simpl.
  rewrite (Hfield row0) by done.
  destruct (hex_str_to_int row0) as [emoji_id|e]; [simpl | by eexists].
  destruct row as [|row1 row]; [by eexists|]. simpl.
  destruct (Py.int row1 10) as [sdk_added|e]; [simpl | by eexists].
  destruct row as [|row2 row]; [by eexists|]. simpl in Hlen. lia.
Qed.

(** X16: a row of the previous metadata file with fewer than three fields
    that is not a comment row, an empty row for one, ends the reading of the
    file with an exception: no row is skipped, and nothing is returned. *)
Theorem short_record_is_fatal (m : emoji_map) csvfile row :
  row ∈ csvfile → (length row < 3)%nat →
  (∀ field, head row = Some field → Py.startswith field "#" = false) →
  ∃ e, load_previous_metadata m (Some csvfile) = Raise e.
Proof.
  intros Hin Hlen Hfield. unfold load_previous_metadata.
  apply (for_each_must_raise load_previous_row csvfile _ row Hin).
  intros [m1 cur]. destruct (snapshot_row_short row Hlen Hfield) as [e He].
  exists e. unfold load_previous_row. by rewrite He.
Qed.

Lemma short_record_is_fatal_witness :
  ∃ e, load_previous_metadata Sample.registry
         (Some [["F0005"; "19"; "1"; "1F600"]; ["F0007"; "19"]]) = Raise e.
Proof.
  apply (short_record_is_fatal Sample.registry
           [["F0005"; "19"; "1"; "1F600"]; ["F0007"; "19"]] ["F0007"; "19"]).
  - apply list_elem_of_further, list_elem_of_here.
  - simpl. lia.
  - intros field [= <-]. reflexivity.
Defined.

(** *** The glyph to code point table *)

Lemma side_table_lookup table (start : gmap string Z) glyph_name :
  side_table table start !! glyph_name
  = match last (filter (fun item => item.2 = glyph_name) (cmap table)) with
    | Some item => Some item.1
    | None => start !! glyph_name
    end.
Proof.
  unfold side_table. generalize (cmap table). intros items.
  induction items as [|[cp g] items IH] using rev_ind; [done|].
  rewrite foldl_app, filter_app. simpl.
  destruct (decide (g = glyph_name)) as [->|Hne].
  - rewrite filter_cons_True by done. rewrite filter_nil, last_snoc. simpl.
    apply lookup_insert_eq.
  - rewrite filter_cons_False by done. rewrite filter_nil, app_nil_r.
    by rewrite lookup_insert_ne.
Qed.

(** X17: the glyph to code point table that [read_and_clear_cmap12] fills
    holds, for a glyph, the code point of the last item with that glyph of
    the first table of format 12, and for a glyph of no item what it held
    before; the table that is returned is that first table, and the tables
    behind it are not read. *)
Theorem glyph_codepoint_last_item_wins self ttf g2c self' ttf' g2c' idx :
  read_and_clear_cmap12 self ttf g2c = Ok (self', ttf', g2c', idx) →
  ∃ before table after,
    first_cmap12 ttf before table after
    ∧ idx = length before
    ∧ cmap_tables ttf' = before ++ clear_cmap table :: after
    ∧ ∀ glyph_name,
        g2c' !! glyph_name
        = match last (filter (fun item => item.2 = glyph_name) (cmap table)) with
          | Some item => Some item.1
          | None => g2c !! glyph_name
          end.
Proof.
  unfold read_and_clear_cmap12. intros H.
  apply bind_Ok in H as ([[[self1 tables] g2c1] idx1] & Hloop & [= <- <- <- <-]).
  apply read_and_clear_cmap12_loop_Ok in Hloop
    as (before & table & after & Htables & Hno & H12 & Hitems & -> & ->).
  apply read_cmap12_items_Ok in Hitems as [_ ->].
  exists before, table, after. split; [done|]. split; [done|]. split; [done|].
  intros glyph_name. apply side_table_lookup.
Qed.

Lemma glyph_codepoint_last_item_wins_witness :
  ∃ before table after,
    first_cmap12 Sample.font before table after
    ∧ 1%nat = length before
    ∧ cmap_tables
        {| head_fontRevision := 2; CBDT_strikeData := [Sample.strike];
           cmap_tables := [Sample.cmap4; clear_cmap Sample.cmap12];
           GSUB_Lookup := Sample.gsub |}
      = before ++ clear_cmap table :: after
    ∧ ∀ glyph_name,
        side_table Sample.cmap12 ∅ !! glyph_name
        = match last (filter (fun item => item.2 = glyph_name) (cmap table)) with
          | Some item => Some item.1
          | None => (∅ : gmap string Z) !! glyph_name
          end.
Proof.
  apply (glyph_codepoint_last_item_wins Sample.creator Sample.font ∅
           (match correlate_all Sample.creator (cmap12_calls Sample.cmap12) with
            | Ok self => self
            | Raise _ => Sample.creator
            end)).
  computed.
Defined.

(** *** The order of the tables *)

Lemma list_remove_spec l x :
  match list_remove l x with
  | Ok l' => ∃ before after,
               l = before ++ x :: after ∧ (x ∉ before) ∧ l' = before ++ after
  | Raise _ => x ∉ l
  end.
Proof.
  induction l as [|y l IH]; simpl; [by apply not_elem_of_nil|].
  destruct (String.eqb_spec y x) as [->|Hne].
  - exists [], l. split; [done|]. split; [apply not_elem_of_nil | done].
  - destruct (list_remove l x) as [l'|e]; simpl.
    + destruct IH as (before & after & -> & Hnot & ->).
      exists (y :: before), after. split; [done|]. split; [|done].
      intros [Heq|Hin]%elem_of_cons; [by apply Hne | by apply Hnot].
    + intros [Heq|Hin]%elem_of_cons; [by apply Hne | by apply IH].
Qed.

(** X18: the sort that takes the place of the sort of the font library
    moves the first [meta] of the sorted tags to the front and leaves the
    other tags in the order of the sort of the library; when the sorted tags
    have no [meta] it raises. *)
Theorem meta_table_comes_first orig_sort tag_list table_order :
  match meta_first_table_sort orig_sort tag_list table_order with
  | Ok tags =>
      ∃ before after,
        orig_sort tag_list table_order = before ++ "meta" :: after
        ∧ ("meta" ∉ before)
        ∧ tags = "meta" :: before ++ after
  | Raise e =>
      ("meta" ∉ orig_sort tag_list table_order) ∧ ∃ msg, e = ValueError msg
  end.
Proof.
  unfold meta_first_table_sort.
  pose proof (list_remove_spec (orig_sort tag_list table_order) "meta") as H.
  destruct (list_remove (orig_sort tag_list table_order) "meta") as [l'|e] eqn:He;
    simpl.
  - destruct H as (before & after & Hl & Hnot & ->). by exists before, after.
  - split; [done|]. revert He. generalize (orig_sort tag_list table_order).
    intros l. induction l as [|y l IH]; simpl; [intros [= <-]; by eexists|].
    destruct (String.eqb y "meta"); [done|].
    destruct (list_remove l "meta") as [l'|e']; simpl; [done|].
    intros [= ->]. by apply IH.
Qed.

(** *** The header of the generated sources *)

Lemma append_assoc s1 s2 s3 : (s1 +:+ s2) +:+ s3 = s1 +:+ (s2 +:+ s3).
Proof.
  induction s1 as [|c s1 IH]; [by rewrite !append_nil|].
  by rewrite !append_cons, IH.
Qed.

Lemma length_append s1 s2 :
  String.length (s1 +:+ s2) = (String.length s1 + String.length s2)%nat.
Proof.
  induction s1 as [|c s1 IH]; [by rewrite append_nil|].
  rewrite append_cons. simpl. by rewrite IH.
Qed.

Lemma slice_from_append s1 s2 : slice_from (String.length s1) (s1 +:+ s2) = s2.
Proof.
  induction s1 as [|c s1 IH]; [rewrite append_nil; by destruct s2|].
  rewrite append_cons. simpl. apply IH.
Qed.

Lemma slice_from_all n s : (String.length s ≤ n)%nat → slice_from n s = "".
Proof.
  revert n; induction s as [|c s IH]; intros [|n] Hn; simpl in *; try done.
  - lia.
  - apply IH. lia.
Qed.

Lemma slice_from_suffix n s :
  (n ≤ String.length s)%nat →
  ∃ front, s = front +:+ slice_from n s ∧ String.length front = n.
Proof.
  revert n; induction s as [|c s IH]; intros [|n] Hn; simpl in *.
  - by exists "".
  - lia.
  - exists "". by rewrite append_nil.
  - destruct (IH n) as (front & Hs & Hlen); [lia|].
    exists (String c front). rewrite append_cons, <- Hs. simpl. by rewrite Hlen.
Qed.

Lemma str_index_Ok s sub i :
  str_index s sub = Ok i →
  ∃ front, s = front +:+ slice_from i s
           ∧ String.length front = i
           ∧ Py.startswith (slice_from i s) sub = true
           ∧ ∀ j, (j < i)%nat → Py.startswith (slice_from j s) sub = false.
Proof.
  unfold Py.startswith. revert i; induction s as [|c s IH]; intros i.
  - cbn [str_index]. destruct (String.prefix sub "") eqn:Hp; [|done].
    intros [= <-]. exists "". repeat split; try done. intros j Hj. lia.
  - cbn [str_index]. destruct (String.prefix sub (String c s)) eqn:Hp.
    + intros [= <-]. exists "". rewrite append_nil.
      repeat split; try done. intros j Hj. lia.
    + intros H. apply bind_Ok in H as (i' & Hi' & [= <-]).
      destruct (IH i' Hi') as (front & Hs & Hlen & Hsub & Hfirst).
      exists (String c front). rewrite append_cons. simpl.
      split; [by rewrite <- Hs|]. split; [by rewrite Hlen|]. split; [done|].
      intros [|j] Hj; [done|]. simpl. apply Hfirst. lia.
Qed.

Lemma str_index_Raise s sub e :
  str_index s sub = Raise e → Py.contains sub s = false.
Proof.
  induction s as [|c s IH]; cbn [str_index Py.contains].
  - by destruct (String.prefix sub "").
  - destruct (String.prefix sub (String c s)); [done|]. simpl.
    destruct (str_index s sub) as [i|e']; [done|]. simpl.
    intros [= ->]. by apply IH.
Qed.

(** X19: [prepend_header_to_file] raises exactly when the file does not
    hold [public final class].  Otherwise what comes before the first
    [public final class] gives way to the header and a line break.  The
    file is not truncated: when the header and the line break are shorter
    than what they take the place of, the end of the old contents stays
    behind the new text, as many characters as the new text is shorter. *)
Theorem header_takes_the_place_of_the_prefix original header :
  match prepend_header_to_file original header with
  | Ok written =>
      ∃ front rest,
        original = front +:+ rest
        ∧ Py.startswith rest "public final class" = true
        ∧ (∀ j, (j < String.length front)%nat →
                Py.startswith (slice_from j original) "public final class" = false)
        ∧ ((String.length front ≤ String.length header + 1)%nat →
           written = header +:+ newline +:+ rest)
        ∧ ((String.length header + 1 < String.length front)%nat →
           ∃ kept stale,
             original = kept +:+ stale
             ∧ String.length stale
               = (String.length front - (String.length header + 1))%nat
             ∧ written = (header +:+ newline +:+ rest) +:+ stale)
  | Raise e => Py.contains "public final class" original = false
  end.
Proof.
  unfold prepend_header_to_file.
  destruct (str_index original "public final class") as [i|e] eqn:Hi; simpl;
    [|by eapply str_index_Raise].
  destruct (str_index_Ok _ _ _ Hi) as (front & Horig & Hlen & Hsub & Hfirst).
  set (rest := slice_from i original) in *.
  exists front, rest. split; [done|]. split; [done|].
  split; [by rewrite Hlen|].
  assert (String.length original = (String.length front + String.length rest)%nat)
    as Hlo by (by rewrite Horig at 1; rewrite length_append).
  assert (String.length (header +:+ newline +:+ rest)
          = (String.length header + 1 + String.length rest)%nat) as Hlt.
  { rewrite !length_append. simpl. lia. }
  unfold write_at_start. split.
  - intros Hshort. rewrite slice_from_all by lia. apply append_nil_r.
  - intros Hlong.
    destruct (slice_from_suffix (String.length (header +:+ newline +:+ rest))
                original) as (kept & Hkept & Hlk); [lia|].
    exists kept, (slice_from (String.length (header +:+ newline +:+ rest)) original).
    split; [done|]. split; [|done].
    apply (f_equal String.length) in Hkept. rewrite length_append in Hkept. lia.
Qed.

(** *** The format of the lines *)

Lemma prefix_nil s : String.prefix "" s = true.
Proof. by destruct s. Qed.

Lemma prefix_cons_ne d sub c s :
  c ≠ d → String.prefix (String d sub) (String c s) = false.
Proof.
  intros Hne. cbn [String.prefix].
  destruct (ascii_dec d c) as [Heq|_]; [by destruct Hne | done].
Qed.

Lemma prefix_append sub s : String.prefix sub (sub +:+ s) = true.
Proof.
  induction sub as [|d sub IH]; [apply prefix_nil|].
  rewrite append_cons. cbn [String.prefix].
  destruct (ascii_dec d d) as [_|Hne]; done.
Qed.

Lemma rev_app_append s acc t :
  String.rev_app s acc +:+ t = String.rev_app s (acc +:+ t).
Proof.
  revert acc; induction s as [|c s IH]; intros acc; [done|].
  simpl. by rewrite IH, append_cons.
Qed.

Lemma rev_cons_append c cur s :
  String.rev (String c cur) +:+ s = String.rev cur +:+ String c s.
Proof.
  unfold String.rev. simpl. by rewrite !rev_app_append, append_cons, !append_nil.
Qed.

Lemma split_go_free d sub cur s :
  lacks d s → Py.split_go (String d sub) 0 cur s = [String.rev cur +:+ s].
Proof.
  revert cur; induction s as [|c s IH]; intros cur Hs.
  - simpl. by rewrite append_nil_r.
  - destruct Hs as [Hc Hs]. cbn [Py.split_go].
    rewrite prefix_cons_ne by done. rewrite IH by done.
    by rewrite rev_cons_append.
Qed.

Lemma split_go_skip sep x cur s :
  Py.split_go sep (String.length x) cur (x +:+ s) = Py.split_go sep 0 cur s.
Proof.
  induction x as [|c x IH]; [by rewrite append_nil|].
  rewrite append_cons. apply IH.
Qed.

Lemma split_go_hit d sub cur a s :
  lacks d a →
  Py.split_go (String d sub) 0 cur (a +:+ String d sub +:+ s)
  = (String.rev cur +:+ a) :: Py.split_go (String d sub) 0 "" s.
Proof.
  revert cur; induction a as [|c a IH]; intros cur Ha.
  - rewrite append_nil, append_nil_r, append_cons. cbn [Py.split_go].
    rewrite <- append_cons, prefix_append.
    cbn [String.length Nat.pred]. by rewrite split_go_skip.
  - destruct Ha as [Hc Ha]. rewrite append_cons. cbn [Py.split_go].
    rewrite prefix_cons_ne by done. rewrite IH by done.
    by rewrite rev_cons_append.
Qed.

Lemma split_free d sub s : lacks d s → Py.split s (String d sub) = [s].
Proof. intros Hs. unfold Py.split. by rewrite split_go_free. Qed.

Lemma split_hit d sub a s :
  lacks d a →
  Py.split (a +:+ String d sub +:+ s) (String d sub)
  = a :: Py.split s (String d sub).
Proof. intros Ha. unfold Py.split. by rewrite split_go_hit. Qed.

Lemma contains_free d sub s : lacks d s → Py.contains (String d sub) s = false.
Proof.
  induction s as [|c s IH]; [done|]. intros [Hc Hs]. cbn [Py.contains].
  rewrite prefix_cons_ne by done. by apply IH.
Qed.

Lemma contains_hit sub a s : Py.contains sub (a +:+ sub +:+ s) = true.
Proof.
  induction a as [|c a IH].
  - rewrite append_nil. pose proof (prefix_append sub s) as Hp.
    destruct (sub +:+ s); cbn [Py.contains]; by rewrite Hp.
  - rewrite append_cons. cbn [Py.contains]. rewrite IH. apply orb_true_r.
Qed.

Lemma rstrip_blank s : Py.rstrip (s +:+ " ") = Py.rstrip s.
Proof.
  induction s as [|c s IH]; [done|].
  rewrite append_cons. simpl. by rewrite IH.
Qed.

Lemma strip_blank s : all_chars not_space s → Py.strip (s +:+ " ") = s.
Proof.
  intros Hs. unfold Py.strip. destruct s as [|c s]; [done|].
  rewrite append_cons, lstrip_id by apply Hs.
  rewrite <- append_cons, rstrip_blank. by apply rstrip_id.
Qed.

Lemma strip_blanks s : all_chars not_space s → Py.strip (" " +:+ s +:+ " ") = s.
Proof. intros Hs. rewrite append_cons, append_nil. by apply strip_blank. Qed.

Lemma is_digit_word c :
  is_digit c →
  c ≠ ";"%char ∧ c ≠ "#"%char ∧ c ≠ "."%char ∧ c ≠ " "%char.
Proof.
  intros [d Hd]. revert Hd.
  destruct c as [[] [] [] [] [] [] [] []]; vm_compute; intros Hd;
    first [discriminate Hd | repeat split; discriminate].
Qed.

Lemma to_hex_digits z : 0 ≤ z → all_chars is_digit (to_hex z).
Proof.
  intros Hz. unfold to_hex, Py.format_X, Py.render.
  destruct (Z.ltb_spec z 0) as [|_]; [lia|]. rewrite !append_nil.
  apply digits_digits; lia.
Qed.

Lemma to_hex_lacks z :
  0 ≤ z →
  lacks ";" (to_hex z) ∧ lacks "#" (to_hex z) ∧ lacks "." (to_hex z)
  ∧ lacks " " (to_hex z).
Proof.
  intros Hz. pose proof (to_hex_digits z Hz) as Hd.
  repeat split; revert Hd; apply all_chars_impl;
    by intros c (? & ? & ? & ?)%is_digit_word.
Qed.

Lemma lacks_append d s1 s2 : lacks d (s1 +:+ s2) ↔ lacks d s1 ∧ lacks d s2.
Proof. apply all_chars_app. Qed.

Lemma property_name_lacks s :
  property_name s → all_chars not_space s ∧ lacks ";" s ∧ lacks "#" s.
Proof.
  intros Hs. repeat split; revert Hs; apply all_chars_impl; by intros c (? & ? & ?).
Qed.

(** X20: a line in the format that [read_emoji_intervals] documents is read
    as the format says: with a range the code points are those from the
    first to the last one, with one code point it is that code point, and
    the emoji style flag says whether the property is the presentation
    property; what follows the comment sign is not looked at. *)
Theorem interval_line_format range_start range_end property comment :
  0 ≤ range_start → 0 ≤ range_end → property_name property →
  interval_line (to_hex range_start +:+ ".." +:+ to_hex range_end
                 +:+ " ; " +:+ property +:+ " # " +:+ comment)
  = Ok (Py.range range_start (range_end + 1),
        String.eqb property "EMOJI_PRESENTATION")
  ∧ interval_line (to_hex range_start +:+ " ; " +:+ property +:+ " # " +:+ comment)
    = Ok ([range_start], String.eqb property "EMOJI_PRESENTATION").
Proof.
  intros Hstart Hend (Hspace & Hsemi & Hhash)%property_name_lacks.
  destruct (to_hex_lacks range_start Hstart) as (Hs1 & Hs2 & Hs3 & Hs4).
  destruct (to_hex_lacks range_end Hend) as (He1 & He2 & He3 & He4).
  pose proof (digits_not_space _ (to_hex_digits range_start Hstart)) as Hs5.
  pose proof (digits_not_space _ (to_hex_digits range_end Hend)) as He5.
  assert (∀ range,
            lacks ";" range → all_chars not_space range →
            Py.strip <$> Py.split (range +:+ " ; " +:+ property +:+ " ") ";"
            = [range; property]) as Hfields.
  { intros range H1 H3.
    replace (range +:+ " ; " +:+ property +:+ " ")
      with ((range +:+ " ") +:+ ";" +:+ (" " +:+ property +:+ " "))
      by (by rewrite !append_assoc).
    rewrite split_hit by (apply lacks_append; by repeat split).
    rewrite split_free by (apply lacks_append; split;
                           [done | apply lacks_append; by repeat split]).
    simpl. by rewrite strip_blank, strip_blanks. }
  assert (∀ range,
            lacks "#" range →
            Py.split (range +:+ " ; " +:+ property +:+ " # " +:+ comment) "#"
            = (range +:+ " ; " +:+ property +:+ " ") :: Py.split (" " +:+ comment) "#")
    as Hcomment.
  { intros range H1.
    replace (range +:+ " ; " +:+ property +:+ " # " +:+ comment)
      with ((range +:+ " ; " +:+ property +:+ " ") +:+ "#" +:+ (" " +:+ comment))
      by (by rewrite !append_assoc).
    rewrite split_hit; [done|].
    apply lacks_append; split; [done|].
    apply lacks_append; split; [by repeat split|].
    apply lacks_append; by repeat split. }
  split; unfold interval_line.
  - replace (to_hex range_start +:+ ".." +:+ to_hex range_end
             +:+ " ; " +:+ property +:+ " # " +:+ comment)
      with ((to_hex range_start +:+ ".." +:+ to_hex range_end)
            +:+ " ; " +:+ property +:+ " # " +:+ comment)
      by (by rewrite !append_assoc).
    rewrite Hcomment
      by (apply lacks_append; split;
          [done | apply lacks_append; by repeat split]).
    cbn [index lookup list_lookup mbind result_bind].
    rewrite Hfields.
    + rewrite contains_hit, split_hit by done. rewrite split_free by done.
      by rewrite !hex_str_to_int_to_hex.
    + apply lacks_append; split; [done|]. apply lacks_append; by repeat split.
    + apply all_chars_app. split; [done|]. apply all_chars_app. by repeat split.
  - rewrite Hcomment by done.
    cbn [index lookup list_lookup mbind result_bind].
    rewrite Hfields by done. rewrite contains_free by done.
    by rewrite hex_str_to_int_to_hex.
Qed.

Lemma interval_line_format_witness :
  interval_line ("1F93C" +:+ ".." +:+ "1F93E" +:+ " ; " +:+ "EMOJI_PRESENTATION"
                 +:+ " # " +:+ "7.0 [3] (wrestlers..handball)")
  = Ok (Py.range 0x1F93C (0x1F93E + 1),
        String.eqb "EMOJI_PRESENTATION" "EMOJI_PRESENTATION")
  ∧ interval_line ("1F93C" +:+ " ; " +:+ "EMOJI_PRESENTATION" +:+ " # "
                   +:+ "7.0 [3] (wrestlers..handball)")
    = Ok ([0x1F93C], String.eqb "EMOJI_PRESENTATION" "EMOJI_PRESENTATION").
Proof.
  apply (interval_line_format 0x1F93C 0x1F93E "EMOJI_PRESENTATION"
           "7.0 [3] (wrestlers..handball)"); [lia | lia |].
  vm_compute. repeat split; discriminate.
Defined.

Lemma join_cons sep p q ps :
  Py.join sep (p :: q :: ps) = p +:+ sep +:+ Py.join sep (q :: ps).
Proof. done. Qed.

Lemma split_join (words : list string) :
  words ≠ [] → Forall (lacks " ") words →
  Py.split (Py.join " " words) " " = words.
Proof.
  intros Hne Hwords. induction Hwords as [|w words Hw Hwords IH]; [done|].
  destruct words as [|w' words].
  - simpl. by apply split_free.
  - rewrite join_cons, split_hit by done. f_equal. by apply IH.
Qed.

Lemma lacks_blank_not_space s : all_chars not_space s → lacks " " s.
Proof. apply all_chars_impl. by intros c Hc ->. Qed.

Lemma rstrip_append a s :
  Py.rstrip s = s → s ≠ "" → Py.rstrip (a +:+ s) = a +:+ s.
Proof.
  intros Hs Hne. induction a as [|c a IH]; [by rewrite append_nil|].
  rewrite append_cons. simpl. rewrite IH.
  destruct (a +:+ s) eqn:Has; [|done].
  destruct a; [by rewrite append_nil in Has | by rewrite append_cons in Has].
Qed.

Lemma strip_join (words : list string) :
  words ≠ [] →
  Forall (fun w => all_chars not_space w ∧ w ≠ "") words →
  Py.strip (Py.join " " words +:+ " ") = Py.join " " words.
Proof.
  intros Hne Hwords.
  assert (Py.rstrip (Py.join " " words) = Py.join " " words
          ∧ Py.join " " words ≠ "") as [Hr Hn].
  { induction Hwords as [|w words [Hw Hwn] Hwords IH]; [done|].
    destruct words as [|w' words].
    - simpl. split; [by apply rstrip_id | done].
    - destruct IH as [IH1 IH2]; [done|]. rewrite join_cons. split.
      + rewrite <- append_assoc. by apply rstrip_append.
      + destruct w; [done | by rewrite append_cons]. }
  unfold Py.strip.
  destruct Hwords as [|w words [Hw Hwn] Hwords]; [done|].
  assert (∃ c t, Py.join " " (w :: words) = String c t ∧ not_space c)
    as (c & t & Hj & Hc).
  { destruct w as [|c w]; [done|]. destruct Hw as [Hc _].
    destruct words; [by exists c, w|]. rewrite join_cons, append_cons. eauto. }
  rewrite Hj in *. rewrite append_cons, lstrip_id by done.
  by rewrite <- append_cons, rstrip_blank.
Qed.

Lemma to_hex_nonempty z : to_hex z ≠ "".
Proof.
  unfold to_hex, Py.format_X, Py.render.
  pose proof (digits_nonempty 16 true (Z.abs_N z)) as Hne.
  destruct (z <? 0); rewrite ?append_cons, !append_nil; [done|].
  by destruct (Py.digits 16 true (Z.abs_N z)).
Qed.

(** X21: a line in the format that [read_emoji_sequences] documents is read
    as the format says: the code points of the line are the numbers in
    front of the first field separator, in their order; what follows the
    separator is not looked at. *)
Theorem sequence_line_format (codepoints : list Z) (rest : string) :
  codepoints ≠ [] → Forall (fun c => 0 ≤ c) codepoints →
  sequence_line (Py.join " " (to_hex <$> codepoints) +:+ " ; " +:+ rest)
  = Ok codepoints.
Proof.
  intros Hne Hpos. unfold sequence_line.
  assert (Forall (fun w => is_digit_string w) (to_hex <$> codepoints)) as Hwords.
  { apply Forall_fmap. eapply Forall_impl; [exact Hpos|]. intros c Hc.
    split; [by apply to_hex_digits | apply to_hex_nonempty]. }
  assert (to_hex <$> codepoints ≠ []) as Hne' by (by destruct codepoints).
  assert (lacks ";" (Py.join " " (to_hex <$> codepoints) +:+ " ")) as Hsemi.
  { apply lacks_append. split; [|by repeat split].
    clear Hne Hne' Hpos. induction Hwords as [|w words [Hw _] Hwords IH]; [done|].
    assert (lacks ";" w) as Hw'.
    { revert Hw. apply all_chars_impl. by intros c (? & _)%is_digit_word. }
    destruct words as [|w' words]; [done|].
    rewrite join_cons. apply lacks_append. split; [done|].
    apply lacks_append. by repeat split. }
  replace (Py.join " " (to_hex <$> codepoints) +:+ " ; " +:+ rest)
    with ((Py.join " " (to_hex <$> codepoints) +:+ " ") +:+ ";" +:+ (" " +:+ rest))
    by (by rewrite !append_assoc).
  rewrite split_hit by done. cbn [index lookup list_lookup mbind result_bind].
  rewrite strip_join; [|done|].
  - rewrite split_join; [|done|].
    + rewrite (comprehension_fmap hex_str_to_int to_hex id).
      * by rewrite list_fmap_id.
      * intros c _. apply hex_str_to_int_to_hex.
    + eapply Forall_impl; [exact Hwords|]. intros w [Hw _].
      by apply lacks_blank_not_space, digits_not_space.
  - eapply Forall_impl; [exact Hwords|]. intros w [Hw Hn].
    split; [by apply digits_not_space | done].
Qed.

Lemma sequence_line_format_witness :
  sequence_line (Py.join " " (to_hex <$> [0x1F1E6; 0x1F1E8]) +:+ " ; "
                 +:+ "EMOJI_FLAG_SEQUENCE ; ASCENSION ISLAND")
  = Ok [0x1F1E6; 0x1F1E8].
Proof.
  apply (sequence_line_format [0x1F1E6; 0x1F1E8]
           "EMOJI_FLAG_SEQUENCE ; ASCENSION ISLAND"); [done|].
  repeat constructor; lia.
Defined.
